(** * HotCold-btree: a B-tree (btree.c) and a hot/cold tiered index (hctree.c)

    Shallow embedding of the two C translation units, of the two modes of
    the driver (main.c), and the properties of their operations.

    Modelling conventions.
    - [BTKey] is [int64_t]; the code only compares keys, so a key is a [Z].
    - [BTPayload] is [void*]; a payload is the address as a [Z], [NULL] is 0.
    - A node's arrays [keys], [values], [children] are modelled by the
      lists of their live slots: [keys[0..nkeys)], [values[0..nkeys)] and
      [children[0..nkeys]] ([nkeys] is the length of [keys]).  The code
      never reads a slot outside the live ones before writing it.  The one
      slot right after the live prefix is written by the shifting loops
      before [nkeys] is incremented; [array_set] models such a write.
    - [int] counters and indices that are never negative are [nat];
      the [long] statistics counters are [Z].
    - [double] is IEEE binary64, modelled by [spec_float] with the
      operations of [SpecFloat] at precision 53 and maximal exponent 1024. *)

From Stdlib Require Import ZArith List Bool Lia Permutation Sorted SpecFloat.
From Stdlib Require Import QArith Qround.
Import ListNotations.
Close Scope Q_scope.

Set Warnings "-register-all".

Set Implicit Arguments.

(* ================================================================== *)
(** * btree.h / btree.c                                                *)
(* ================================================================== *)

(** [typedef int64_t BTKey; typedef void* BTPayload;] *)
Abbreviation BTKey := Z (only parsing).
Abbreviation BTPayload := Z (only parsing).
Definition NULL : BTPayload := 0%Z.

(** [typedef struct { long node_visits; } BTStats;] *)
Record BTStats : Type := mkBTStats { node_visits : Z }.

(** [BTStats s = {0};] *)
Definition stats0 : BTStats := mkBTStats 0.

(** [if (stats) stats->node_visits++;] where [stats] may be the null
    pointer ([None]). *)
Definition visit (stats : option BTStats) : option BTStats :=
  match stats with
  | Some s => Some (mkBTStats (node_visits s + 1))
  | None => None
  end.

(** [struct BTreeNode]: [leaf], [keys], [values], [children]; [nkeys] is
    the length of [keys]. *)
Inductive BTreeNode : Type :=
  Node (leaf : bool) (keys : list BTKey) (values : list BTPayload)
       (children : list BTreeNode).

Definition node_leaf (x : BTreeNode) : bool :=
  match x with Node lf _ _ _ => lf end.
Definition node_keys (x : BTreeNode) : list BTKey :=
  match x with Node _ ks _ _ => ks end.
Definition node_values (x : BTreeNode) : list BTPayload :=
  match x with Node _ _ vs _ => vs end.
Definition node_children (x : BTreeNode) : list BTreeNode :=
  match x with Node _ _ _ cs => cs end.
Definition nkeys (x : BTreeNode) : nat := length (node_keys x).

(** [typedef struct { BTreeNode *root; int t; } BTree;] *)
Record BTree : Type := mkBTree { root : BTreeNode; bt_t : nat }.

(** [bt_new_node(t, leaf)]: no key, every child slot null. *)
Definition bt_new_node (t : nat) (leaf : bool) : BTreeNode :=
  Node leaf [] [] [].

(** [bt_create(t)] *)
Definition bt_create (t : nat) : BTree := mkBTree (bt_new_node t true) t.

(** A dummy node standing for whatever an out-of-range child slot holds. *)
Definition no_node : BTreeNode := Node true [] [] [].

(** ** Search *)

(** [int i = 0; while (i < node->nkeys && k > node->keys[i]) i++;] *)
Fixpoint scan_up (ks : list BTKey) (k : BTKey) : nat :=
  match ks with
  | key :: ks' => if (k >? key)%Z then S (scan_up ks' k) else O
  | [] => O
  end.

(** The call [rec(children[i])], with [dflt] standing for the behaviour on
    a child slot that holds no node. *)
Fixpoint at_child {R : Type} (rec : BTreeNode -> R) (dflt : R)
         (cs : list BTreeNode) (i : nat) {struct cs} : R :=
  match cs with
  | [] => dflt
  | c :: cs' =>
      match i with
      | O => rec c
      | S i' => at_child rec dflt cs' i'
      end
  end.

(** [bt_search_node(node, k, stats, t)]; the result is the payload and
    the statistics after the call. *)
Fixpoint bt_search_node (node : BTreeNode) (k : BTKey)
         (stats : option BTStats) : BTPayload * option BTStats :=
  match node with
  | Node lf ks vs cs =>
      let stats := visit stats in
      let i := scan_up ks k in
      if (i <? length ks) && (k =? nth i ks 0)%Z then (nth i vs NULL, stats)
      else if lf then (NULL, stats)
      else at_child (fun c => bt_search_node c k stats) (NULL, stats) cs i
  end.

(** [bt_search(tree, k, stats)] *)
Definition bt_search (tree : BTree) (k : BTKey) (stats : option BTStats)
  : BTPayload * option BTStats :=
  bt_search_node (root tree) k stats.

(** ** Insertion *)

(** A store [a[i] = x] into an array whose live prefix is [l]: inside the
    prefix it replaces the slot, at [i = length l] it fills the first slot
    after the prefix. *)
Fixpoint array_set {A : Type} (l : list A) (i : nat) (x : A) : list A :=
  match l, i with
  | [], _ => [x]
  | _ :: l', O => x :: l'
  | a :: l', S i' => a :: array_set l' i' x
  end.

(** Insertion of [x] before slot [i], the effect of the right-shifting
    loops of [bt_split_child] followed by the store at [i]. *)
Definition insert_at {A : Type} (l : list A) (i : nat) (x : A) : list A :=
  firstn i l ++ x :: skipn i l.

(** [bt_split_child(tree, x, i)] *)
Definition bt_split_child (t : nat) (x : BTreeNode) (i : nat) : BTreeNode :=
  let y := nth i (node_children x) no_node in
  let z := Node (node_leaf y)
                (firstn (t - 1) (skipn t (node_keys y)))
                (firstn (t - 1) (skipn t (node_values y)))
                (if node_leaf y then []
                 else firstn t (skipn t (node_children y))) in
  let y' := Node (node_leaf y)
                 (firstn (t - 1) (node_keys y))
                 (firstn (t - 1) (node_values y))
                 (firstn t (node_children y)) in
  Node (node_leaf x)
       (insert_at (node_keys x) i (nth (t - 1) (node_keys y) 0%Z))
       (insert_at (node_values x) i (nth (t - 1) (node_values y) NULL))
       (firstn i (node_children x) ++ y' :: z
          :: skipn (S i) (node_children x)).

(** The loop [while (i >= 0 && k < x->keys[i]) i--;] started at
    [i = n - 1]; the result is [i + 1]. *)
Fixpoint scan_down (ks : list BTKey) (k : BTKey) (n : nat) : nat :=
  match n with
  | O => O
  | S i => if (k <? nth i ks 0)%Z then scan_down ks k i else S i
  end.

(** The shifting loop of the leaf case,
    [while (i >= 0 && k < keys[i]) { keys[i+1] = keys[i];
       values[i+1] = values[i]; i--; }]
    started at [i = n - 1]; the result is the two arrays and [i + 1]. *)
Fixpoint shift_loop (ks : list BTKey) (vs : list BTPayload) (k : BTKey)
         (n : nat) : list BTKey * list BTPayload * nat :=
  match n with
  | O => (ks, vs, O)
  | S i =>
      if (k <? nth i ks 0)%Z
      then shift_loop (array_set ks (S i) (nth i ks 0%Z))
                      (array_set vs (S i) (nth i vs NULL)) k i
      else (ks, vs, S i)
  end.

(** The leaf case of [bt_insert_nonfull]. *)
Definition insert_leaf (ks : list BTKey) (vs : list BTPayload)
           (k : BTKey) (v : BTPayload) : list BTKey * list BTPayload :=
  let n := length ks in
  let '(ks1, vs1, p) := shift_loop ks vs k n in
  if (1 <=? p) && (nth (p - 1) ks1 0 =? k)%Z
  then (firstn n ks1, firstn n (array_set vs1 (p - 1) v))
  else (firstn (S n) (array_set ks1 p k), firstn (S n) (array_set vs1 p v)).

(** [bt_insert_nonfull(tree, x, k, v)].  The recursion goes one level down
    the tree per call; [fuel] bounds its depth, and [None] means that the
    fuel ran out. *)
Fixpoint bt_insert_nonfull (fuel : nat) (t : nat) (x : BTreeNode)
         (k : BTKey) (v : BTPayload) : option BTreeNode :=
  match fuel with
  | O => None
  | S fuel' =>
      match x with
      | Node lf ks vs cs =>
          if lf then
            let '(ks', vs') := insert_leaf ks vs k v in
            Some (Node lf ks' vs' cs)
          else
            let i := scan_down ks k (length ks) in
            let full := nkeys (nth i cs no_node) =? 2 * t - 1 in
            let x1 := if full then bt_split_child t x i else x in
            let i1 := if full && (k >? nth i (node_keys x1) 0)%Z
                      then S i else i in
            match bt_insert_nonfull fuel' t
                    (nth i1 (node_children x1) no_node) k v with
            | Some c' =>
                Some (Node (node_leaf x1) (node_keys x1) (node_values x1)
                           (array_set (node_children x1) i1 c'))
            | None => None
            end
      end
  end.

(** The number of levels below and including [x]. *)
Fixpoint height (x : BTreeNode) : nat :=
  match x with
  | Node _ _ _ cs => S (fold_right (fun c h => Nat.max (height c) h) O cs)
  end.

(** [bt_insert(tree, k, v)].  The fuel given to [bt_insert_nonfull] is the
    height of the node it starts from, which is enough
    (see [bt_insert_nonfull_total]). *)
Definition bt_insert (tree : BTree) (k : BTKey) (v : BTPayload) : BTree :=
  let r := root tree in
  let t := bt_t tree in
  let start :=
    if nkeys r =? 2 * t - 1
    then bt_split_child t (Node false [] [] [r]) 0
    else r in
  match bt_insert_nonfull (height start) t start k v with
  | Some r' => mkBTree r' t
  | None => tree
  end.

(** ** Range search *)

(** The callback [void cb(BTKey, BTPayload, void *arg)] acting on the
    state [A] behind [arg]. *)
Definition BTRangeCallback (A : Type) : Type := BTKey -> BTPayload -> A -> A.

Section Range.
Variable A : Type.
Variables lo hi : BTKey.
Variable cb : BTRangeCallback A.

(** The loop of [bt_range_node] when no child is entered: a leaf, or
    child slots that are null. *)
Fixpoint range_keys (ks : list BTKey) (vs : list BTPayload) (arg : A) : A :=
  match ks with
  | [] => arg
  | key :: ks' =>
      let arg1 := if (key >=? lo)%Z && (key <=? hi)%Z
                  then cb key (hd NULL vs) arg else arg in
      if (key >? hi)%Z then arg1 else range_keys ks' (tl vs) arg1
  end.

(** The [for] loop of [bt_range_node] on an internal node, from index
    [i] on: [cs], [ks], [vs] are [children[i..]], [keys[i..]] and
    [values[i..]], and [rec] is the recursive call on a child. *)
Fixpoint range_loop
         (rec : BTreeNode -> A -> option BTStats -> A * option BTStats)
         (cs : list BTreeNode) (ks : list BTKey) (vs : list BTPayload)
         (st : A * option BTStats) {struct cs} : A * option BTStats :=
  match cs with
  | [] => (range_keys ks vs (fst st), snd st)
  | c :: cs' =>
      match ks with
      | [] => rec c (fst st) (snd st)
      | key :: ks' =>
          let st1 := if (lo <=? key)%Z then rec c (fst st) (snd st)
                     else st in
          let st2 := if (key >=? lo)%Z && (key <=? hi)%Z
                     then (cb key (hd NULL vs) (fst st1), snd st1)
                     else st1 in
          if (key >? hi)%Z then rec c (fst st2) (snd st2)
          else range_loop rec cs' ks' (tl vs) st2
      end
  end.

(** [bt_range_node(node, lo, hi, cb, arg, stats, t)] *)
Fixpoint bt_range_node (node : BTreeNode) (arg : A)
         (stats : option BTStats) : A * option BTStats :=
  match node with
  | Node lf ks vs cs =>
      let stats := visit stats in
      if lf then (range_keys ks vs arg, stats)
      else range_loop bt_range_node cs ks vs (arg, stats)
  end.

(** [bt_range_search(tree, lo, hi, cb, arg, stats)] *)
Definition bt_range_search (tree : BTree) (arg : A)
           (stats : option BTStats) : A * option BTStats :=
  bt_range_node (root tree) arg stats.
End Range.

(** ** Counting *)

(** [for (int i = 0; i <= node->nkeys; i++) res += rec(children[i]);]
    with [n = nkeys + 1]; a null child counts for nothing. *)
Fixpoint sum_children (rec : BTreeNode -> nat) (cs : list BTreeNode)
         (n : nat) {struct cs} : nat :=
  match cs, n with
  | c :: cs', S n' => rec c + sum_children rec cs' n'
  | _, _ => O
  end.

(** [bt_count_keys_node(node)] *)
Fixpoint bt_count_keys_node (node : BTreeNode) : nat :=
  match node with
  | Node lf ks vs cs =>
      length ks +
      (if lf then O else sum_children bt_count_keys_node cs (S (length ks)))
  end.

(** [bt_count_keys(tree)] *)
Definition bt_count_keys (tree : BTree) : nat :=
  bt_count_keys_node (root tree).

(** The callback that records every emitted pair, in emission order. *)
Definition emit_log : BTRangeCallback (list (BTKey * BTPayload)) :=
  fun k v log => log ++ [(k, v)].

Definition bt_insert_all (tree : BTree) (kvs : list (BTKey * BTPayload))
  : BTree :=
  fold_left (fun tr kv => bt_insert tr (fst kv) (snd kv)) kvs tree.

(* ================================================================== *)
(** * hctree.h / hctree.c                                              *)
(* ================================================================== *)

(** [double]: IEEE binary64. *)
Abbreviation double := spec_float (only parsing).
Definition d_mul : double -> double -> double := SFmul 53 1024.
Definition d_add : double -> double -> double := SFadd 53 1024.
(** [x >= y] on doubles (false when either side is a NaN). *)
Definition d_ge (x y : double) : bool := SFleb y x.
(** The conversion [(double)n] of an integer. *)
Definition d_of_Z (n : Z) : double := binary_normalize 53 1024 n 0 false.
Definition d_zero : double := S754_zero false.
Definition d_one : double := d_of_Z 1.

(** [HCParams]; [inclusive] is an [int] used as a truth value. *)
Record HCParams : Type := mkHCParams {
  decay_alpha : double;
  hot_threshold : double;
  max_hot_fraction : double;
  inclusive : Z
}.

(** [HCStats] *)
Record HCStats : Type := mkHCStats {
  queries : Z;
  hot_hits : Z;
  cold_hits : Z;
  not_found : Z;
  hot_node_visits : Z;
  cold_node_visits : Z;
  hot_keys : nat;
  cold_keys : nat
}.

(** [HCIndex] *)
Record HCIndex : Type := mkHCIndex {
  hot : BTree;
  cold : BTree;
  max_key : Z;
  hit_score : list double;
  params : HCParams;
  stats : HCStats
}.

(** [hc_create(max_key, btree_degree, params)]: two empty trees, a zeroed
    score array of [max_key + 1] doubles, zeroed statistics. *)
Definition hc_create (max_key : Z) (btree_degree : nat) (params : HCParams)
  : HCIndex :=
  mkHCIndex (bt_create btree_degree) (bt_create btree_degree) max_key
            (repeat d_zero (Z.to_nat (max_key + 1))) params
            (mkHCStats 0 0 0 0 0 0 0 0).

(** The line that [hc_insert] prints on [stderr]:
    "hc_insert: key <k> out of range [0, <max_key>]". *)
Inductive diagnostic : Type :=
  hc_insert_out_of_range (k : BTKey) (max_key : Z).

Definition set_cold (idx : HCIndex) (c : BTree) : HCIndex :=
  mkHCIndex (hot idx) c (max_key idx) (hit_score idx) (params idx) (stats idx).
Definition set_hot (idx : HCIndex) (h : BTree) : HCIndex :=
  mkHCIndex h (cold idx) (max_key idx) (hit_score idx) (params idx) (stats idx).
Definition set_hit_score (idx : HCIndex) (sc : list double) : HCIndex :=
  mkHCIndex (hot idx) (cold idx) (max_key idx) sc (params idx) (stats idx).
Definition set_stats (idx : HCIndex) (s : HCStats) : HCIndex :=
  mkHCIndex (hot idx) (cold idx) (max_key idx) (hit_score idx) (params idx) s.

(** [hc_insert(idx, k, v)]: the index after the call and what was printed
    on [stderr]. *)
Definition hc_insert (idx : HCIndex) (k : BTKey) (v : BTPayload)
  : HCIndex * option diagnostic :=
  if (k <? 0)%Z || (k >? max_key idx)%Z
  then (idx, Some (hc_insert_out_of_range k (max_key idx)))
  else (set_cold idx (bt_insert (cold idx) k v), None).

(** [(size_t)(idx->max_key + 1)] *)
Definition total_keys (idx : HCIndex) : Z := ((max_key idx + 1) mod 2 ^ 64)%Z.

(** [double max_hot = idx->params.max_hot_fraction * (double)total_keys;] *)
Definition max_hot (idx : HCIndex) : double :=
  d_mul (max_hot_fraction (params idx)) (d_of_Z (total_keys idx)).

(** The test [(double)hot_keys >= max_hot] of [maybe_promote]. *)
Definition hot_full (idx : HCIndex) (hot_keys : nat) : bool :=
  d_ge (d_of_Z (Z.of_nat hot_keys)) (max_hot idx).

(** [maybe_promote(idx, k)] *)
Definition maybe_promote (idx : HCIndex) (k : BTKey) : HCIndex :=
  if (inclusive (params idx) =? 0)%Z then idx
  else
    let hot_keys := bt_count_keys (hot idx) in
    if hot_full idx hot_keys then idx
    else
      let existing := fst (bt_search (hot idx) k (Some stats0)) in
      if negb (existing =? NULL)%Z then idx
      else
        let v := fst (bt_search (cold idx) k (Some stats0)) in
        if (v =? NULL)%Z then idx
        else set_hot idx (bt_insert (hot idx) k v).

(** The visits counted in a [BTStats] that started at [{0}]. *)
Definition visits_of (s : option BTStats) : Z :=
  match s with Some s => node_visits s | None => 0%Z end.

(** [idx->params.decay_alpha * old + 1.0] *)
Definition next_score (idx : HCIndex) (k : BTKey) : double :=
  d_add (d_mul (decay_alpha (params idx))
               (nth (Z.to_nat k) (hit_score idx) d_zero)) d_one.

(** The updates of the statistics counters. *)
Definition inc_queries (s : HCStats) : HCStats :=
  mkHCStats (queries s + 1) (hot_hits s) (cold_hits s) (not_found s)
            (hot_node_visits s) (cold_node_visits s) (hot_keys s)
            (cold_keys s).
Definition inc_hot_hits (s : HCStats) : HCStats :=
  mkHCStats (queries s) (hot_hits s + 1) (cold_hits s) (not_found s)
            (hot_node_visits s) (cold_node_visits s) (hot_keys s)
            (cold_keys s).
Definition inc_cold_hits (s : HCStats) : HCStats :=
  mkHCStats (queries s) (hot_hits s) (cold_hits s + 1) (not_found s)
            (hot_node_visits s) (cold_node_visits s) (hot_keys s)
            (cold_keys s).
Definition inc_not_found (s : HCStats) : HCStats :=
  mkHCStats (queries s) (hot_hits s) (cold_hits s) (not_found s + 1)
            (hot_node_visits s) (cold_node_visits s) (hot_keys s)
            (cold_keys s).
Definition add_hot_node_visits (s : HCStats) (n : Z) : HCStats :=
  mkHCStats (queries s) (hot_hits s) (cold_hits s) (not_found s)
            (hot_node_visits s + n) (cold_node_visits s) (hot_keys s)
            (cold_keys s).
Definition add_cold_node_visits (s : HCStats) (n : Z) : HCStats :=
  mkHCStats (queries s) (hot_hits s) (cold_hits s) (not_found s)
            (hot_node_visits s) (cold_node_visits s + n) (hot_keys s)
            (cold_keys s).

(** [k >= 0 && k <= idx->max_key] *)
Definition in_key_range (idx : HCIndex) (k : BTKey) : bool :=
  (k >=? 0)%Z && (k <=? max_key idx)%Z.

(** [idx->hit_score[k] = score;] *)
Definition store_score (idx : HCIndex) (k : BTKey) (score : double)
  : HCIndex :=
  set_hit_score idx (array_set (hit_score idx) (Z.to_nat k) score).

(** [hc_search(idx, k)]: the payload returned and the index after the
    call. *)
Definition hc_search (idx : HCIndex) (k : BTKey) : BTPayload * HCIndex :=
  let idx := set_stats idx (inc_queries (stats idx)) in
  let '(v, hot_s) := bt_search (hot idx) k (Some stats0) in
  let idx :=
    set_stats idx (add_hot_node_visits (stats idx) (visits_of hot_s)) in
  if negb (v =? NULL)%Z then
    let idx := set_stats idx (inc_hot_hits (stats idx)) in
    if in_key_range idx k
    then (v, store_score idx k (next_score idx k))
    else (v, idx)
  else
    let '(v, cold_s) := bt_search (cold idx) k (Some stats0) in
    let idx :=
      set_stats idx (add_cold_node_visits (stats idx) (visits_of cold_s)) in
    if negb (v =? NULL)%Z then
      let idx := set_stats idx (inc_cold_hits (stats idx)) in
      if in_key_range idx k then
        let new_score := next_score idx k in
        let idx := store_score idx k new_score in
        if d_ge new_score (hot_threshold (params idx))
        then (v, maybe_promote idx k)
        else (v, idx)
      else (v, idx)
    else (NULL, set_stats idx (inc_not_found (stats idx))).

(** [HCRangeCtx] *)
Record HCRangeCtx (A : Type) : Type := mkHCRangeCtx {
  user_cb : BTRangeCallback A;
  user_arg : A;
  seen : list Z;
  ctx_idx : HCIndex
}.

(** [hc_range_cb_hot(k, v, arg)] *)
Definition hc_range_cb_hot (A : Type) : BTRangeCallback (HCRangeCtx A) :=
  fun k v ctx =>
    if (k <? 0)%Z || (k >? max_key (ctx_idx ctx))%Z then ctx
    else if (nth (Z.to_nat k) (seen ctx) 0 =? 0)%Z
         then mkHCRangeCtx (user_cb ctx) (user_cb ctx k v (user_arg ctx))
                (array_set (seen ctx) (Z.to_nat k) 1%Z) (ctx_idx ctx)
         else ctx.

(** [hc_range_cb_cold(k, v, arg)] *)
Definition hc_range_cb_cold (A : Type) : BTRangeCallback (HCRangeCtx A) :=
  fun k v ctx =>
    if (k <? 0)%Z || (k >? max_key (ctx_idx ctx))%Z then ctx
    else if (nth (Z.to_nat k) (seen ctx) 0 =? 0)%Z
         then mkHCRangeCtx (user_cb ctx) (user_cb ctx k v (user_arg ctx))
                (array_set (seen ctx) (Z.to_nat k) 1%Z) (ctx_idx ctx)
         else ctx.

(** [hc_range_search(idx, lo, hi, cb, arg)]: the state behind [arg] and the
    index after the call. *)
Definition hc_range_search (A : Type) (idx : HCIndex) (lo hi : BTKey)
           (cb : BTRangeCallback A) (arg : A) : A * HCIndex :=
  let ctx := mkHCRangeCtx cb arg (repeat 0%Z (Z.to_nat (max_key idx + 1)))
               idx in
  let '(ctx1, hot_s) :=
    bt_range_search lo hi (@hc_range_cb_hot A) (hot idx) ctx (Some stats0) in
  let '(ctx2, cold_s) :=
    bt_range_search lo hi (@hc_range_cb_cold A) (cold idx) ctx1
                    (Some stats0) in
  (user_arg ctx2,
   set_stats idx
     (add_cold_node_visits
        (add_hot_node_visits (stats idx) (visits_of hot_s))
        (visits_of cold_s))).

(** [hc_get_stats(idx)] *)
Definition hc_get_stats (idx : HCIndex) : HCStats :=
  let s := stats idx in
  mkHCStats (queries s) (hot_hits s) (cold_hits s) (not_found s)
            (hot_node_visits s) (cold_node_visits s)
            (bt_count_keys (hot idx)) (bt_count_keys (cold idx)).

(** ** Sequences of calls of the public interface *)

Inductive hc_op : Type :=
| OpInsert (k : BTKey) (v : BTPayload)
| OpSearch (k : BTKey)
| OpRange (lo hi : BTKey).

Definition hc_step (idx : HCIndex) (op : hc_op) : HCIndex :=
  match op with
  | OpInsert k v => fst (hc_insert idx k v)
  | OpSearch k => snd (hc_search idx k)
  | OpRange lo hi => snd (hc_range_search idx lo hi emit_log [])
  end.

Definition hc_run (ops : list hc_op) (idx : HCIndex) : HCIndex :=
  fold_left hc_step ops idx.

(* ================================================================== *)
(** * What a tree stores                                               *)
(* ================================================================== *)

Abbreviation entry := (BTKey * BTPayload)%type (only parsing).

(** [s0 e0 s1 e1 ... e(n-1) sn]: the in-order sequence of an internal node
    whose children store [ss] and whose own pairs are [es]. *)
Fixpoint interleave (ss : list (list entry)) (es : list entry) : list entry :=
  match ss with
  | [] => []
  | s :: ss' =>
      s ++ match es with
           | [] => []
           | e :: es' => e :: interleave ss' es'
           end
  end.

(** The pairs stored in the live slots of the subtree, in order. *)
Fixpoint entries (x : BTreeNode) : list entry :=
  match x with
  | Node lf ks vs cs =>
      if lf then combine ks vs
      else interleave (map entries cs) (combine ks vs)
  end.

Definition tree_entries (tr : BTree) : list entry := entries (root tr).
Definition tree_keys (tr : BTree) : list BTKey := map fst (tree_entries tr).

(** Keys in non-decreasing order. *)
Definition ksorted (l : list entry) : Prop :=
  StronglySorted Z.le (map fst l).

(** The shape the code relies on: as many values as keys, at most
    [2t - 1] keys, no child below a leaf, [nkeys + 1] children below an
    internal node. *)
Inductive wf_node (t : nat) : BTreeNode -> Prop :=
| wf_leaf : forall ks vs,
    length vs = length ks -> length ks <= 2 * t - 1 ->
    wf_node t (Node true ks vs [])
| wf_internal : forall ks vs cs,
    length vs = length ks -> length ks <= 2 * t - 1 ->
    length cs = S (length ks) -> Forall (wf_node t) cs ->
    wf_node t (Node false ks vs cs).

(** What every tree built by the code satisfies. *)
Definition tree_inv (tr : BTree) : Prop :=
  2 <= bt_t tr /\ wf_node (bt_t tr) (root tr) /\ ksorted (tree_entries tr).

(** The nodes that [bt_search_node] enters, root first. *)
Fixpoint search_path (node : BTreeNode) (k : BTKey) : list BTreeNode :=
  match node with
  | Node lf ks vs cs =>
      let i := scan_up ks k in
      node ::
      (if (i <? length ks) && (k =? nth i ks 0)%Z then []
       else if lf then []
       else at_child (fun c => search_path c k) [] cs i)
  end.

(** The array after the shifting loop of the leaf case went over the
    slots holding [lb], which are followed by [l2]: the first slot of [lb]
    is kept and [lb] is copied one slot to the right. *)
Definition shifted (A : Type) (lb l2 : list A) : list A :=
  match lb with
  | [] => l2
  | b :: _ => b :: lb ++ tl l2
  end.

(** The live slots left by the shifting loop when [nkeys] is not
    incremented: the first slot twice, the last slot dropped. *)
Definition dup (A : Type) (l : list A) : list A :=
  match l with
  | [] => []
  | b :: l0 => b :: firstn (length l0) l
  end.

(** What an insertion of [(k, v)] makes of the stored sequence [l]. *)
Definition ins_ok (k : BTKey) (v : BTPayload) (l l' : list entry) : Prop :=
  ksorted l' /\ incl l' ((k, v) :: l) /\ In (k, v) l' /\
  length l <= length l' <= S (length l) /\
  (~ In k (map fst l) -> Permutation l' ((k, v) :: l)).

(** The largest height among the nodes [cs]. *)
Definition max_height (cs : list BTreeNode) : nat :=
  fold_right (fun c h => Nat.max (height c) h) O cs.

(** The number of elements of the lists [ss] together. *)
Definition total_length (A : Type) (ss : list (list A)) : nat :=
  fold_right (fun s n => length s + n) O ss.

Section RangeOut.
Variables lo hi : Z.

(** The pairs that [range_keys] passes to the callback. *)
Fixpoint keys_out (ks : list Z) (vs : list Z) : list (Z * Z) :=
  match ks with
  | [] => []
  | key :: ks' =>
      (if (key >=? lo)%Z && (key <=? hi)%Z then [(key, hd NULL vs)]
       else []) ++
      (if (key >? hi)%Z then [] else keys_out ks' (tl vs))
  end.

(** The pairs that [range_loop] passes to the callback. *)
Fixpoint loop_out (rec : BTreeNode -> list (Z * Z)) (cs : list BTreeNode)
         (ks : list Z) (vs : list Z) {struct cs} : list (Z * Z) :=
  match cs with
  | [] => keys_out ks vs
  | c :: cs' =>
      match ks with
      | [] => rec c
      | key :: ks' =>
          (if (lo <=? key)%Z then rec c else []) ++
          (if (key >=? lo)%Z && (key <=? hi)%Z then [(key, hd NULL vs)]
           else []) ++
          (if (key >? hi)%Z then rec c
           else loop_out rec cs' ks' (tl vs))
      end
  end.

(** The pairs that [bt_range_node] passes to the callback, in order. *)
Fixpoint range_out (x : BTreeNode) : list (Z * Z) :=
  match x with
  | Node lf ks vs cs =>
      if lf then keys_out ks vs else loop_out range_out cs ks vs
  end.
End RangeOut.

(** The callback applied to the pairs [l] in order, from the state
    [arg]. *)
Definition feed (A : Type) (cb : BTRangeCallback A) (arg : A)
           (l : list (Z * Z)) : A :=
  fold_left (fun a e => cb (fst e) (snd e) a) l arg.

(** What every index built by the code satisfies. *)
Definition hc_inv (idx : HCIndex) : Prop :=
  tree_inv (hot idx) /\ tree_inv (cold idx) /\
  (forall e, In e (tree_entries (hot idx)) ->
             snd e <> NULL /\ (0 <= fst e <= max_key idx)%Z) /\
  (forall e, In e (tree_entries (cold idx)) ->
             (0 <= fst e <= max_key idx)%Z) /\
  length (hit_score idx) = Z.to_nat (max_key idx + 1).

(** ** Notions used to state the properties of the index *)

(** The pairs that the [hc_insert] calls of [ops] were given, in order. *)
Fixpoint inserted (ops : list hc_op) : list (BTKey * BTPayload) :=
  match ops with
  | [] => []
  | OpInsert k v :: ops' => (k, v) :: inserted ops'
  | _ :: ops' => inserted ops'
  end.

(** No call of [ops] is an [hc_insert] of the key [k]. *)
Definition no_insert_of (k : BTKey) (ops : list hc_op) : Prop :=
  ~ In k (map fst (inserted ops)).

(** The rational number that a finite double is. *)
Definition Q_of_double (x : double) : option Q :=
  match x with
  | S754_zero _ => Some (inject_Z 0)
  | S754_finite s m e =>
      Some (Qmult (inject_Z (if s then Z.neg m else Z.pos m))
                  (Qpower (inject_Z 2) e))
  | _ => None
  end.

(** The bound [floor (max_hot_fraction * (max_key + 1))], the product
    taken exactly. *)
Definition hot_capacity_floor (idx : HCIndex) : option Z :=
  match Q_of_double (max_hot_fraction (params idx)) with
  | Some q => Some (Qfloor (Qmult q (inject_Z (max_key idx + 1))))
  | None => None
  end.

(** The node visits counted by the [BTStats] of the two [bt_search] calls
    of [maybe_promote] ([s] and [s2]), which the code drops. *)
Definition promote_probe_visits (idx : HCIndex) (k : BTKey) : Z :=
  if (inclusive (params idx) =? 0)%Z then 0%Z
  else if hot_full idx (bt_count_keys (hot idx)) then 0%Z
  else
    let '(existing, s) := bt_search (hot idx) k (Some stats0) in
    if negb (existing =? NULL)%Z then visits_of s
    else
      let '(_, s2) := bt_search (cold idx) k (Some stats0) in
      (visits_of s + visits_of s2)%Z.

(** The node visits counted by the [BTStats] of every [bt_search] call
    made during [hc_search(idx, k)], those of [maybe_promote] included.
    The nodes that [bt_count_keys] and [bt_insert] touch during a
    promotion come on top of these. *)
Definition search_probe_visits (idx : HCIndex) (k : BTKey) : Z :=
  let '(v, hot_s) := bt_search (hot idx) k (Some stats0) in
  if negb (v =? NULL)%Z then visits_of hot_s
  else
    let '(v, cold_s) := bt_search (cold idx) k (Some stats0) in
    (visits_of hot_s + visits_of cold_s +
     (if negb (v =? NULL)%Z && in_key_range idx k &&
         d_ge (next_score idx k) (hot_threshold (params idx))
      then promote_probe_visits idx k else 0))%Z.

(** The doubles 0.5 and 1.0 and parameter records used in examples. *)
Definition d_half : double := binary_normalize 53 1024 1 (-1) false.
Definition params_full : HCParams := mkHCParams d_half d_one d_one 1.
Definition params_half : HCParams := mkHCParams d_half d_one d_half 1.

(** The hot tree holds no key, or one more than a number of keys that the
    capacity test of [maybe_promote] found below capacity. *)
Definition hot_within_capacity (idx : HCIndex) : Prop :=
  bt_count_keys (hot idx) = 0 \/
  hot_full idx (bt_count_keys (hot idx) - 1) = false.

(** The state of the deduplicating callback while the pairs are logged:
    the slots of [seen] that are set are those of the logged keys, and no
    key is logged twice. *)
Definition seen_inv (mk : Z) (ctx : HCRangeCtx (list (Z * Z))) : Prop :=
  user_cb ctx = emit_log /\ max_key (ctx_idx ctx) = mk /\
  length (seen ctx) = Z.to_nat (mk + 1) /\
  NoDup (map fst (user_arg ctx)) /\
  (forall k, (0 <= k <= mk)%Z ->
             (nth (Z.to_nat k) (seen ctx) 0 <> 0)%Z <->
             In k (map fst (user_arg ctx))).

(** The key [k] is stored in the cold tree with the payload [NULL] only,
    and is not stored in the hot tree. *)
Definition null_bound (k : BTKey) (idx : HCIndex) : Prop :=
  hc_inv idx /\
  (forall v, In (k, v) (tree_entries (cold idx)) -> v = NULL) /\
  ~ In k (tree_keys (hot idx)).

(** ** Notions used to state further properties *)

(** The subtree [x] has all its leaves [h] levels below it, holds at least
    [m] keys in its top node and at least [t - 1] keys in every node
    below. *)
Inductive shape (t : nat) : nat -> nat -> BTreeNode -> Prop :=
| shape_leaf : forall m ks vs cs,
    m <= length ks -> shape t m 0 (Node true ks vs cs)
| shape_node : forall m h ks vs cs,
    m <= length ks -> Forall (shape t (t - 1) h) cs ->
    shape t m (S h) (Node false ks vs cs).

(** The number of [hc_search] calls among [ops]. *)
Fixpoint searches (ops : list hc_op) : Z :=
  match ops with
  | [] => 0%Z
  | OpSearch _ :: ops' => (1 + searches ops')%Z
  | _ :: ops' => searches ops'
  end.

(** The pairs of [kvs] whose key [hc_insert] accepts. *)
Definition accepted (mk : Z) (kvs : list (BTKey * BTPayload))
  : list (BTKey * BTPayload) :=
  filter (fun e => negb ((fst e <? 0)%Z || (fst e >? mk)%Z)) kvs.

(* ================================================================== *)
(** * main.c                                                           *)
(* ================================================================== *)

(** [make_payload(k)]: [(void* )(intptr_t)k], the key itself as a
    pointer-sized value. *)
Definition make_payload (k : BTKey) : BTPayload := k.

(** [int btree_degree = 32;] *)
Definition btree_degree : nat := 32.

(** The keys [0, 1, ..., nkeys - 1] of the build loops
    [for (int64_t k = 0; k < nkeys; k++)]. *)
Definition build_keys (nkeys : Z) : list BTKey :=
  map Z.of_nat (seq 0 (Z.to_nat nkeys)).

(** The hot/cold mode of [main]: [hc_create(nkeys - 1, btree_degree,
    params)], the build loop of [hc_insert(idx, k, make_payload(k))], one
    [hc_search] for each sampled key of [qs], then [hc_get_stats]. *)
Definition main_hctree (params : HCParams) (nkeys : Z) (qs : list BTKey)
  : HCStats :=
  let idx := hc_create (nkeys - 1) btree_degree params in
  let idx := hc_run (map (fun k => OpInsert k (make_payload k))
                         (build_keys nkeys)) idx in
  let idx := hc_run (map OpSearch qs) idx in
  hc_get_stats idx.

(** What the baseline mode of [main] reports. *)
Record BaselineResult : Type := mkBaselineResult {
  base_not_found : Z;
  base_cold_hits : Z;
  base_cold_keys : nat;
  base_total_node_visits : Z
}.

(** The body of the query loop of the baseline mode, on the pair of
    [total_node_visits] and [nf]. *)
Definition baseline_query (bt : BTree) (acc : Z * Z) (k : BTKey) : Z * Z :=
  let '(v, s) := bt_search bt k (Some stats0) in
  ((fst acc + visits_of s)%Z,
   if (v =? NULL)%Z then (snd acc + 1)%Z else snd acc).

(** The keys that a query loop [for (int64_t q = 0; q < nqueries; q++)]
    draws, [sample q] being the key drawn in iteration [q]: none when
    [nqueries] is not positive. *)
Definition samples (nqueries : Z) (sample : nat -> BTKey) : list BTKey :=
  map sample (seq 0 (Z.to_nat nqueries)).

(** The baseline mode of [main]: [bt_create(btree_degree)], the build loop
    of [bt_insert(bt, k, make_payload(k))], one [bt_search] in each of the
    iterations of the query loop, then [not_found = nf] and
    [cold_hits = nqueries - nf]. *)
Definition main_baseline (nkeys nqueries : Z) (sample : nat -> BTKey)
  : BaselineResult :=
  let bt := bt_insert_all (bt_create btree_degree)
              (map (fun k => (k, make_payload k)) (build_keys nkeys)) in
  let '(total_node_visits, nf) :=
    fold_left (baseline_query bt) (samples nqueries sample) (0, 0)%Z in
  mkBaselineResult nf (nqueries - nf) (bt_count_keys bt) total_node_visits.

(** The number of sampled keys outside [[1, nkeys - 1]]. *)
Definition misses (nkeys : Z) (qs : list BTKey) : Z :=
  Z.of_nat (length (filter (fun q => negb ((0 <? q)%Z && (q <? nkeys)%Z)) qs)).

(* ================================================================== *)
(** * Lists and arrays                                                 *)
(* ================================================================== *)

Lemma BTreeNode_induction (P : BTreeNode -> Prop) :
  (forall lf ks vs cs, Forall P cs -> P (Node lf ks vs cs)) ->
  forall x, P x.
Proof.
  intros step. fix IH 1. intros [lf ks vs cs]. apply step.
  induction cs as [|c cs IHcs]; constructor; [apply IH | exact IHcs].
Qed.

Lemma at_child_nth_error (R : Type) (rec : BTreeNode -> R) (d : R) cs i :
  at_child rec d cs i =
  match nth_error cs i with Some c => rec c | None => d end.
Proof.
  revert i. induction cs as [|c cs IH]; intros [|i]; simpl; auto.
Qed.

Lemma array_set_length (A : Type) (l : list A) i x :
  i < length l -> length (array_set l i x) = length l.
Proof.
  revert i. induction l as [|a l IH]; intros [|i] H; simpl in *; try lia.
  rewrite IH; lia.
Qed.

Lemma array_set_app (A : Type) (l : list A) i x :
  i <= length l ->
  array_set l i x = firstn i l ++ x :: skipn (S i) l.
Proof.
  revert i. induction l as [|a l IH]; intros [|i] H; simpl in *;
    try lia; auto.
  rewrite IH by lia. destruct l; reflexivity.
Qed.

Lemma array_set_same (A : Type) (l : list A) i d :
  i < length l -> array_set l i (nth i l d) = l.
Proof.
  revert i. induction l as [|a l IH]; intros [|i] H; simpl in *;
    try lia; auto.
  rewrite IH by lia. reflexivity.
Qed.

Lemma array_set_map (A B : Type) (f : A -> B) (l : list A) i x :
  map f (array_set l i x) = array_set (map f l) i (f x).
Proof.
  revert i. induction l as [|a l IH]; intros [|i]; simpl; auto.
  rewrite IH. reflexivity.
Qed.

Lemma array_set_Forall (A : Type) (P : A -> Prop) (l : list A) i x :
  Forall P l -> P x -> Forall P (array_set l i x).
Proof.
  intros Hl Hx. revert i.
  induction Hl as [|a l Ha Hl IH]; intros [|i]; simpl; auto.
Qed.

Lemma nth_array_set_eq (A : Type) (l : list A) i x d :
  i <= length l -> nth i (array_set l i x) d = x.
Proof.
  revert i. induction l as [|a l IH]; intros [|i] H; simpl in *;
    try lia; auto.
  apply IH. lia.
Qed.

Lemma nth_array_set_neq (A : Type) (l : list A) i j x d :
  i < length l -> i <> j -> nth j (array_set l i x) d = nth j l d.
Proof.
  revert i j. induction l as [|a l IH]; intros [|i] [|j] H Hij; simpl in *;
    try lia; auto.
  apply IH; lia.
Qed.

(** ** Sorted sequences of pairs *)

Lemma ksorted_app l1 l2 :
  ksorted (l1 ++ l2) <->
  ksorted l1 /\ ksorted l2 /\
  (forall a b, In a l1 -> In b l2 -> (fst a <= fst b)%Z).
Proof.
  unfold ksorted. induction l1 as [|e l1 IH]; simpl.
  - split.
    + intros H. repeat split; auto. constructor. intros ? ? [].
    + intros (_ & H & _). exact H.
  - split.
    + intros H. inversion H as [|? ? Hs Hf]; subst.
      apply IH in Hs. destruct Hs as (H1 & H2 & H3).
      rewrite map_app, Forall_app in Hf. destruct Hf as [Hf1 Hf2].
      repeat split; auto.
      * constructor; auto.
      * intros a b [<-|Ha] Hb.
        -- rewrite Forall_forall in Hf2. apply Hf2. apply in_map. exact Hb.
        -- apply H3; auto.
    + intros (H1 & H2 & H3). inversion H1 as [|? ? Hs Hf]; subst.
      constructor.
      * apply IH. repeat split; auto.
      * rewrite map_app, Forall_app. split; auto.
        rewrite Forall_forall. intros kb Hkb.
        apply in_map_iff in Hkb. destruct Hkb as (b & <- & Hb).
        apply H3; auto.
Qed.

Lemma ksorted_cons e l :
  ksorted (e :: l) <->
  ksorted l /\ (forall b, In b l -> (fst e <= fst b)%Z).
Proof.
  change (e :: l) with ([e] ++ l). rewrite ksorted_app. split.
  - intros (_ & H & Hb). split; auto. intros b Hin. apply Hb; simpl; auto.
  - intros (H & Hb). repeat split; auto.
    + unfold ksorted. simpl. repeat constructor.
    + intros a b [<-|[]] Hin. auto.
Qed.

Lemma ksorted_nil : ksorted [].
Proof. constructor. Qed.

Lemma ksorted_single e : ksorted [e].
Proof. unfold ksorted. simpl. repeat constructor. Qed.

(** ** The leaf case of [bt_insert_nonfull] *)

Lemma scan_down_prefix l r k n :
  n <= length l -> scan_down (l ++ r) k n = scan_down l k n.
Proof.
  induction n as [|i IH]; intros H; simpl; auto.
  rewrite app_nth1 by lia. rewrite IH by lia. reflexivity.
Qed.

Lemma scan_down_le ks k n : scan_down ks k n <= n.
Proof.
  induction n as [|i IH]; simpl; auto.
  destruct (k <? nth i ks 0)%Z; lia.
Qed.

Lemma scan_down_snoc l a k :
  scan_down (l ++ [a]) k (S (length l)) =
  if (k <? a)%Z then scan_down l k (length l) else S (length l).
Proof.
  simpl. rewrite nth_middle.
  destruct (k <? a)%Z; auto. apply scan_down_prefix. lia.
Qed.

Lemma array_set_past (A : Type) (l r : list A) x :
  array_set (l ++ r) (length l) x = l ++ x :: tl r.
Proof.
  induction l as [|a l IH]; simpl.
  - destruct r; reflexivity.
  - rewrite IH. reflexivity.
Qed.

Lemma shift_loop_closed k l1 : forall v1 l2 v2,
  length v1 = length l1 ->
  let p := scan_down l1 k (length l1) in
  shift_loop (l1 ++ l2) (v1 ++ v2) k (length l1) =
  (firstn p l1 ++ shifted (skipn p l1) l2,
   firstn p v1 ++ shifted (skipn p v1) v2, p).
Proof.
  induction l1 as [|a l1 IH] using rev_ind; intros v1 l2 v2 Hlen.
  - destruct v1; [|discriminate]. reflexivity.
  - destruct (exists_last (l := v1)) as (v1' & av & ->).
    { intros ->. rewrite length_app in Hlen. simpl in Hlen. lia. }
    rewrite !length_app in Hlen. simpl in Hlen.
    assert (Hl : length v1' = length l1) by lia.
    rewrite length_app, Nat.add_1_r. cbv zeta.
    rewrite scan_down_snoc. simpl shift_loop.
    rewrite <- !app_assoc. cbn [app]. rewrite nth_middle.
    replace (nth (length l1) (v1' ++ av :: v2) NULL) with av
      by (rewrite <- Hl; symmetry; apply nth_middle).
    destruct (k <? a)%Z eqn:Hka.
    + change (a :: l2) with ([a] ++ l2). change (av :: v2) with ([av] ++ v2).
      rewrite (app_assoc l1), (app_assoc v1').
      replace (S (length l1)) with (length (l1 ++ [a])) at 1
        by (rewrite length_app; simpl; lia).
      rewrite array_set_past.
      replace (S (length l1)) with (length (v1' ++ [av]))
        by (rewrite !length_app; simpl; lia).
      rewrite array_set_past.
      rewrite <- !app_assoc. cbn [app].
      rewrite (IH v1' (a :: a :: tl l2) (av :: av :: tl v2) Hl).
      cbv zeta.
      pose proof (scan_down_le l1 k (length l1)) as Hp.
      set (p := scan_down l1 k (length l1)) in *.
      rewrite !firstn_app, !skipn_app.
      replace (p - length l1) with 0 by lia.
      replace (p - length v1') with 0 by lia.
      simpl firstn. simpl skipn. rewrite !app_nil_r.
      f_equal. f_equal.
      * f_equal. destruct (skipn p l1); simpl; auto.
        rewrite <- app_assoc. reflexivity.
      * f_equal. destruct (skipn p v1'); simpl; auto.
        rewrite <- app_assoc. reflexivity.
    + rewrite !firstn_app, !skipn_app.
      replace (S (length l1) - length l1) with 1 by lia.
      replace (S (length l1) - length v1') with 1 by lia.
      rewrite (@firstn_all2 _ (S (length l1)) l1) by lia.
      rewrite (@firstn_all2 _ (S (length l1)) v1') by lia.
      rewrite (@skipn_all2 _ (S (length l1)) l1) by lia.
      rewrite (@skipn_all2 _ (S (length l1)) v1') by lia.
      simpl. rewrite <- !app_assoc. reflexivity.
Qed.

Lemma shifted_nil_firstn (A : Type) (l : list A) :
  firstn (length l) (shifted l []) = dup l.
Proof.
  destruct l as [|b l0]; simpl; auto. rewrite app_nil_r. reflexivity.
Qed.

Lemma shifted_nil_tl (A : Type) (l : list A) : tl (shifted l []) = l.
Proof. destruct l; simpl; auto. rewrite app_nil_r. reflexivity. Qed.

Lemma shifted_nil_length (A : Type) (l : list A) :
  length (shifted l []) <= S (length l).
Proof. destruct l; simpl; auto. rewrite app_nil_r. simpl. lia. Qed.

Lemma scan_down_spec k ks :
  let p := scan_down ks k (length ks) in
  Forall (fun a => (k < a)%Z) (skipn p ks) /\
  (forall la0 a, firstn p ks = la0 ++ [a] -> (a <= k)%Z).
Proof.
  induction ks as [|a l IH] using rev_ind; cbv zeta.
  - simpl. split; auto. intros la0 a H. destruct la0; discriminate.
  - rewrite length_app, Nat.add_1_r, scan_down_snoc.
    destruct (k <? a)%Z eqn:Hka.
    + pose proof (scan_down_le l k (length l)) as Hp.
      destruct IH as [IH1 IH2].
      rewrite firstn_app, skipn_app.
      replace (scan_down l k (length l) - length l) with 0 by lia.
      simpl. rewrite app_nil_r. split; auto.
      apply Forall_app. split; auto. constructor; auto. lia.
    + rewrite firstn_all2, skipn_all2
        by (rewrite length_app; simpl; lia).
      split; auto. intros la0 a0 H. apply app_inj_tail in H.
      destruct H as [_ <-]. lia.
Qed.

Lemma exists_last_or_nil (A : Type) (l : list A) :
  l = [] \/ exists l0 a, l = l0 ++ [a].
Proof.
  destruct l as [|a l]; auto. right.
  destruct (exists_last (l := a :: l)) as (l0 & b & H); [discriminate|].
  eauto.
Qed.

Lemma insert_leaf_cases ks vs k v :
  length vs = length ks ->
  let p := scan_down ks k (length ks) in
  let la := firstn p ks in
  let lb := skipn p ks in
  let va := firstn p vs in
  let vb := skipn p vs in
  (exists la0 va0 v0,
      la = la0 ++ [k] /\ va = va0 ++ [v0] /\ length va0 = length la0 /\
      insert_leaf ks vs k v = (la ++ dup lb, va0 ++ v :: dup vb)) \/
  ((forall la0 a, la = la0 ++ [a] -> a <> k) /\
   insert_leaf ks vs k v = (la ++ k :: lb, va ++ v :: vb)).
Proof.
  intros Hlen p la lb va vb.
  pose proof (scan_down_le ks k (length ks)) as Hp. fold p in Hp.
  assert (Hla : length la = p) by (apply firstn_length_le; lia).
  assert (Hva : length va = p) by (apply firstn_length_le; lia).
  assert (Hlb : length lb = length ks - p) by apply length_skipn.
  assert (Hvb : length vb = length ks - p)
    by (unfold vb; rewrite length_skipn; lia).
  unfold insert_leaf.
  pose proof (@shift_loop_closed k ks vs [] [] Hlen) as Hsl.
  rewrite !app_nil_r in Hsl. cbv zeta in Hsl. rewrite Hsl. clear Hsl.
  fold p la lb va vb.
  assert (Hins :
    (firstn (S (length ks)) (array_set (la ++ shifted lb []) p k),
     firstn (S (length ks)) (array_set (va ++ shifted vb []) p v)) =
    (la ++ k :: lb, va ++ v :: vb)).
  { rewrite <- Hla at 1. rewrite array_set_past, shifted_nil_tl.
    rewrite <- Hva at 1. rewrite array_set_past, shifted_nil_tl.
    rewrite !firstn_all2; auto; rewrite length_app; simpl; lia. }
  destruct (exists_last_or_nil la) as [Hnil | (la0 & a & Hlast)].
  - assert (p = 0) by (rewrite <- Hla, Hnil; reflexivity).
    right. split.
    + intros la0 a H0. rewrite Hnil in H0. destruct la0; discriminate.
    + replace (1 <=? p) with false by (symmetry; apply Nat.leb_gt; lia).
      cbn [andb]. exact Hins.
  - assert (Hp1 : length la0 = p - 1 /\ 1 <= p).
    { rewrite <- Hla, Hlast, length_app. simpl. lia. }
    destruct Hp1 as [Hla0 Hp1].
    replace (1 <=? p) with true by (symmetry; apply Nat.leb_le; lia).
    cbn [andb].
    assert (Hnth : nth (p - 1) (la ++ shifted lb []) 0%Z = a).
    { rewrite Hlast, <- app_assoc, <- Hla0. apply nth_middle. }
    rewrite Hnth. clear Hnth.
    destruct (a =? k)%Z eqn:Hak.
    + apply Z.eqb_eq in Hak. subst a. left.
      destruct (exists_last_or_nil va) as [Hvnil | (va0 & v0 & Hvlast)].
      { exfalso. rewrite Hvnil in Hva. simpl in Hva. lia. }
      assert (Hva0 : length va0 = length la0).
      { rewrite Hla0, <- Hva, Hvlast, length_app. simpl. lia. }
      exists la0, va0, v0. repeat split; auto.
      f_equal.
      * rewrite firstn_app, Hla.
        rewrite firstn_all2 by lia.
        replace (length ks - p) with (length lb) by lia.
        rewrite shifted_nil_firstn. reflexivity.
      * rewrite Hvlast, <- app_assoc.
        replace (p - 1) with (length va0) by lia.
        rewrite array_set_past. cbn [app tl].
        rewrite firstn_app.
        rewrite firstn_all2 by lia.
        replace (length ks - length va0) with (S (length vb)) by lia.
        cbn [firstn]. rewrite shifted_nil_firstn. reflexivity.
    + right. split; auto.
      intros la1 a1 H1. rewrite Hlast in H1. apply app_inj_tail in H1.
      destruct H1 as [_ <-]. apply Z.eqb_neq. exact Hak.
Qed.

Lemma combine_app_eq (A B : Type) (l1 l2 : list A) (r1 r2 : list B) :
  length r1 = length l1 ->
  combine (l1 ++ l2) (r1 ++ r2) = combine l1 r1 ++ combine l2 r2.
Proof.
  revert r1. induction l1 as [|a l1 IH]; intros [|b r1] H; simpl in *;
    try discriminate; auto.
  rewrite IH by lia. reflexivity.
Qed.

Lemma dup_length (A : Type) (l : list A) : length (dup l) = length l.
Proof.
  destruct l as [|b l0]; simpl; auto.
  rewrite firstn_length_le; simpl; lia.
Qed.

Lemma dup_incl (A : Type) (l : list A) : incl (dup l) l.
Proof.
  destruct l as [|b l0]; simpl. { apply incl_refl. }
  intros e [<-|He]; [left; reflexivity|].
  rewrite <- (firstn_skipn (length l0) (b :: l0)).
  apply in_or_app. left. exact He.
Qed.

Lemma dup_combine (A B : Type) (l : list A) (r : list B) :
  length r = length l -> combine (dup l) (dup r) = dup (combine l r).
Proof.
  destruct l as [|a l0], r as [|b r0]; simpl; try discriminate; auto.
  intros H. f_equal.
  rewrite length_combine.
  replace (Init.Nat.min (length l0) (length r0)) with (length l0) by lia.
  replace (length r0) with (length l0) by lia.
  change (a :: l0) with ([a] ++ l0). change (b :: r0) with ([b] ++ r0).
  change ((a, b) :: combine l0 r0) with (combine ([a] ++ l0) ([b] ++ r0)).
  symmetry. apply combine_firstn.
Qed.

Lemma ksorted_firstn n l : ksorted l -> ksorted (firstn n l).
Proof.
  intros H. rewrite <- (firstn_skipn n l) in H.
  apply ksorted_app in H. tauto.
Qed.

Lemma ksorted_dup l : ksorted l -> ksorted (dup l).
Proof.
  destruct l as [|b l0]; simpl; auto. intros H.
  apply ksorted_cons. split.
  - apply ksorted_firstn. exact H.
  - intros e He.
    assert (Hin : In e (b :: l0)).
    { rewrite <- (firstn_skipn (length l0) (b :: l0)).
      apply in_or_app. left. exact He. }
    destruct Hin as [<-|Hin]; [lia|].
    apply ksorted_cons in H. apply H. exact Hin.
Qed.

(** Replacing the middle of a sorted sequence by a sorted sequence that
    lies between its neighbours. *)
Lemma ksorted_middle pre m m' post :
  ksorted (pre ++ m ++ post) -> ksorted m' ->
  (forall e a, In e m' -> In a pre -> (fst a <= fst e)%Z) ->
  (forall e b, In e m' -> In b post -> (fst e <= fst b)%Z) ->
  ksorted (pre ++ m' ++ post).
Proof.
  intros H Hm' Hpre Hpost.
  apply ksorted_app in H. destruct H as (H1 & H2 & H3).
  apply ksorted_app in H2. destruct H2 as (H4 & H5 & H6).
  apply ksorted_app. repeat split; auto.
  - apply ksorted_app. repeat split; auto.
  - intros a b Ha Hb. apply in_app_or in Hb. destruct Hb as [Hb|Hb].
    + apply Hpre; auto.
    + apply H3; auto. apply in_or_app. right. exact Hb.
Qed.

Lemma ins_ok_context k v pre post l l' :
  ksorted (pre ++ l ++ post) ->
  (forall a, In a pre -> (fst a <= k)%Z) ->
  (forall b, In b post -> (k <= fst b)%Z) ->
  ins_ok k v l l' ->
  ins_ok k v (pre ++ l ++ post) (pre ++ l' ++ post).
Proof.
  intros Hs Hpre Hpost (H1 & H2 & H3 & H4 & H5).
  pose proof Hs as Hs'.
  apply ksorted_app in Hs'. destruct Hs' as (S1 & S2 & S3).
  apply ksorted_app in S2. destruct S2 as (S4 & S5 & S6).
  unfold ins_ok. repeat split.
  - apply ksorted_middle with (m := l); auto.
    + intros e a He Ha. apply H2 in He. destruct He as [<-|He].
      * simpl. apply Hpre; auto.
      * apply S3; auto. apply in_or_app. left. exact He.
    + intros e b He Hb. apply H2 in He. destruct He as [<-|He].
      * simpl. apply Hpost; auto.
      * apply S6; auto.
  - intros e He. apply in_app_or in He. destruct He as [He|He].
    + right. apply in_or_app. left. exact He.
    + apply in_app_or in He. destruct He as [He|He].
      * apply H2 in He. destruct He as [<-|He]; [left; reflexivity|].
        right. apply in_or_app. right. apply in_or_app. left. exact He.
      * right. apply in_or_app. right. apply in_or_app. right. exact He.
  - apply in_or_app. right. apply in_or_app. left. exact H3.
  - rewrite !length_app. lia.
  - rewrite !length_app. lia.
  - intros Hfresh.
    assert (Hl : ~ In k (map fst l)).
    { intros Hin. apply Hfresh. rewrite !map_app.
      apply in_or_app. right. apply in_or_app. left. exact Hin. }
    specialize (H5 Hl).
    rewrite (Permutation_app_comm l' post), app_assoc.
    rewrite (Permutation_app_comm l post), (app_assoc pre post l).
    rewrite Permutation_app_comm.
    rewrite H5. simpl. apply perm_skip.
    apply Permutation_app_comm.
Qed.

Lemma combine_last_le (la : list BTKey) (va : list BTPayload) k :
  length va = length la -> ksorted (combine la va) ->
  (forall la0 a, la = la0 ++ [a] -> (a <= k)%Z) ->
  forall e, In e (combine la va) -> (fst e <= k)%Z.
Proof.
  intros Hlen Hs Hlast e He.
  destruct (exists_last_or_nil la) as [->|(la0 & a & ->)]; [destruct He|].
  destruct (exists_last_or_nil va) as [->|(va0 & av & ->)].
  { rewrite length_app in Hlen. simpl in Hlen. lia. }
  rewrite !length_app in Hlen. simpl in Hlen.
  rewrite combine_app_eq in He, Hs by lia. simpl in He, Hs.
  specialize (Hlast la0 a eq_refl).
  apply in_app_or in He. destruct He as [He|[<-|[]]]; [|simpl; lia].
  apply ksorted_app in Hs. destruct Hs as (_ & _ & Hs).
  specialize (Hs e (a, av) He (or_introl eq_refl)). simpl in Hs. lia.
Qed.

Lemma insert_leaf_ok ks vs k v ks' vs' :
  length vs = length ks -> ksorted (combine ks vs) ->
  insert_leaf ks vs k v = (ks', vs') ->
  length vs' = length ks' /\
  length ks <= length ks' <= S (length ks) /\
  ins_ok k v (combine ks vs) (combine ks' vs').
Proof.
  intros Hlen Hs Hins.
  pose proof (insert_leaf_cases ks vs k v Hlen) as Hc.
  pose proof (scan_down_spec k ks) as [Hgt Hle].
  pose proof (scan_down_le ks k (length ks)) as Hp.
  cbv zeta in Hc. set (p := scan_down ks k (length ks)) in *.
  set (la := firstn p ks) in *. set (lb := skipn p ks) in *.
  set (va := firstn p vs) in *. set (vb := skipn p vs) in *.
  assert (Hla : length la = p) by (apply firstn_length_le; lia).
  assert (Hva : length va = p) by (apply firstn_length_le; lia).
  assert (Hlb : length lb = length ks - p) by apply length_skipn.
  assert (Hvb : length vb = length ks - p)
    by (unfold vb; rewrite length_skipn; lia).
  assert (Hks : ks = la ++ lb) by (symmetry; apply firstn_skipn).
  assert (Hvs : vs = va ++ vb) by (symmetry; apply firstn_skipn).
  assert (Hes : combine ks vs = combine la va ++ combine lb vb).
  { rewrite Hks at 1. rewrite Hvs at 1. apply combine_app_eq. lia. }
  assert (Hlen_es : length (combine ks vs) = length ks).
  { rewrite length_combine. lia. }
  rewrite Hes in Hs.
  assert (Hpost : forall b, In b (combine lb vb) -> (k < fst b)%Z).
  { intros [kb pb] Hb. apply in_combine_l in Hb.
    rewrite Forall_forall in Hgt. apply Hgt. exact Hb. }
  pose proof Hs as Hs'. apply ksorted_app in Hs'.
  destruct Hs' as (Hsa & Hsb & Hab).
  destruct Hc as [(la0 & va0 & v0 & Ela & Eva & Hl0 & E) | (Hne & E)];
    rewrite E in Hins; inversion Hins; subst ks' vs'; clear Hins.
  - (* the key is found in the leaf: its value is overwritten *)
    assert (Hcomb : combine (la ++ dup lb) (va0 ++ v :: dup vb) =
                    combine la0 va0 ++ (k, v) :: dup (combine lb vb)).
    { rewrite Ela, <- app_assoc. rewrite combine_app_eq by lia.
      simpl. rewrite dup_combine by lia. reflexivity. }
    assert (Hold : combine la va = combine la0 va0 ++ [(k, v0)]).
    { rewrite Ela, Eva. rewrite combine_app_eq by lia. reflexivity. }
    assert (Hla0 : length la = S (length la0))
      by (rewrite Ela, length_app; simpl; lia).
    split; [rewrite !length_app; simpl; rewrite !dup_length; lia|].
    split; [rewrite Hks, !length_app, dup_length; lia|].
    rewrite Hcomb, Hes, Hold, <- app_assoc. simpl.
    rewrite Hold, <- app_assoc in Hs. simpl in Hs.
    unfold ins_ok. repeat split.
    + apply ksorted_app in Hs. destruct Hs as (T1 & T2 & T3).
      apply ksorted_cons in T2. destruct T2 as [T4 T5].
      apply ksorted_app. repeat split; auto.
      * apply ksorted_cons. split; [apply ksorted_dup; auto|].
        intros b Hb. apply dup_incl in Hb. apply (T5 b Hb).
      * intros a b Ha [<-|Hb].
        -- apply (T3 a (k, v0) Ha). left. reflexivity.
        -- apply T3; auto. right. apply dup_incl. exact Hb.
    + intros e He. apply in_app_or in He. destruct He as [He|[<-|He]].
      * right. apply in_or_app. left. exact He.
      * left. reflexivity.
      * right. apply in_or_app. right. right. apply dup_incl. exact He.
    + apply in_or_app. right. left. reflexivity.
    + rewrite !length_app. simpl. rewrite dup_length. lia.
    + rewrite !length_app. simpl. rewrite dup_length. lia.
    + intros Hfresh. exfalso. apply Hfresh. rewrite map_app.
      apply in_or_app. right. left. reflexivity.
  - (* the key is new in the leaf *)
    rewrite !length_app. simpl.
    split; [lia|]. split; [rewrite Hks, length_app; lia|].
    rewrite combine_app_eq by lia. simpl. rewrite Hes.
    assert (Hpre : forall a, In a (combine la va) -> (fst a <= k)%Z).
    { apply combine_last_le; auto; lia. }
    unfold ins_ok. repeat split.
    + apply ksorted_app. repeat split; auto.
      * apply ksorted_cons. split; auto.
        intros b Hb. apply Hpost in Hb. simpl. lia.
      * intros a b Ha [<-|Hb]; [simpl; auto|]. apply Hab; auto.
    + intros e He. apply in_app_or in He. destruct He as [He|[<-|He]].
      * right. apply in_or_app. left. exact He.
      * left. reflexivity.
      * right. apply in_or_app. right. exact He.
    + apply in_or_app. right. left. reflexivity.
    + rewrite !length_app. simpl. lia.
    + rewrite !length_app. simpl. lia.
    + intros _. symmetry. apply Permutation_middle.
Qed.

(** ** In-order sequences *)

Lemma entries_leaf ks vs cs : entries (Node true ks vs cs) = combine ks vs.
Proof. reflexivity. Qed.

Lemma entries_internal ks vs cs :
  entries (Node false ks vs cs) = interleave (map entries cs) (combine ks vs).
Proof. reflexivity. Qed.

Lemma combine_skipn (A B : Type) n : forall (l : list A) (r : list B),
  skipn n (combine l r) = combine (skipn n l) (skipn n r).
Proof.
  induction n as [|n IH]; intros [|a l] [|b r]; simpl; auto.
  destruct (skipn n l); reflexivity.
Qed.

Lemma skipn_nth_cons (A : Type) (d : A) n : forall l,
  n < length l -> skipn n l = nth n l d :: skipn (S n) l.
Proof.
  induction n as [|n IH]; intros [|a l] H; simpl in *; try lia; auto.
  apply IH. lia.
Qed.

(** The child slot [i] of an internal node, between what precedes it and
    what follows it in the in-order sequence. *)
Lemma interleave_focus (d : entry) i : forall ss es,
  length ss = S (length es) -> i <= length es ->
  exists pre post,
    (forall s, interleave (array_set ss i s) es = pre ++ s ++ post) /\
    (i = 0 -> pre = []) /\
    (forall j, i = S j -> exists pre0, pre = pre0 ++ [nth j es d]) /\
    (i < length es -> exists post0, post = nth i es d :: post0) /\
    (i = length es -> post = []).
Proof.
  induction i as [|i IH]; intros [|s0 ss] es Hlen Hi; simpl in Hlen;
    try discriminate.
  - exists [], (match es with [] => [] | e :: es' => e :: interleave ss es' end).
    repeat split; auto.
    + intros j Hj. discriminate.
    + intros Hlt. destruct es as [|e es']; simpl in *; [lia|]. eauto.
    + intros H0. destruct es; [reflexivity|discriminate].
  - destruct es as [|e es']; simpl in *; [lia|].
    destruct (IH ss es') as (pre & post & H1 & H2 & H3 & H4 & H5); try lia.
    exists (s0 ++ e :: pre), post. repeat split.
    + intros s. rewrite H1, <- app_assoc. reflexivity.
    + intros Hj. discriminate.
    + intros j Hj. injection Hj as <-. destruct i as [|i'].
      * rewrite H2 by reflexivity. exists s0. reflexivity.
      * destruct (H3 i' eq_refl) as (pre0 & ->).
        exists (s0 ++ e :: pre0). rewrite <- app_assoc. reflexivity.
    + intros Hlt. apply H4. lia.
    + intros He. apply H5. lia.
Qed.

Lemma interleave_cut (d : entry) j : forall ss es,
  j < length es -> length ss = S (length es) ->
  interleave ss es =
  interleave (firstn (S j) ss) (firstn j es) ++
  nth j es d :: interleave (skipn (S j) ss) (skipn (S j) es).
Proof.
  induction j as [|j IH]; intros [|s0 ss] [|e es] Hj Hlen; simpl in *;
    try lia.
  - rewrite app_nil_r. reflexivity.
  - rewrite (IH ss es) by lia. rewrite <- app_assoc. reflexivity.
Qed.

Lemma interleave_insert i : forall ss es sy sz (e : entry),
  i < length ss -> i <= length es ->
  nth i ss [] = sy ++ e :: sz ->
  interleave (firstn i ss ++ sy :: sz :: skipn (S i) ss)
             (firstn i es ++ e :: skipn i es) =
  interleave ss es.
Proof.
  induction i as [|i IH]; intros [|s0 ss] es sy sz e Hi Hie Hn;
    simpl in *; try lia.
  - subst s0. rewrite <- app_assoc. reflexivity.
  - destruct es as [|e0 es]; simpl in *; [lia|].
    rewrite IH; auto; lia.
Qed.

Lemma entries_no_node : entries no_node = [].
Proof. reflexivity. Qed.

Lemma nth_map_entries i cs :
  nth i (map entries cs) [] = entries (nth i cs no_node).
Proof. rewrite <- entries_no_node. apply map_nth. Qed.

(** ** Well-formed nodes *)

Lemma wf_node_inv t lf ks vs cs :
  wf_node t (Node lf ks vs cs) ->
  length vs = length ks /\ length ks <= 2 * t - 1 /\
  (if lf then cs = @nil BTreeNode else length cs = S (length ks)) /\
  Forall (wf_node t) cs.
Proof. intros H. inversion H; subst; auto. Qed.

Lemma wf_node_intro t (lf : bool) ks vs (cs : list BTreeNode) :
  length vs = length ks -> length ks <= 2 * t - 1 ->
  (if lf then cs = @nil BTreeNode else length cs = S (length ks)) ->
  Forall (wf_node t) cs ->
  wf_node t (Node lf ks vs cs).
Proof.
  intros H1 H2 H3 H4. destruct lf.
  - subst cs. constructor; auto.
  - constructor; auto.
Qed.

Lemma wf_no_node t : wf_node t no_node.
Proof. constructor; simpl; lia. Qed.

Lemma wf_nth_child t cs i :
  Forall (wf_node t) cs -> wf_node t (nth i cs no_node).
Proof.
  intros H. destruct (Nat.lt_ge_cases i (length cs)) as [Hlt|Hge].
  - rewrite Forall_forall in H. apply H. apply nth_In. exact Hlt.
  - rewrite nth_overflow by lia. apply wf_no_node.
Qed.

(** ** [bt_split_child] *)

(** A full node is its lower half, its median and its upper half. *)
Lemma split_full_entries t y :
  1 <= t -> wf_node t y -> nkeys y = 2 * t - 1 ->
  entries y =
  entries (Node (node_leaf y) (firstn (t - 1) (node_keys y))
                (firstn (t - 1) (node_values y))
                (firstn t (node_children y))) ++
  (nth (t - 1) (node_keys y) 0%Z, nth (t - 1) (node_values y) NULL) ::
  entries (Node (node_leaf y) (firstn (t - 1) (skipn t (node_keys y)))
                (firstn (t - 1) (skipn t (node_values y)))
                (if node_leaf y then []
                 else firstn t (skipn t (node_children y)))).
Proof.
  intros Ht Hwf Hfull. destruct y as [lf ks vs cs].
  apply wf_node_inv in Hwf. destruct Hwf as (Hvs & _ & Hcs & _).
  unfold nkeys in Hfull. simpl in *.
  assert (Hk : firstn (t - 1) (skipn t ks) = skipn t ks).
  { apply firstn_all2. rewrite length_skipn. lia. }
  assert (Hv : firstn (t - 1) (skipn t vs) = skipn t vs).
  { apply firstn_all2. rewrite length_skipn. lia. }
  rewrite Hk, Hv.
  rewrite <- (combine_nth ks vs (t - 1) 0%Z NULL) by lia.
  assert (Hlen : length (combine ks vs) = 2 * t - 1).
  { rewrite length_combine. lia. }
  destruct lf.
  - rewrite <- combine_firstn, <- combine_skipn.
    etransitivity; [symmetry; apply (firstn_skipn (t - 1))|].
    f_equal.
    pose proof (@skipn_nth_cons (BTKey * BTPayload) (0%Z, NULL) (t - 1)
                  (combine ks vs)) as E.
    replace (S (t - 1)) with t in E by lia. apply E. lia.
  - assert (Hc : firstn t (skipn t cs) = skipn t cs).
    { apply firstn_all2. rewrite length_skipn. lia. }
    rewrite Hc.
    rewrite <- combine_firstn, <- combine_skipn.
    rewrite <- firstn_map, <- skipn_map.
    rewrite (interleave_cut (0%Z, NULL) (j := t - 1))
      by (rewrite ?length_map, ?length_combine; lia).
    replace (S (t - 1)) with t by lia. reflexivity.
Qed.

Lemma bt_split_child_entries t ks vs cs i :
  1 <= t -> length vs = length ks -> length cs = S (length ks) ->
  i <= length ks -> Forall (wf_node t) cs ->
  nkeys (nth i cs no_node) = 2 * t - 1 ->
  entries (bt_split_child t (Node false ks vs cs) i) =
  entries (Node false ks vs cs).
Proof.
  intros Ht Hvs Hcs Hi Hwf Hfull.
  unfold bt_split_child. cbn [node_children node_keys node_values node_leaf].
  set (y := nth i cs no_node) in *.
  rewrite !entries_internal.
  unfold insert_at.
  rewrite combine_app_eq by (rewrite !length_firstn; lia).
  cbn [combine].
  rewrite map_app. cbn [map].
  rewrite <- combine_firstn, <- combine_skipn.
  rewrite <- firstn_map, <- skipn_map.
  apply interleave_insert.
  - rewrite length_map. lia.
  - rewrite length_combine. lia.
  - rewrite nth_map_entries. fold y.
    apply split_full_entries; auto. apply wf_nth_child. exact Hwf.
Qed.

Lemma incl_Forall_sub (A : Type) (P : A -> Prop) (l1 l2 : list A) :
  incl l1 l2 -> Forall P l2 -> Forall P l1.
Proof.
  intros Hi Hf. rewrite Forall_forall in *. intros x Hx. apply Hf, Hi, Hx.
Qed.

Lemma incl_firstn (A : Type) n (l : list A) : incl (firstn n l) l.
Proof.
  intros x Hx. rewrite <- (firstn_skipn n l). apply in_or_app. auto.
Qed.

Lemma incl_skipn (A : Type) n (l : list A) : incl (skipn n l) l.
Proof.
  intros x Hx. rewrite <- (firstn_skipn n l). apply in_or_app. auto.
Qed.

Lemma insert_at_length (A : Type) (l : list A) i x :
  length (insert_at l i x) = S (length l).
Proof.
  unfold insert_at. rewrite length_app. simpl.
  rewrite <- (firstn_skipn i l) at 3. rewrite length_app. lia.
Qed.

Lemma bt_split_child_wf t ks vs cs i :
  1 <= t -> wf_node t (Node false ks vs cs) -> length ks < 2 * t - 1 ->
  i <= length ks -> nkeys (nth i cs no_node) = 2 * t - 1 ->
  wf_node t (bt_split_child t (Node false ks vs cs) i).
Proof.
  intros Ht Hwf Hnf Hi Hfull.
  apply wf_node_inv in Hwf. destruct Hwf as (Hvs & _ & Hcs & Hall).
  pose proof (wf_nth_child i Hall) as Hy.
  unfold bt_split_child. cbn [node_children node_keys node_values node_leaf].
  set (y := nth i cs no_node) in *.
  destruct y as [lfy yks yvs ycs].
  apply wf_node_inv in Hy. destruct Hy as (Hyvs & _ & Hycs & Hyall).
  unfold nkeys in Hfull. cbn [node_children node_keys node_values node_leaf]
    in *.
  apply wf_node_intro.
  - rewrite !insert_at_length. lia.
  - rewrite insert_at_length. lia.
  - rewrite length_app. cbn [length].
    rewrite length_firstn, length_skipn, insert_at_length. lia.
  - apply Forall_app. split.
    { apply (incl_Forall_sub (@incl_firstn _ i cs) Hall). }
    constructor; [|constructor].
    + apply wf_node_intro.
      * rewrite !length_firstn. lia.
      * rewrite length_firstn. lia.
      * destruct lfy; [subst ycs; apply firstn_nil|].
        rewrite !length_firstn. lia.
      * apply (incl_Forall_sub (@incl_firstn _ t ycs) Hyall).
    + apply wf_node_intro.
      * rewrite !length_firstn, !length_skipn. lia.
      * rewrite length_firstn. lia.
      * destruct lfy; [reflexivity|].
        rewrite !length_firstn, !length_skipn. lia.
      * destruct lfy; [constructor|].
        apply (incl_Forall_sub (@incl_firstn _ t _)).
        apply (incl_Forall_sub (@incl_skipn _ t ycs) Hyall).
    + apply (incl_Forall_sub (@incl_skipn _ (S i) cs) Hall).
Qed.

(** ** Heights *)

Lemma height_eq lf ks vs cs :
  height (Node lf ks vs cs) = S (max_height cs).
Proof. reflexivity. Qed.

Lemma max_height_In c cs : In c cs -> height c <= max_height cs.
Proof.
  induction cs as [|a cs IH]; simpl; [tauto|].
  intros [<-|H]; [lia|]. specialize (IH H). lia.
Qed.

Lemma max_height_incl cs1 cs2 :
  incl cs1 cs2 -> max_height cs1 <= max_height cs2.
Proof.
  induction cs1 as [|a cs1 IH]; simpl; intros H; [lia|].
  assert (height a <= max_height cs2)
    by (apply max_height_In, H; left; reflexivity).
  assert (max_height cs1 <= max_height cs2)
    by (apply IH; intros x Hx; apply H; right; exact Hx).
  lia.
Qed.

Lemma height_pos x : 1 <= height x.
Proof. destruct x. rewrite height_eq. lia. Qed.

Lemma height_nth_child lf ks vs cs i :
  i < length cs -> height (nth i cs no_node) < height (Node lf ks vs cs).
Proof.
  intros H. rewrite height_eq.
  pose proof (max_height_In _ _ (nth_In cs no_node H)). lia.
Qed.

(** ** The scanning loops *)

Lemma scan_down_index ks k n :
  let p := scan_down ks k n in
  p <= n /\
  (forall j, p = S j -> (nth j ks 0 <= k)%Z) /\
  (forall j, p <= j < n -> (k < nth j ks 0)%Z).
Proof.
  induction n as [|i IH]; simpl.
  - repeat split; intros; lia.
  - destruct (k <? nth i ks 0)%Z eqn:E.
    + destruct IH as (H1 & H2 & H3). repeat split; auto.
      intros j Hj. destruct (Nat.eq_dec j i) as [->|Hne].
      * apply Z.ltb_lt. exact E.
      * apply H3. lia.
    + repeat split; try lia.
      intros j Hj. injection Hj as <-. apply Z.ltb_ge. exact E.
Qed.

Lemma scan_up_index ks k :
  let i := scan_up ks k in
  i <= length ks /\
  (forall j, j < i -> (nth j ks 0 < k)%Z) /\
  (i < length ks -> (k <= nth i ks 0)%Z).
Proof.
  induction ks as [|a ks IH]; simpl.
  - repeat split; intros; lia.
  - destruct (k >? a)%Z eqn:E; simpl.
    + destruct IH as (H1 & H2 & H3). split; [lia|]. split.
      * intros [|j] Hj; [apply Z.gtb_lt in E; lia|]. apply H2. lia.
      * intros Hlt. apply H3. lia.
    + repeat split; lia.
Qed.

(** ** A child of an internal node within the in-order sequence *)

Lemma node_focus ks vs cs i :
  length vs = length ks -> length cs = S (length ks) -> i <= length ks ->
  ksorted (entries (Node false ks vs cs)) ->
  exists pre post,
    entries (Node false ks vs cs) =
      pre ++ entries (nth i cs no_node) ++ post /\
    (forall c', entries (Node false ks vs (array_set cs i c')) =
                pre ++ entries c' ++ post) /\
    (forall a, In a pre -> exists j, i = S j /\ (fst a <= nth j ks 0)%Z) /\
    (forall b, In b post -> i < length ks /\ (nth i ks 0 <= fst b)%Z).
Proof.
  intros Hvs Hcs Hi Hs.
  assert (Hes : length (combine ks vs) = length ks)
    by (rewrite length_combine; lia).
  destruct (@interleave_focus (0%Z, NULL) i (map entries cs) (combine ks vs))
    as (pre & post & H1 & H2 & H3 & H4 & H5);
    try (rewrite ?length_map; lia).
  assert (E : entries (Node false ks vs cs) =
              pre ++ entries (nth i cs no_node) ++ post).
  { rewrite entries_internal, <- H1, <- nth_map_entries.
    rewrite array_set_same by (rewrite length_map; lia). reflexivity. }
  exists pre, post. split; [exact E|]. split; [|split].
  - intros c'. rewrite entries_internal, array_set_map. apply H1.
  - intros a Ha. destruct i as [|j].
    { rewrite H2 in Ha by reflexivity. destruct Ha. }
    exists j. split; [reflexivity|].
    destruct (H3 j eq_refl) as (pre0 & Epre).
    rewrite combine_nth in Epre by lia.
    rewrite E, Epre in Hs. rewrite Epre in Ha.
    apply in_app_or in Ha. destruct Ha as [Ha|[<-|[]]]; [|simpl; lia].
    apply ksorted_app in Hs. destruct Hs as (Hs & _).
    apply ksorted_app in Hs. destruct Hs as (_ & _ & Hs).
    apply (Hs a (nth j ks 0%Z, nth j vs NULL) Ha). left. reflexivity.
  - intros b Hb.
    destruct (Nat.eq_dec i (length ks)) as [Heq|Hne].
    { rewrite H5 in Hb by lia. destruct Hb. }
    split; [lia|].
    destruct H4 as (post0 & Epost); [lia|].
    rewrite combine_nth in Epost by lia.
    rewrite E, Epost in Hs. rewrite Epost in Hb.
    destruct Hb as [<-|Hb]; [simpl; lia|].
    apply ksorted_app in Hs. destruct Hs as (_ & Hs & _).
    apply ksorted_app in Hs. destruct Hs as (_ & Hs & _).
    apply ksorted_cons in Hs. destruct Hs as [_ Hs].
    apply (Hs b Hb).
Qed.

(** ** [bt_insert_nonfull] *)

Lemma nth_insert_at_lt (A : Type) (l : list A) i j x d :
  i <= length l -> j < i -> nth j (insert_at l i x) d = nth j l d.
Proof.
  intros Hi Hj. unfold insert_at.
  rewrite app_nth1 by (rewrite length_firstn; lia).
  apply nth_firstn_lt || (rewrite nth_firstn; destruct (j <? i) eqn:E;
                          [reflexivity|apply Nat.ltb_ge in E; lia]).
Qed.

Lemma nth_insert_at_eq (A : Type) (l : list A) i x d :
  i <= length l -> nth i (insert_at l i x) d = x.
Proof.
  intros Hi. unfold insert_at.
  rewrite app_nth2 by (rewrite length_firstn; lia).
  rewrite length_firstn. replace (i - Nat.min i (length l)) with 0 by lia.
  reflexivity.
Qed.

Lemma nth_insert_at_gt (A : Type) (l : list A) i j x d :
  i <= length l -> i <= j -> nth (S j) (insert_at l i x) d = nth j l d.
Proof.
  intros Hi Hj. unfold insert_at.
  rewrite app_nth2 by (rewrite length_firstn; lia).
  rewrite length_firstn.
  replace (S j - Nat.min i (length l)) with (S (j - i)) by lia.
  cbn [nth]. rewrite nth_skipn. f_equal. lia.
Qed.

(** One step of the descent: the child [i1] of the node [x1] receives the
    pair. *)
Lemma insert_descend t k v ks vs cs i1 c' :
  wf_node t (Node false ks vs cs) ->
  ksorted (entries (Node false ks vs cs)) ->
  i1 <= length ks ->
  (forall j, i1 = S j -> (nth j ks 0 <= k)%Z) ->
  (i1 < length ks -> (k <= nth i1 ks 0)%Z) ->
  wf_node t c' ->
  ins_ok k v (entries (nth i1 cs no_node)) (entries c') ->
  wf_node t (Node false ks vs (array_set cs i1 c')) /\
  ins_ok k v (entries (Node false ks vs cs))
             (entries (Node false ks vs (array_set cs i1 c'))).
Proof.
  intros Hwf Hs Hi Hlo Hhi Hwc Hok.
  apply wf_node_inv in Hwf. destruct Hwf as (Hvs & Hn & Hcs & Hall).
  split.
  - apply wf_node_intro; auto.
    + rewrite array_set_length; lia.
    + apply array_set_Forall; auto.
  - destruct (@node_focus ks vs cs i1 Hvs Hcs Hi Hs)
      as (pre & post & E & E' & Hpre & Hpost).
    rewrite E, E'. rewrite E in Hs.
    apply ins_ok_context; auto.
    + intros a Ha. destruct (Hpre a Ha) as (j & -> & Hle).
      specialize (Hlo j eq_refl). lia.
    + intros b Hb. destruct (Hpost b Hb) as (Hlt & Hle).
      specialize (Hhi Hlt). lia.
Qed.

Lemma bt_insert_nonfull_ok t k v :
  2 <= t ->
  forall fuel x,
    height x <= fuel -> wf_node t x -> nkeys x < 2 * t - 1 ->
    ksorted (entries x) ->
    exists x',
      bt_insert_nonfull fuel t x k v = Some x' /\
      wf_node t x' /\ ins_ok k v (entries x) (entries x').
Proof.
  intros Ht. induction fuel as [|fuel IH]; intros x Hh Hwf Hnf Hs.
  { pose proof (height_pos x). lia. }
  destruct x as [lf ks vs cs]. unfold nkeys in Hnf. cbn [node_keys] in Hnf.
  pose proof Hwf as Hwf0.
  apply wf_node_inv in Hwf. destruct Hwf as (Hvs & Hn & Hcs & Hall).
  cbn [bt_insert_nonfull]. destruct lf.
  - (* leaf *)
    subst cs. rewrite entries_leaf in *.
    destruct (insert_leaf ks vs k v) as [ks' vs'] eqn:E.
    destruct (insert_leaf_ok _ _ _ _ Hvs Hs E) as (H1 & H2 & H3).
    exists (Node true ks' vs' []). split; [reflexivity|]. split.
    + constructor; lia.
    + rewrite entries_leaf. exact H3.
  - (* internal node *)
    destruct (scan_down_index ks k (length ks)) as (Hi & Hlo & Hhi).
    set (i := scan_down ks k (length ks)) in *.
    set (y := nth i cs no_node).
    assert (Hy : wf_node t y) by (apply wf_nth_child; exact Hall).
    assert (Hhy : height y < height (Node false ks vs cs))
      by (apply height_nth_child; lia).
    set (full := nkeys y =? 2 * t - 1).
    set (x1 := if full then bt_split_child t (Node false ks vs cs) i
               else Node false ks vs cs).
    set (i1 := if full && (k >? nth i (node_keys x1) 0)%Z then S i else i).
    assert (Hx1 : exists ks1 vs1 cs1,
      x1 = Node false ks1 vs1 cs1 /\
      wf_node t x1 /\ entries x1 = entries (Node false ks vs cs) /\
      i1 <= length ks1 /\
      (forall j, i1 = S j -> (nth j ks1 0 <= k)%Z) /\
      (i1 < length ks1 -> (k <= nth i1 ks1 0)%Z) /\
      nkeys (nth i1 cs1 no_node) < 2 * t - 1 /\
      height (nth i1 cs1 no_node) <= fuel).
    { unfold i1, x1. destruct full eqn:Hfull; unfold full in Hfull.
      - apply Nat.eqb_eq in Hfull.
        pose proof (@bt_split_child_wf t ks vs cs i ltac:(lia) Hwf0
                      ltac:(lia) Hi Hfull) as Hw.
        pose proof (@bt_split_child_entries t ks vs cs i ltac:(lia) Hvs Hcs
                      Hi Hall Hfull) as He.
        revert Hw He. unfold bt_split_child.
        cbn [node_children node_keys node_values node_leaf]. fold y.
        set (m := nth (t - 1) (node_keys y) 0%Z).
        set (mv := nth (t - 1) (node_values y) NULL).
        set (y' := Node (node_leaf y) (firstn (t - 1) (node_keys y))
                        (firstn (t - 1) (node_values y))
                        (firstn t (node_children y))).
        set (z := Node (node_leaf y) (firstn (t - 1) (skipn t (node_keys y)))
                       (firstn (t - 1) (skipn t (node_values y)))
                       (if node_leaf y then []
                        else firstn t (skipn t (node_children y)))).
        intros Hw He.
        exists (insert_at ks i m), (insert_at vs i mv),
               (firstn i cs ++ y' :: z :: skipn (S i) cs).
        split; [reflexivity|]. split; [exact Hw|]. split; [exact He|].
        rewrite insert_at_length, nth_insert_at_eq by lia.
        assert (Hlen_f : length (firstn i cs) = i)
          by (rewrite length_firstn; lia).
        assert (Hny' : nth i (firstn i cs ++ y' :: z :: skipn (S i) cs)
                           no_node = y').
        { rewrite <- Hlen_f at 1. apply nth_middle. }
        assert (Hnz : nth (S i) (firstn i cs ++ y' :: z :: skipn (S i) cs)
                          no_node = z).
        { rewrite app_nth2 by lia. rewrite Hlen_f.
          replace (S i - i) with 1 by lia. reflexivity. }
        assert (Hky : nkeys y' < 2 * t - 1 /\ nkeys z < 2 * t - 1).
        { unfold nkeys, y', z. cbn [node_keys].
          rewrite !length_firstn. lia. }
        assert (Hhyz : height y' <= height y /\ height z <= height y).
        { unfold y', z. destruct y as [lfy yks yvs ycs].
          cbn [node_children node_keys node_values node_leaf].
          rewrite !height_eq. split.
          - apply le_n_S, max_height_incl, incl_firstn.
          - apply le_n_S. destruct lfy; [simpl; lia|].
            apply max_height_incl.
            eapply incl_tran; [apply incl_firstn|apply incl_skipn]. }
        cbn [andb]. destruct (k >? m)%Z eqn:Ekm.
        + rewrite Hnz. split; [lia|]. split; [|split; [|split; [tauto|lia]]].
          * intros j Hj. injection Hj as <-.
            rewrite nth_insert_at_eq by lia. lia.
          * intros Hlt. rewrite nth_insert_at_gt by lia.
            apply Z.lt_le_incl, Hhi. lia.
        + rewrite Hny'. split; [lia|]. split; [|split; [|split; [tauto|lia]]].
          * intros j Hj. rewrite nth_insert_at_lt by lia. apply Hlo, Hj.
          * intros _. rewrite nth_insert_at_eq by lia. lia.
      - apply Nat.eqb_neq in Hfull. cbn [andb].
        exists ks, vs, cs. split; [reflexivity|]. split; [exact Hwf0|].
        split; [reflexivity|]. split; [exact Hi|]. split; [exact Hlo|].
        split; [intros Hlt; apply Z.lt_le_incl, Hhi; lia|].
        fold y. split; [|lia].
        destruct y as [lfy yks yvs ycs]. apply wf_node_inv in Hy.
        unfold nkeys in *. cbn [node_keys] in *. lia. }
    destruct Hx1 as (ks1 & vs1 & cs1 & E1 & Hw1 & He1 & Hi1 & Hlo1 & Hhi1
                     & Hnf1 & Hh1).
    rewrite E1. cbn [node_children node_keys node_values node_leaf].
    rewrite E1 in Hw1, He1. rewrite <- He1 in Hs |- *.
    pose proof Hw1 as Hw1'. apply wf_node_inv in Hw1'.
    destruct Hw1' as (Hvs1 & Hn1 & Hcs1 & Hall1).
    destruct (@node_focus ks1 vs1 cs1 i1 Hvs1 Hcs1 Hi1 Hs)
      as (pre & post & E & _).
    assert (Hsc : ksorted (entries (nth i1 cs1 no_node))).
    { rewrite E in Hs. apply ksorted_app in Hs. destruct Hs as (_ & Hs & _).
      apply ksorted_app in Hs. tauto. }
    destruct (IH (nth i1 cs1 no_node) Hh1 (wf_nth_child i1 Hall1) Hnf1 Hsc)
      as (c' & Ec & Hwc & Hokc).
    rewrite Ec. eexists. split; [reflexivity|].
    apply insert_descend with (t := t); auto.
Qed.

(** ** [bt_insert] *)

Lemma bt_insert_ok tr k v :
  tree_inv tr ->
  tree_inv (bt_insert tr k v) /\
  bt_t (bt_insert tr k v) = bt_t tr /\
  ins_ok k v (tree_entries tr) (tree_entries (bt_insert tr k v)).
Proof.
  intros (Ht & Hwf & Hs). destruct tr as [r t]. unfold tree_entries in *.
  cbn [root bt_t] in *. unfold bt_insert. cbn [root bt_t].
  set (start := if nkeys r =? 2 * t - 1
                then bt_split_child t (Node false [] [] [r]) 0 else r).
  assert (H : wf_node t start /\ nkeys start < 2 * t - 1 /\
              entries start = entries r).
  { unfold start. destruct (nkeys r =? 2 * t - 1) eqn:E.
    - apply Nat.eqb_eq in E.
      assert (Hw0 : wf_node t (Node false [] [] [r])).
      { constructor; simpl; auto; lia. }
      split; [|split].
      + apply bt_split_child_wf; simpl; auto; lia.
      + unfold bt_split_child, nkeys. cbn [node_keys].
        rewrite insert_at_length. simpl. lia.
      + rewrite bt_split_child_entries; simpl; auto; try lia.
        apply app_nil_r.
    - apply Nat.eqb_neq in E. split; [exact Hwf|]. split; [|reflexivity].
      destruct r as [lf ks vs cs]. apply wf_node_inv in Hwf.
      unfold nkeys in *. cbn [node_keys] in *. lia. }
  destruct H as (Hw & Hnf & He). rewrite <- He in Hs |- *.
  destruct (@bt_insert_nonfull_ok t k v Ht (height start) start
              (le_n _) Hw Hnf Hs) as (r' & E & Hw' & Hok).
  rewrite E. cbn [root bt_t]. split; [|split; [reflexivity|exact Hok]].
  split; [exact Ht|]. split; [exact Hw'|]. apply Hok.
Qed.

(** ** [bt_count_keys] *)

Lemma interleave_length : forall (ss : list (list (Z * Z))) es,
  length ss = S (length es) ->
  length (interleave ss es) = total_length ss + length es.
Proof.
  induction ss as [|s ss IH]; intros es H; simpl in *; [lia|].
  rewrite length_app. destruct es as [|e es]; simpl in *.
  - destruct ss; simpl in *; lia.
  - rewrite IH by lia. lia.
Qed.

Lemma sum_children_total t cs : forall n,
  Forall (fun c => wf_node t c ->
                   bt_count_keys_node c = length (entries c)) cs ->
  Forall (wf_node t) cs -> length cs <= n ->
  sum_children bt_count_keys_node cs n = total_length (map entries cs).
Proof.
  induction cs as [|c cs IH]; intros n HP Hw Hn; simpl in *; auto.
  destruct n as [|n]; [lia|].
  inversion HP; subst. inversion Hw; subst.
  rewrite IH by (auto; lia). auto.
Qed.

Lemma bt_count_keys_node_entries t x :
  wf_node t x -> bt_count_keys_node x = length (entries x).
Proof.
  induction x as [lf ks vs cs IH] using BTreeNode_induction. intros Hwf.
  apply wf_node_inv in Hwf. destruct Hwf as (Hvs & _ & Hcs & Hall).
  cbn [bt_count_keys_node entries]. destruct lf.
  - rewrite length_combine. lia.
  - rewrite interleave_length by (rewrite length_map, length_combine; lia).
    rewrite (@sum_children_total t) by (auto; lia).
    rewrite length_combine. lia.
Qed.

Lemma bt_count_keys_entries tr :
  tree_inv tr -> bt_count_keys tr = length (tree_entries tr).
Proof.
  intros (_ & Hwf & _). apply (bt_count_keys_node_entries Hwf).
Qed.

(** ** [bt_search] *)

Lemma interleave_In_pair : forall (ss : list (list (Z * Z))) es e,
  length ss = S (length es) -> In e es -> In e (interleave ss es).
Proof.
  induction ss as [|s ss IH]; intros es e H He; simpl in *; [lia|].
  apply in_or_app. right. destruct es as [|e0 es]; [destruct He|].
  destruct He as [<-|He]; [left; reflexivity|].
  right. apply IH; simpl in *; auto; lia.
Qed.

Lemma combine_In_node (lf : bool) ks vs cs e :
  length vs = length ks ->
  (if lf then cs = @nil BTreeNode else length cs = S (length ks)) ->
  In e (combine ks vs) -> In e (entries (Node lf ks vs cs)).
Proof.
  intros Hvs Hcs He. cbn [entries]. destruct lf; auto.
  apply interleave_In_pair; auto.
  rewrite length_map, length_combine. lia.
Qed.

Lemma In_firstn_nth (A : Type) (d : A) n (l : list A) x :
  In x (firstn n l) -> exists j, j < n /\ j < length l /\ nth j l d = x.
Proof.
  intros H. destruct (In_nth _ _ d H) as (j & Hj & E).
  rewrite length_firstn in Hj. exists j. repeat split; try lia.
  rewrite <- E. rewrite nth_firstn.
  destruct (j <? n) eqn:Ej; [reflexivity|]. apply Nat.ltb_ge in Ej. lia.
Qed.

(** In a sorted leaf, the key looked for is either at the position where
    the scan stops or nowhere. *)
Lemma leaf_miss ks vs k :
  length vs = length ks -> ksorted (combine ks vs) ->
  let i := scan_up ks k in
  (i < length ks -> nth i ks 0%Z <> k) ->
  ~ In k (map fst (combine ks vs)).
Proof.
  intros Hvs Hs i Hne Hin.
  destruct (scan_up_index ks k) as (Hi & Hlo & Hhi). fold i in Hi, Hlo, Hhi.
  apply in_map_iff in Hin. destruct Hin as ([k' p] & Ek & Hin).
  simpl in Ek. subst k'.
  rewrite <- (firstn_skipn i (combine ks vs)) in Hin, Hs.
  apply in_app_or in Hin. destruct Hin as [Hin|Hin].
  - destruct (In_firstn_nth (0%Z, NULL) _ _ _ Hin) as (j & Hj & Hjl & E).
    rewrite combine_nth in E by lia. injection E as E _.
    specialize (Hlo j Hj). lia.
  - destruct (Nat.eq_dec i (length ks)) as [Heq|Hneq].
    { rewrite skipn_all2 in Hin by (rewrite length_combine; lia).
      destruct Hin. }
    assert (Hlt : i < length ks) by lia.
    rewrite (@skipn_nth_cons _ (0%Z, NULL)) in Hin, Hs
      by (rewrite length_combine; lia).
    rewrite combine_nth in Hin, Hs by lia.
    specialize (Hne Hlt). specialize (Hhi Hlt).
    destruct Hin as [E|Hin]; [injection E as E _; lia|].
    apply ksorted_app in Hs. destruct Hs as (_ & Hs & _).
    apply ksorted_cons in Hs. destruct Hs as [_ Hs].
    specialize (Hs _ Hin). simpl in Hs. lia.
Qed.

Lemma bt_search_node_spec t k x :
  wf_node t x -> ksorted (entries x) ->
  forall stats,
    let p := fst (bt_search_node x k stats) in
    (In k (map fst (entries x)) -> In (k, p) (entries x)) /\
    (~ In k (map fst (entries x)) -> p = NULL).
Proof.
  induction x as [lf ks vs cs IH] using BTreeNode_induction.
  intros Hwf Hs stats.
  pose proof Hwf as Hwf0.
  apply wf_node_inv in Hwf. destruct Hwf as (Hvs & _ & Hcs & Hall).
  destruct (scan_up_index ks k) as (Hi & Hlo & Hhi).
  cbn [bt_search_node]. cbv zeta.
  set (i := scan_up ks k) in *.
  destruct ((i <? length ks) && (k =? nth i ks 0)%Z) eqn:Efound.
  - (* found in this node *)
    apply andb_true_iff in Efound. destruct Efound as [E1 E2].
    apply Nat.ltb_lt in E1. apply Z.eqb_eq in E2.
    assert (Hin : In (k, nth i vs NULL) (entries (Node lf ks vs cs))).
    { apply combine_In_node; auto.
      rewrite E2 at 1. rewrite <- combine_nth by lia.
      apply nth_In. rewrite length_combine. lia. }
    cbn [fst]. split; [intros _; exact Hin|].
    intros Hn. exfalso. apply Hn.
    apply (in_map fst) in Hin. exact Hin.
  - assert (Hne : i < length ks -> nth i ks 0%Z <> k).
    { intros Hlt E. rewrite E, Z.eqb_refl in Efound.
      apply Nat.ltb_lt in Hlt. rewrite Hlt in Efound. discriminate. }
    destruct lf.
    + (* miss in a leaf *)
      cbn [fst]. rewrite entries_leaf in *.
      split; [|reflexivity].
      intros Hin. exfalso. revert Hin. apply leaf_miss; auto.
    + (* descent into children[i] *)
      rewrite at_child_nth_error.
      destruct (nth_error cs i) as [c|] eqn:Ec.
      2:{ apply nth_error_None in Ec. lia. }
      assert (Hc : nth i cs no_node = c) by (apply nth_error_nth; exact Ec).
      destruct (@node_focus ks vs cs i Hvs Hcs Hi Hs)
        as (pre & post & E & _ & Hpre & Hpost).
      rewrite Hc in E.
      assert (Hcin : In c cs) by (eapply nth_error_In; eauto).
      rewrite Forall_forall in IH, Hall.
      assert (Hsc : ksorted (entries c)).
      { rewrite E in Hs. apply ksorted_app in Hs. destruct Hs as (_ & Hs & _).
        apply ksorted_app in Hs. tauto. }
      destruct (IH c Hcin (Hall c Hcin) Hsc (visit stats)) as [IH1 IH2].
      assert (Hiff : In k (map fst (entries (Node false ks vs cs))) ->
                     In k (map fst (entries c))).
      { rewrite E, !map_app. intros Hin.
        apply in_app_or in Hin. destruct Hin as [Hin|Hin].
        - exfalso. apply in_map_iff in Hin. destruct Hin as (a & Ea & Ha).
          destruct (Hpre a Ha) as (j & Ej & Hle).
          specialize (Hlo j ltac:(lia)). lia.
        - apply in_app_or in Hin. destruct Hin as [Hin|Hin]; auto.
          exfalso. apply in_map_iff in Hin. destruct Hin as (b & Eb & Hb).
          destruct (Hpost b Hb) as (Hlt & Hle).
          specialize (Hhi Hlt). specialize (Hne Hlt). lia. }
      split.
      * intros Hin. rewrite E. apply in_or_app. right. apply in_or_app. left.
        apply IH1, Hiff, Hin.
      * intros Hn. apply IH2. intros Hin. apply Hn.
        rewrite E, !map_app. apply in_or_app. right. apply in_or_app.
        left. exact Hin.
Qed.

Lemma bt_search_spec tr k stats :
  tree_inv tr ->
  let p := fst (bt_search tr k stats) in
  (In k (tree_keys tr) -> In (k, p) (tree_entries tr)) /\
  (~ In k (tree_keys tr) -> p = NULL).
Proof.
  intros (_ & Hwf & Hs). apply (bt_search_node_spec k Hwf Hs).
Qed.

(** The statistics count exactly the nodes on the search path. *)
Lemma bt_search_node_visits k x : forall s,
  snd (bt_search_node x k (Some s)) =
  Some (mkBTStats (node_visits s + Z.of_nat (length (search_path x k)))).
Proof.
  induction x as [lf ks vs cs IH] using BTreeNode_induction. intros s.
  cbn [bt_search_node search_path]. cbv zeta.
  destruct ((scan_up ks k <? length ks) &&
            (k =? nth (scan_up ks k) ks 0)%Z).
  { reflexivity. }
  destruct lf. { reflexivity. }
  rewrite !at_child_nth_error.
  destruct (nth_error cs (scan_up ks k)) as [c|] eqn:Ec.
  - rewrite Forall_forall in IH. cbn [visit].
    rewrite (IH c (nth_error_In _ _ Ec)). cbn [node_visits length].
    do 2 f_equal. lia.
  - reflexivity.
Qed.

(** ** [bt_range_search] *)

Section RangeFeed.
Variables lo hi : Z.
Variable A : Type.
Variable cb : BTRangeCallback A.

Lemma feed_app arg l1 l2 : feed cb arg (l1 ++ l2) = feed cb (feed cb arg l1) l2.
Proof. apply fold_left_app. Qed.

Lemma range_keys_feed ks : forall vs arg,
  range_keys lo hi cb ks vs arg = feed cb arg (keys_out lo hi ks vs).
Proof.
  induction ks as [|key ks IH]; intros vs arg; simpl; auto.
  rewrite feed_app.
  destruct ((key >=? lo)%Z && (key <=? hi)%Z), (key >? hi)%Z; simpl;
    auto.
Qed.

Lemma range_loop_feed rec recout cs :
  Forall (fun c => forall arg st, fst (rec c arg st) = feed cb arg (recout c))
         cs ->
  forall ks vs st,
    fst (range_loop lo hi cb rec cs ks vs st) =
    feed cb (fst st) (loop_out lo hi recout cs ks vs).
Proof.
  induction 1 as [|c cs Hc Hcs IH]; intros ks vs st.
  - simpl. apply range_keys_feed.
  - cbn [range_loop loop_out]. destruct ks as [|key ks]; [apply Hc|].
    rewrite !feed_app.
    destruct (lo <=? key)%Z, ((key >=? lo)%Z && (key <=? hi)%Z),
      (key >? hi)%Z; cbn [fst snd feed fold_left];
      rewrite ?IH, ?Hc; cbn [fst snd feed fold_left];
      rewrite ?Hc; reflexivity.
Qed.

Lemma bt_range_node_feed x : forall arg st,
  fst (bt_range_node lo hi cb x arg st) = feed cb arg (range_out lo hi x).
Proof.
  induction x as [lf ks vs cs IH] using BTreeNode_induction.
  intros arg st. cbn [bt_range_node range_out]. destruct lf.
  - apply range_keys_feed.
  - rewrite (@range_loop_feed _ (range_out lo hi)); auto.
Qed.
End RangeFeed.

Lemma feed_emit_log log l : feed emit_log log l = log ++ l.
Proof.
  revert log. induction l as [|[k v] l IH]; intros log; simpl.
  - symmetry. apply app_nil_r.
  - change (feed emit_log (emit_log k v log) l = log ++ (k, v) :: l).
    rewrite IH. unfold emit_log. rewrite <- app_assoc. reflexivity.
Qed.

Lemma bt_range_search_log lo hi tr st :
  fst (bt_range_search lo hi emit_log tr [] st) = range_out lo hi (root tr).
Proof.
  unfold bt_range_search. rewrite bt_range_node_feed. apply feed_emit_log.
Qed.

Section RangeSpec.
Variables lo hi : Z.

Lemma keys_out_sound ks : forall vs e,
  length vs = length ks -> In e (keys_out lo hi ks vs) ->
  In e (combine ks vs) /\ (lo <= fst e <= hi)%Z.
Proof.
  induction ks as [|key ks IH]; intros [|val vs] e Hvs He;
    simpl in *; try discriminate; try tauto.
  apply in_app_or in He. destruct He as [He|He].
  - destruct ((key >=? lo)%Z && (key <=? hi)%Z) eqn:E; [|destruct He].
    destruct He as [<-|[]]. simpl. split; [auto|lia].
  - destruct (key >? hi)%Z; [destruct He|].
    destruct (IH vs e) as [H1 H2]; auto.
Qed.

Lemma keys_out_complete ks : forall vs e,
  length vs = length ks -> ksorted (combine ks vs) ->
  In e (combine ks vs) -> (lo <= fst e <= hi)%Z ->
  In e (keys_out lo hi ks vs).
Proof.
  induction ks as [|key ks IH]; intros [|val vs] e Hvs Hs He Hr;
    simpl in *; try discriminate; try tauto.
  apply ksorted_cons in Hs. destruct Hs as [Hs Hle].
  apply in_or_app. destruct He as [<-|He].
  - left. simpl in Hr.
    replace ((key >=? lo)%Z && (key <=? hi)%Z) with true by lia.
    left. reflexivity.
  - right. specialize (Hle e He). simpl in Hle.
    replace (key >? hi)%Z with false by lia.
    apply IH; auto.
Qed.

Lemma loop_out_sound t cs :
  Forall (fun c => wf_node t c -> forall e, In e (range_out lo hi c) ->
                   In e (entries c) /\ (lo <= fst e <= hi)%Z) cs ->
  Forall (wf_node t) cs ->
  forall ks vs e,
    length vs = length ks -> length cs = S (length ks) ->
    In e (loop_out lo hi (range_out lo hi) cs ks vs) ->
    In e (interleave (map entries cs) (combine ks vs)) /\
    (lo <= fst e <= hi)%Z.
Proof.
  induction 1 as [|c cs Hc Hcs IH]; intros Hw ks vs e Hvs Hlen He;
    [simpl in Hlen; lia|].
  inversion Hw as [|? ? Hwc Hwcs]; subst.
  cbn [loop_out map interleave] in *.
  destruct ks as [|key ks]; destruct vs as [|val vs];
    simpl in Hvs, Hlen; try discriminate.
  - destruct (Hc Hwc e He) as [H1 H2]. split; auto.
    apply in_or_app. left. exact H1.
  - cbn [combine hd tl] in *.
    apply in_app_or in He. destruct He as [He|He].
    + destruct (lo <=? key)%Z; [|destruct He].
      destruct (Hc Hwc e He) as [H1 H2]. split; auto.
      apply in_or_app. left. exact H1.
    + apply in_app_or in He. destruct He as [He|He].
      * destruct ((key >=? lo)%Z && (key <=? hi)%Z) eqn:E; [|destruct He].
        destruct He as [<-|[]]. simpl. split; [|lia].
        apply in_or_app. right. left. reflexivity.
      * destruct (key >? hi)%Z.
        -- destruct (Hc Hwc e He) as [H1 H2]. split; auto.
           apply in_or_app. left. exact H1.
        -- destruct (IH Hwcs ks vs e) as [H1 H2]; auto; try lia.
           split; auto. apply in_or_app. right. right. exact H1.
Qed.

Lemma range_out_sound t x :
  wf_node t x -> forall e, In e (range_out lo hi x) ->
  In e (entries x) /\ (lo <= fst e <= hi)%Z.
Proof.
  induction x as [lf ks vs cs IH] using BTreeNode_induction.
  intros Hwf e He. apply wf_node_inv in Hwf.
  destruct Hwf as (Hvs & _ & Hcs & Hall).
  cbn [range_out entries] in *. destruct lf.
  - apply keys_out_sound; auto.
  - apply (@loop_out_sound t); auto.
Qed.

Lemma loop_out_complete t cs :
  Forall (fun c => wf_node t c -> ksorted (entries c) ->
                   forall e, In e (entries c) -> (lo <= fst e <= hi)%Z ->
                   In e (range_out lo hi c)) cs ->
  Forall (wf_node t) cs ->
  forall ks vs e,
    length vs = length ks -> length cs = S (length ks) ->
    ksorted (interleave (map entries cs) (combine ks vs)) ->
    In e (interleave (map entries cs) (combine ks vs)) ->
    (lo <= fst e <= hi)%Z ->
    In e (loop_out lo hi (range_out lo hi) cs ks vs).
Proof.
  induction 1 as [|c cs Hc Hcs IH]; intros Hw ks vs e Hvs Hlen Hs He Hr;
    [simpl in Hlen; lia|].
  inversion Hw as [|? ? Hwc Hwcs]; subst.
  cbn [loop_out map interleave] in *.
  destruct ks as [|key ks]; destruct vs as [|val vs];
    simpl in Hvs, Hlen; try discriminate.
  - simpl in He, Hs. rewrite app_nil_r in He, Hs. apply Hc; auto.
  - cbn [combine hd tl] in *.
    apply ksorted_app in Hs. destruct Hs as (S1 & S2 & S3).
    apply ksorted_cons in S2. destruct S2 as [S4 S5].
    apply in_app_or in He. apply in_or_app. destruct He as [He|He].
    + left. specialize (S3 e (key, val) He (or_introl eq_refl)).
      simpl in S3.
      replace (lo <=? key)%Z with true by lia.
      apply Hc; auto.
    + right. apply in_or_app. destruct He as [<-|He].
      * left. simpl in Hr.
        replace ((key >=? lo)%Z && (key <=? hi)%Z) with true by lia.
        left. reflexivity.
      * right. specialize (S5 e He). simpl in S5.
        replace (key >? hi)%Z with false by lia.
        apply IH; auto; lia.
Qed.

Lemma range_out_complete t x :
  wf_node t x -> ksorted (entries x) ->
  forall e, In e (entries x) -> (lo <= fst e <= hi)%Z ->
  In e (range_out lo hi x).
Proof.
  induction x as [lf ks vs cs IH] using BTreeNode_induction.
  intros Hwf Hs e He Hr. apply wf_node_inv in Hwf.
  destruct Hwf as (Hvs & _ & Hcs & Hall).
  cbn [range_out entries] in *. destruct lf.
  - apply keys_out_complete; auto.
  - apply (@loop_out_complete t); auto.
Qed.
End RangeSpec.

(* ================================================================== *)
(** * The tiered index                                               *)
(* ================================================================== *)

Lemma tree_inv_create t : 2 <= t -> tree_inv (bt_create t).
Proof.
  intros Ht. split; [exact Ht|]. split.
  - constructor; simpl; lia.
  - apply ksorted_nil.
Qed.

Lemma hc_create_inv mk t p : 2 <= t -> hc_inv (hc_create mk t p).
Proof.
  intros Ht. unfold hc_inv, hc_create. cbn.
  repeat split; try (apply tree_inv_create; exact Ht);
    try (intros e []); try lia.
  apply repeat_length.
Qed.

Lemma bt_search_node_fst_stats k x : forall s s',
  fst (bt_search_node x k s) = fst (bt_search_node x k s').
Proof.
  induction x as [lf ks vs cs IH] using BTreeNode_induction. intros s s'.
  cbn [bt_search_node]. cbv zeta.
  destruct ((scan_up ks k <? length ks) &&
            (k =? nth (scan_up ks k) ks 0)%Z); [reflexivity|].
  destruct lf; [reflexivity|].
  rewrite !at_child_nth_error.
  destruct (nth_error cs (scan_up ks k)) as [c|] eqn:Ec; [|reflexivity].
  rewrite Forall_forall in IH. apply (IH c (nth_error_In _ _ Ec)).
Qed.

Lemma bt_search_fst_stats tr k s s' :
  fst (bt_search tr k s) = fst (bt_search tr k s').
Proof. apply bt_search_node_fst_stats. Qed.

(** The two outcomes of [maybe_promote]. *)
Lemma maybe_promote_cases idx k :
  maybe_promote idx k = idx \/
  (inclusive (params idx) <> 0%Z /\
   hot_full idx (bt_count_keys (hot idx)) = false /\
   fst (bt_search (hot idx) k (Some stats0)) = NULL /\
   fst (bt_search (cold idx) k (Some stats0)) <> NULL /\
   maybe_promote idx k =
   set_hot idx (bt_insert (hot idx) k
                  (fst (bt_search (cold idx) k (Some stats0))))).
Proof.
  unfold maybe_promote.
  destruct (inclusive (params idx) =? 0)%Z eqn:E1; auto.
  destruct (hot_full idx (bt_count_keys (hot idx))) eqn:E2; auto.
  destruct (fst (bt_search (hot idx) k (Some stats0)) =? NULL)%Z eqn:E3;
    auto.
  destruct (fst (bt_search (cold idx) k (Some stats0)) =? NULL)%Z eqn:E4;
    auto.
  right. cbn [negb]. repeat split; auto; lia.
Qed.

(** [maybe_promote] reads the trees, [max_key] and the parameters, and
    writes the hot tree only. *)
Lemma maybe_promote_frame idx k :
  cold (maybe_promote idx k) = cold idx /\
  max_key (maybe_promote idx k) = max_key idx /\
  params (maybe_promote idx k) = params idx /\
  hit_score (maybe_promote idx k) = hit_score idx /\
  stats (maybe_promote idx k) = stats idx.
Proof.
  destruct (maybe_promote_cases idx k) as [-> | (_ & _ & _ & _ & ->)];
    cbn; auto.
Qed.

Lemma maybe_promote_ext idx idx1 k :
  hot idx1 = hot idx -> cold idx1 = cold idx ->
  max_key idx1 = max_key idx -> params idx1 = params idx ->
  hot (maybe_promote idx1 k) = hot (maybe_promote idx k).
Proof.
  destruct idx, idx1. cbn. intros -> -> -> ->.
  unfold maybe_promote, hot_full, max_hot, total_keys. cbn.
  repeat match goal with
         | |- context [if ?b then _ else _] => destruct b
         end; reflexivity.
Qed.

Lemma next_score_set_stats idx s k :
  next_score (set_stats idx s) k = next_score idx k.
Proof. reflexivity. Qed.

(** The outcomes of [hc_search]. *)
Lemma hc_search_cases idx k :
  let vh := fst (bt_search (hot idx) k (Some stats0)) in
  let vc := fst (bt_search (cold idx) k (Some stats0)) in
  let nh := visits_of (snd (bt_search (hot idx) k (Some stats0))) in
  let nc := visits_of (snd (bt_search (cold idx) k (Some stats0))) in
  let s1 := add_hot_node_visits (inc_queries (stats idx)) nh in
  let s2 := add_cold_node_visits s1 nc in
  let touched st :=
    if in_key_range idx k
    then store_score (set_stats idx st) k (next_score idx k)
    else set_stats idx st in
  (vh <> NULL /\
   hc_search idx k = (vh, touched (inc_hot_hits s1))) \/
  (vh = NULL /\ vc <> NULL /\
   hc_search idx k =
   (vc, if in_key_range idx k &&
           d_ge (next_score idx k) (hot_threshold (params idx))
        then maybe_promote (touched (inc_cold_hits s2)) k
        else touched (inc_cold_hits s2))) \/
  (vh = NULL /\ vc = NULL /\
   hc_search idx k = (NULL, set_stats idx (inc_not_found s2))).
Proof.
  cbv zeta. unfold hc_search. cbn [hot cold set_stats stats].
  destruct (bt_search (hot idx) k (Some stats0)) as [v hs] eqn:Eh.
  cbn [fst snd].
  destruct (v =? NULL)%Z eqn:Ev; cbn [negb].
  - right. destruct (bt_search (cold idx) k (Some stats0)) as [v' cs] eqn:Ec.
    cbn [fst snd].
    destruct (v' =? NULL)%Z eqn:Ev'; cbn [negb].
    + right. repeat split; auto; lia.
    + left. split; [lia|]. split; [lia|].
      change (in_key_range (set_stats _ _) k) with (in_key_range idx k).
      destruct (in_key_range idx k); cbn [andb]; [|reflexivity].
      match goal with
      | |- (if ?c then _ else _) = (_, if ?c' then _ else _) =>
          change c' with c; destruct c; reflexivity
      end.
  - left. split; [lia|].
    change (in_key_range (set_stats _ _) k) with (in_key_range idx k).
    destruct (in_key_range idx k); reflexivity.
Qed.

(** What [hc_search] leaves alone, and when the hot tree changes. *)
Lemma hc_search_trees idx k :
  let idx' := snd (hc_search idx k) in
  max_key idx' = max_key idx /\ params idx' = params idx /\
  cold idx' = cold idx /\
  (hot idx' = hot idx \/
   ((0 <= k <= max_key idx)%Z /\
    hot idx' = hot (maybe_promote idx k) /\
    d_ge (next_score idx k) (hot_threshold (params idx)) = true /\
    fst (bt_search (hot idx) k (Some stats0)) = NULL /\
    fst (bt_search (cold idx) k (Some stats0)) <> NULL)).
Proof.
  cbv zeta.
  destruct (hc_search_cases idx k)
    as [(H1 & ->) | [(H1 & H2 & ->) | (H1 & H2 & ->)]]; cbn [snd].
  - unfold store_score. destruct (in_key_range idx k); cbn; auto.
  - destruct (in_key_range idx k) eqn:Er; cbn [andb].
    + destruct (d_ge _ _) eqn:Eg.
      * match goal with
        | |- context [maybe_promote ?i k] => set (idx1 := i)
        end.
        destruct (maybe_promote_frame idx1 k) as (F1 & F2 & F3 & _).
        rewrite F1, F2, F3. cbn. repeat split; auto. right.
        unfold in_key_range in Er. repeat split; auto; try lia.
        apply maybe_promote_ext; reflexivity.
      * cbn. auto.
    + cbn. auto.
  - cbn. auto.
Qed.

Lemma hc_search_hit_score_length idx k :
  length (hit_score idx) = Z.to_nat (max_key idx + 1) ->
  length (hit_score (snd (hc_search idx k))) = length (hit_score idx).
Proof.
  intros Hlen.
  assert (Ht : forall st,
    length (hit_score
              (if in_key_range idx k
               then store_score (set_stats idx st) k (next_score idx k)
               else set_stats idx st)) = length (hit_score idx)).
  { intros st. destruct (in_key_range idx k) eqn:Er; [|reflexivity].
    unfold store_score, in_key_range in *. cbn.
    apply array_set_length. lia. }
  destruct (hc_search_cases idx k)
    as [(H1 & ->) | [(H1 & H2 & ->) | (H1 & H2 & ->)]]; cbn [snd].
  - apply Ht.
  - destruct (_ && _); [|apply Ht].
    match goal with
    | |- context [maybe_promote ?i k] =>
        destruct (maybe_promote_frame i k) as (_ & _ & _ & -> & _)
    end.
    apply Ht.
  - reflexivity.
Qed.

Lemma hc_range_search_frame (A : Type) idx lo hi (cb : BTRangeCallback A)
      arg :
  let idx' := snd (hc_range_search idx lo hi cb arg) in
  hot idx' = hot idx /\ cold idx' = cold idx /\
  max_key idx' = max_key idx /\ params idx' = params idx /\
  hit_score idx' = hit_score idx.
Proof.
  unfold hc_range_search.
  destruct (bt_range_search _ _ _ (hot idx) _ _) as [c1 s1].
  destruct (bt_range_search _ _ _ (cold idx) _ _) as [c2 s2].
  cbn. auto.
Qed.


(** ** The invariant of the index *)

Lemma hc_inv_hot idx idx' :
  hc_inv idx ->
  tree_inv (hot idx') ->
  (forall e, In e (tree_entries (hot idx')) ->
             snd e <> NULL /\ (0 <= fst e <= max_key idx)%Z) ->
  cold idx' = cold idx -> max_key idx' = max_key idx ->
  length (hit_score idx') = length (hit_score idx) ->
  hc_inv idx'.
Proof.
  intros (H1 & H2 & H3 & H4 & H5) Hh He Hc Hm Hl. unfold hc_inv.
  rewrite Hc, Hm, Hl. auto.
Qed.

Lemma hc_insert_inv idx k v :
  hc_inv idx -> hc_inv (fst (hc_insert idx k v)).
Proof.
  intros Hinv. unfold hc_insert.
  destruct ((k <? 0)%Z || (k >? max_key idx)%Z) eqn:Er; [exact Hinv|].
  destruct Hinv as (H1 & H2 & H3 & H4 & H5).
  destruct (bt_insert_ok k v H2) as (I1 & _ & _ & I2 & _).
  unfold hc_inv. cbn [hot cold max_key hit_score set_cold fst].
  split; [exact H1|]. split; [exact I1|]. split; [exact H3|].
  split; [|exact H5].
  intros e He. apply I2 in He. destruct He as [<-|He]; [simpl; lia|].
  apply H4, He.
Qed.

Lemma maybe_promote_inv idx k :
  hc_inv idx -> (0 <= k <= max_key idx)%Z -> hc_inv (maybe_promote idx k).
Proof.
  intros Hinv Hr.
  destruct (maybe_promote_cases idx k) as [-> | (_ & _ & _ & Hv & ->)];
    [exact Hinv|].
  pose proof Hinv as (H1 & H2 & H3 & H4 & H5).
  destruct (bt_insert_ok k (fst (bt_search (cold idx) k (Some stats0))) H1)
    as (I1 & _ & _ & I2 & _).
  apply (hc_inv_hot (idx := idx)); auto.
  cbn. intros e He. apply I2 in He. destruct He as [<-|He]; [|apply H3, He].
  simpl. split; [exact Hv|lia].
Qed.

Lemma hc_search_inv idx k : hc_inv idx -> hc_inv (snd (hc_search idx k)).
Proof.
  intros Hinv.
  destruct (hc_search_trees idx k) as (Hm & _ & Hc & Hh).
  pose proof (hc_search_hit_score_length idx k) as Hl.
  pose proof Hinv as (H1 & H2 & H3 & H4 & H5).
  destruct Hh as [Hh | (Hr & Hh & _)].
  - apply (hc_inv_hot (idx := idx)); auto; rewrite Hh; auto.
  - destruct (maybe_promote_inv Hinv Hr) as (P1 & _ & P3 & _).
    destruct (maybe_promote_frame idx k) as (_ & F2 & _).
    rewrite F2 in P3.
    apply (hc_inv_hot (idx := idx)); auto; rewrite Hh; auto.
Qed.

Lemma hc_range_search_inv (A : Type) idx lo hi (cb : BTRangeCallback A) arg :
  hc_inv idx -> hc_inv (snd (hc_range_search idx lo hi cb arg)).
Proof.
  intros Hinv.
  destruct (hc_range_search_frame idx lo hi cb arg)
    as (Hh & Hc & Hm & _ & Hs).
  pose proof Hinv as (H1 & H2 & H3 & H4 & H5).
  apply (hc_inv_hot (idx := idx)); auto; rewrite ?Hh, ?Hs; auto.
Qed.

Lemma hc_step_inv idx op : hc_inv idx -> hc_inv (hc_step idx op).
Proof.
  destruct op; cbn [hc_step].
  - apply hc_insert_inv.
  - apply hc_search_inv.
  - apply hc_range_search_inv.
Qed.

Lemma hc_step_frame idx op :
  max_key (hc_step idx op) = max_key idx /\
  params (hc_step idx op) = params idx.
Proof.
  destruct op; cbn [hc_step].
  - unfold hc_insert. destruct (_ || _); cbn; auto.
  - destruct (hc_search_trees idx k) as (H1 & H2 & _). auto.
  - destruct (hc_range_search_frame idx lo hi emit_log [])
      as (_ & _ & H1 & H2 & _). auto.
Qed.

Lemma hc_run_snoc ops op idx :
  hc_run (ops ++ [op]) idx = hc_step (hc_run ops idx) op.
Proof. unfold hc_run. rewrite fold_left_app. reflexivity. Qed.

Lemma hc_run_inv ops : forall idx, hc_inv idx -> hc_inv (hc_run ops idx).
Proof.
  induction ops as [|op ops IH]; intros idx H; [exact H|].
  apply IH, hc_step_inv, H.
Qed.

Lemma hc_run_frame ops : forall idx,
  max_key (hc_run ops idx) = max_key idx /\
  params (hc_run ops idx) = params idx.
Proof.
  induction ops as [|op ops IH]; intros idx; [split; reflexivity|].
  cbn [hc_run fold_left]. destruct (IH (hc_step idx op)) as [H1 H2].
  destruct (hc_step_frame idx op) as [H3 H4].
  unfold hc_run in *. rewrite H1, H2. auto.
Qed.

Lemma hc_reachable_inv mk t p ops :
  2 <= t -> hc_inv (hc_run ops (hc_create mk t p)).
Proof. intros Ht. apply hc_run_inv, hc_create_inv, Ht. Qed.

(* ================================================================== *)
(** * Properties of the operations                                     *)
(* ================================================================== *)

(** ** Insertion of a key that the tree already holds *)

(** C1.  [bt_insert] of a key that is already stored does not always
    replace its payload.  With [t = 2], after the inserts of 1, 2, 3, 4 the
    key 2 sits in the root, an internal node; [bt_insert(2, 999)] descends
    past it and stores a second pair in a leaf: [bt_search] still returns
    the old payload 102 and [bt_count_keys] goes from 4 to 5.  With
    [t = 3], the leaf holding 1, 2, 3 becomes 1, 2, 2 by
    [bt_insert(1, 999)]: the shifting loop has run before the equal key is
    found, and the key 3 is lost. *)
Theorem bt_insert_existing_key_not_replaced :
  let tr := bt_insert_all (bt_create 2)
              [(1, 101); (2, 102); (3, 103); (4, 104)]%Z in
  let tr' := bt_insert tr 2 999 in
  let tr3 := bt_insert_all (bt_create 3) [(1, 101); (2, 102); (3, 103)]%Z in
  let tr3' := bt_insert tr3 1 999 in
  (root tr = Node false [2] [102]
               [Node true [1] [101] []; Node true [3; 4] [103; 104] []] /\
   fst (bt_search tr' 2 None) = 102 /\
   bt_count_keys tr = 4%nat /\ bt_count_keys tr' = 5%nat /\
   tree_entries tr' = [(1, 101); (2, 102); (2, 999); (3, 103); (4, 104)])%Z
  /\
  (tree_entries tr3 = [(1, 101); (2, 102); (3, 103)] /\
   tree_entries tr3' = [(1, 999); (2, 102); (2, 102)] /\
   fst (bt_search tr3 3 None) = 103 /\
   fst (bt_search tr3' 3 None) = NULL)%Z.
Proof. vm_compute. repeat split. Qed.

(** ** Range search on one tree *)

(** C2.  [bt_range_search] passes a stored pair to the callback twice when
    the scan stops at a key above [hi] of an internal node: the child left
    of that key is entered once because [lo <= keys[i]] and once more
    because [keys[i] > hi].  With [t = 2] and the keys 1, 2, 3, 4, the
    range [[0, 1]] emits the pair of key 1 twice. *)
Theorem bt_range_search_emits_twice :
  let tr := bt_insert_all (bt_create 2)
              [(1, 101); (2, 102); (3, 103); (4, 104)]%Z in
  tree_entries tr = [(1, 101); (2, 102); (3, 103); (4, 104)]%Z /\
  fst (bt_range_search 0 1 emit_log tr [] None) = [(1, 101); (1, 101)]%Z /\
  fst (bt_range_search 2 1 emit_log tr [] None) = [].
Proof. vm_compute. repeat split. Qed.

(** ** Containment of the hot tree in the cold tree *)

(** C6.  A key of the hot tree can be missing from the cold tree.  With
    [t = 3], the keys 1, 2, 3 are inserted, a search promotes 3, and a
    second [hc_insert] of the key 1 makes the cold leaf 1, 2, 2 (the defect
    of C1): 3 is in hot and no longer in cold.  At the promotion itself the
    two payloads of 3 are equal. *)
Theorem hot_key_missing_from_cold :
  let idx0 := hc_run [OpInsert 1 11; OpInsert 2 12; OpInsert 3 13]
                     (hc_create 9 3 params_full) in
  let idx1 := snd (hc_search idx0 3) in
  let idx2 := fst (hc_insert idx1 1 21) in
  (tree_entries (hot idx0) = [] /\
   tree_entries (hot idx1) = [(3, 13)] /\
   fst (bt_search (cold idx1) 3 None) = 13 /\
   tree_keys (hot idx2) = [3] /\ tree_keys (cold idx2) = [1; 2; 2])%Z.
Proof. vm_compute. repeat split. Qed.

(** ** Rejected and accepted inserts *)

(** C9.  [hc_insert] of a key outside [[0, max_key]] prints the diagnostic
    and returns the index as it was: trees, scores, statistics.  For a key
    inside the range nothing is printed, the cold tree is the result of
    [bt_insert] and everything else, the hot tree included, is as
    before. *)
Theorem hc_insert_range_check (idx : HCIndex) (k : BTKey) (v : BTPayload) :
  ((k < 0 \/ max_key idx < k)%Z ->
   hc_insert idx k v = (idx, Some (hc_insert_out_of_range k (max_key idx))))
  /\
  ((0 <= k <= max_key idx)%Z ->
   snd (hc_insert idx k v) = None /\
   cold (fst (hc_insert idx k v)) = bt_insert (cold idx) k v /\
   hot (fst (hc_insert idx k v)) = hot idx /\
   hit_score (fst (hc_insert idx k v)) = hit_score idx /\
   stats (fst (hc_insert idx k v)) = stats idx /\
   params (fst (hc_insert idx k v)) = params idx /\
   max_key (fst (hc_insert idx k v)) = max_key idx).
Proof.
  unfold hc_insert. split; intros H.
  - replace ((k <? 0)%Z || (k >? max_key idx)%Z) with true by lia.
    reflexivity.
  - replace ((k <? 0)%Z || (k >? max_key idx)%Z) with false by lia.
    cbn. repeat split.
Qed.

Lemma hc_insert_range_check_witness :
  let idx := hc_create 9 2 params_full in
  hc_insert idx 10 5 = (idx, Some (hc_insert_out_of_range 10 9)) /\
  hc_insert idx (-1) 5 = (idx, Some (hc_insert_out_of_range (-1) 9)) /\
  cold (fst (hc_insert idx 4 5)) = bt_insert (cold idx) 4 5 /\
  hot (fst (hc_insert idx 4 5)) = hot idx.
Proof.
  intros idx.
  split; [apply (hc_insert_range_check idx 10 5); cbn; lia|].
  split; [apply (hc_insert_range_check idx (-1) 5); cbn; lia|].
  assert (Hr : (0 <= 4 <= max_key idx)%Z) by (cbn; lia).
  destruct (proj2 (hc_insert_range_check idx 4 5) Hr)
    as (_ & Hc & Hh & _).
  split; [exact Hc|exact Hh].
Defined.

(** ** Node visits of a search *)

(** C7, as the code has it.  A call of [hc_search] adds to
    [hot_node_visits] the number of nodes on the search path in the hot
    tree and, when the hot probe returns [NULL], adds to
    [cold_node_visits] the number of nodes on the search path in the cold
    tree.  Nothing is added for the nodes that a promotion examines. *)
Theorem hc_search_node_visits (idx : HCIndex) (k : BTKey) :
  let idx' := snd (hc_search idx k) in
  hot_node_visits (stats idx') =
    (hot_node_visits (stats idx) +
     Z.of_nat (length (search_path (root (hot idx)) k)))%Z /\
  cold_node_visits (stats idx') =
    (cold_node_visits (stats idx) +
     if (fst (bt_search (hot idx) k (Some stats0)) =? NULL)%Z
     then Z.of_nat (length (search_path (root (cold idx)) k))
     else 0)%Z.
Proof.
  cbv zeta.
  assert (Hh : visits_of (snd (bt_search (hot idx) k (Some stats0))) =
               Z.of_nat (length (search_path (root (hot idx)) k))).
  { unfold bt_search. rewrite bt_search_node_visits. reflexivity. }
  assert (Hc : visits_of (snd (bt_search (cold idx) k (Some stats0))) =
               Z.of_nat (length (search_path (root (cold idx)) k))).
  { unfold bt_search. rewrite bt_search_node_visits. reflexivity. }
  assert (Ht : forall st,
    stats (if in_key_range idx k
           then store_score (set_stats idx st) k (next_score idx k)
           else set_stats idx st) = st).
  { intros st. destruct (in_key_range idx k); reflexivity. }
  destruct (hc_search_cases idx k)
    as [(H1 & ->) | [(H1 & H2 & ->) | (H1 & H2 & ->)]]; cbn [snd].
  - rewrite Ht. cbn. rewrite Hh.
    replace (_ =? NULL)%Z with false by lia. lia.
  - assert (Hs : forall (c : bool) i,
               stats (if c then maybe_promote i k else i) = stats i).
    { intros [] i; [|reflexivity].
      destruct (maybe_promote_frame i k) as (_ & _ & _ & _ & E). exact E. }
    rewrite Hs, Ht. cbn. rewrite Hh, Hc, H1. cbn. lia.
  - cbn. rewrite Hh, Hc, H1. cbn. lia.
Qed.

(** C7, as stated, fails: the search that promotes the key 0 adds 2 to the
    two counters, while the [bt_search] calls made during that search, the
    two of [maybe_promote] included, visit 4 nodes. *)
Lemma promotion_visits_not_counted :
  let idx := hc_run [OpInsert 0 7] (hc_create 0 2 params_full) in
  let idx' := snd (hc_search idx 0) in
  tree_entries (hot idx') = [(0, 7)]%Z /\
  (hot_node_visits (stats idx') + cold_node_visits (stats idx')
   - (hot_node_visits (stats idx) + cold_node_visits (stats idx)) = 2)%Z /\
  search_probe_visits idx 0 = 4%Z.
Proof. vm_compute. repeat split. Qed.

(** ** Capacity of the hot tree *)

(** C3, as stated, fails: with [max_hot_fraction = 0.5] and [max_key = 0]
    the bound [floor (0.5 * 1)] is 0, and the first search of the key 0
    promotes it, since [0 >= 0.5] is false. *)
Lemma hot_capacity_floor_exceeded :
  let idx := hc_run [OpInsert 0 7; OpSearch 0] (hc_create 0 2 params_half) in
  hot_capacity_floor idx = Some 0%Z /\ bt_count_keys (hot idx) = 1.
Proof. vm_compute. split; reflexivity. Qed.

Lemma hot_full_frame idx idx' n :
  max_key idx' = max_key idx -> params idx' = params idx ->
  hot_full idx' n = hot_full idx n.
Proof.
  intros Hm Hp. unfold hot_full, max_hot, total_keys. rewrite Hm, Hp.
  reflexivity.
Qed.

Lemma maybe_promote_capacity idx k :
  hc_inv idx -> hot_within_capacity idx ->
  hot_within_capacity (maybe_promote idx k).
Proof.
  intros Hinv Hcap.
  destruct (maybe_promote_cases idx k) as [-> | (_ & Hf & _ & _ & E)];
    [exact Hcap|].
  destruct Hinv as (H1 & _).
  destruct (bt_insert_ok k (fst (bt_search (cold idx) k (Some stats0))) H1)
    as (I1 & _ & _ & _ & _ & I2 & _).
  unfold hot_within_capacity.
  rewrite (@hot_full_frame idx (maybe_promote idx k))
    by (apply maybe_promote_frame).
  rewrite E. cbn [hot set_hot].
  rewrite (bt_count_keys_entries I1).
  unfold hot_within_capacity in Hcap.
  rewrite (bt_count_keys_entries H1) in Hcap, Hf.
  destruct (Nat.eq_dec
              (length (tree_entries (bt_insert (hot idx) k
                 (fst (bt_search (cold idx) k (Some stats0))))))
              (length (tree_entries (hot idx)))) as [Eq|Ne].
  - rewrite Eq. exact Hcap.
  - right. match goal with |- hot_full idx ?n = false =>
      replace n with (length (tree_entries (hot idx))) by lia end.
    exact Hf.
Qed.

Lemma hc_step_capacity idx op :
  hc_inv idx -> hot_within_capacity idx ->
  hot_within_capacity (hc_step idx op).
Proof.
  intros Hinv Hcap.
  assert (Hsame : forall idx', hot idx' = hot idx ->
            max_key idx' = max_key idx -> params idx' = params idx ->
            hot_within_capacity idx').
  { intros idx' Hh Hm Hp. unfold hot_within_capacity.
    rewrite Hh, (@hot_full_frame idx idx' _ Hm Hp). exact Hcap. }
  destruct op; cbn [hc_step].
  - unfold hc_insert.
    destruct ((k <? 0)%Z || (k >? max_key idx)%Z); cbn [fst];
      [exact Hcap|].
    apply Hsame; reflexivity.
  - destruct (hc_search_trees idx k) as (Hm & Hp & _ & [Hh | (_ & Hh & _)]).
    + apply Hsame; auto.
    + pose proof (maybe_promote_capacity k Hinv Hcap) as Hc.
      destruct (maybe_promote_frame idx k) as (_ & F2 & F3 & _).
      unfold hot_within_capacity in *.
      rewrite Hh, (@hot_full_frame idx _ _ Hm Hp).
      rewrite (@hot_full_frame idx _ _ F2 F3) in Hc. exact Hc.
  - destruct (hc_range_search_frame idx lo hi emit_log [])
      as (Hh & _ & Hm & Hp & _).
    apply Hsame; auto.
Qed.

(** C3, as the code has it.  After any sequence of calls the hot tree is
    empty, or the test [(double)hot_keys >= max_hot] of [maybe_promote] is
    false at [hot_keys - 1], where [max_hot] is the double product
    [max_hot_fraction * (double)(max_key + 1)]: the number of hot keys
    exceeds a count found below the capacity by one at most, so it is
    bounded by the capacity rounded up, not down. *)
Theorem hot_capacity_bound (t : nat) (mk : Z) (p : HCParams)
        (ops : list hc_op) :
  2 <= t ->
  let idx := hc_run ops (hc_create mk t p) in
  bt_count_keys (hot idx) = 0 \/
  hot_full idx (bt_count_keys (hot idx) - 1) = false.
Proof.
  intros Ht. cbv zeta.
  change (hot_within_capacity (hc_run ops (hc_create mk t p))).
  induction ops as [|op ops IH] using rev_ind.
  - left. reflexivity.
  - rewrite hc_run_snoc. apply hc_step_capacity; auto.
    apply hc_reachable_inv, Ht.
Qed.

Lemma hot_capacity_bound_witness :
  let idx := hc_run [OpInsert 0 7; OpSearch 0; OpSearch 0]
                    (hc_create 0 2 params_half) in
  bt_count_keys (hot idx) = 0 \/
  hot_full idx (bt_count_keys (hot idx) - 1) = false.
Proof.
  apply (@hot_capacity_bound 2 0%Z params_half
           [OpInsert 0 7; OpSearch 0; OpSearch 0]).
  lia.
Defined.

(** ** Searches after inserts of distinct keys *)

Lemma NoDup_keys_functional (l : list (Z * Z)) k v v' :
  NoDup (map fst l) -> In (k, v) l -> In (k, v') l -> v = v'.
Proof.
  induction l as [|[k0 v0] l IH]; simpl; intros Hnd H1 H2; [tauto|].
  inversion Hnd as [|? ? Hnot Hnd']; subst.
  destruct H1 as [E1|H1], H2 as [E2|H2].
  - congruence.
  - injection E1 as -> ->. exfalso. apply Hnot.
    apply (in_map fst) in H2. exact H2.
  - injection E2 as -> ->. exfalso. apply Hnot.
    apply (in_map fst) in H1. exact H1.
  - apply IH; auto.
Qed.

Lemma bt_insert_all_snoc tr kvs k v :
  bt_insert_all tr (kvs ++ [(k, v)]) = bt_insert (bt_insert_all tr kvs) k v.
Proof. unfold bt_insert_all. rewrite fold_left_app. reflexivity. Qed.

Lemma bt_insert_fresh tr k v :
  tree_inv tr -> ~ In k (tree_keys tr) ->
  tree_inv (bt_insert tr k v) /\
  Permutation (tree_entries (bt_insert tr k v)) ((k, v) :: tree_entries tr).
Proof.
  intros Hinv Hfresh.
  destruct (bt_insert_ok k v Hinv) as (I1 & _ & _ & _ & _ & _ & I2).
  split; [exact I1|]. apply I2. exact Hfresh.
Qed.

Lemma bt_insert_all_distinct t kvs :
  2 <= t -> NoDup (map fst kvs) ->
  tree_inv (bt_insert_all (bt_create t) kvs) /\
  Permutation (tree_entries (bt_insert_all (bt_create t) kvs)) kvs.
Proof.
  intros Ht. induction kvs as [|[k v] kvs IH] using rev_ind; intros Hnd.
  - split; [apply tree_inv_create, Ht|]. constructor.
  - rewrite map_app in Hnd. simpl in Hnd.
    apply NoDup_remove in Hnd. rewrite app_nil_r in Hnd.
    destruct Hnd as [Hnd Hnot]. destruct (IH Hnd) as [Hinv Hperm].
    rewrite bt_insert_all_snoc.
    destruct (@bt_insert_fresh _ k v Hinv) as [H1 H2].
    { unfold tree_keys. rewrite Hperm. exact Hnot. }
    split; [exact H1|]. rewrite H2, Hperm. apply Permutation_cons_append.
Qed.

(** A tree whose pairs are those of [kvs], all keys distinct, returns the
    payload of every key of [kvs] and [NULL] for every other key. *)
Lemma bt_search_distinct tr kvs st :
  tree_inv tr -> Permutation (tree_entries tr) kvs ->
  NoDup (map fst kvs) ->
  (forall k v, In (k, v) kvs -> fst (bt_search tr k st) = v) /\
  (forall k, ~ In k (map fst kvs) -> fst (bt_search tr k st) = NULL).
Proof.
  intros Hinv Hperm Hnd. split.
  - intros k v Hin.
    destruct (bt_search_spec k st Hinv) as [H1 _].
    assert (Hk : In k (tree_keys tr)).
    { unfold tree_keys. rewrite Hperm. apply (in_map fst) in Hin. exact Hin. }
    specialize (H1 Hk). rewrite Hperm in H1.
    eapply NoDup_keys_functional; [exact Hnd|exact H1|exact Hin].
  - intros k Hnot. apply (bt_search_spec k st Hinv).
    unfold tree_keys. rewrite Hperm. exact Hnot.
Qed.

Lemma inserted_app ops1 ops2 :
  inserted (ops1 ++ ops2) = inserted ops1 ++ inserted ops2.
Proof.
  induction ops1 as [|[k v| k | lo hi] ops1 IH]; simpl; auto.
  rewrite IH. reflexivity.
Qed.

(** What [hc_search] returns. *)
Lemma hc_search_result idx k :
  fst (hc_search idx k) =
  if (fst (bt_search (hot idx) k (Some stats0)) =? NULL)%Z
  then fst (bt_search (cold idx) k (Some stats0))
  else fst (bt_search (hot idx) k (Some stats0)).
Proof.
  destruct (hc_search_cases idx k)
    as [(H1 & ->) | [(H1 & H2 & ->) | (H1 & H2 & ->)]]; cbn [fst].
  - replace (_ =? NULL)%Z with false by lia. reflexivity.
  - rewrite H1. reflexivity.
  - rewrite H1, H2. reflexivity.
Qed.

(** A payload that [bt_search] returns and that is not [NULL] is stored
    with the key. *)
Lemma bt_search_found tr k st :
  tree_inv tr -> fst (bt_search tr k st) <> NULL ->
  In (k, fst (bt_search tr k st)) (tree_entries tr).
Proof.
  intros Hinv Hv. destruct (bt_search_spec k st Hinv) as [H1 H2].
  destruct (in_dec Z.eq_dec k (tree_keys tr)) as [Hin|Hnot]; auto.
  exfalso. apply Hv, H2, Hnot.
Qed.

(** When the inserted keys are distinct and in range, the cold tree holds
    the inserted pairs and the hot tree holds some of them. *)
Lemma distinct_run_inv t mk p ops :
  2 <= t -> NoDup (map fst (inserted ops)) ->
  (forall k, In k (map fst (inserted ops)) -> (0 <= k <= mk)%Z) ->
  let idx := hc_run ops (hc_create mk t p) in
  Permutation (tree_entries (cold idx)) (inserted ops) /\
  incl (tree_entries (hot idx)) (tree_entries (cold idx)).
Proof.
  intros Ht. induction ops as [|op ops IH] using rev_ind; intros Hnd Hr.
  - cbn. split; [constructor|apply incl_refl].
  - cbv zeta. rewrite hc_run_snoc.
    pose proof (@hc_reachable_inv mk t p ops Ht) as Hinv.
    destruct (@hc_run_frame ops (hc_create mk t p)) as [Hmk _].
    cbn [hc_create max_key] in Hmk.
    rewrite inserted_app in Hnd, Hr |- *.
    set (idx := hc_run ops (hc_create mk t p)) in *.
    destruct op as [k v | k | lo hi]; cbn [inserted hc_step] in *.
    + (* hc_insert *)
      rewrite map_app in Hnd. cbn [map fst] in Hnd.
      apply NoDup_remove in Hnd. rewrite app_nil_r in Hnd.
      destruct Hnd as [Hnd Hnot].
      destruct IH as [IH1 IH2]; auto.
      { intros k' Hk'. apply Hr. rewrite map_app. apply in_or_app. auto. }
      assert (Hkr : (0 <= k <= mk)%Z).
      { apply Hr. rewrite map_app. apply in_or_app. right. left.
        reflexivity. }
      unfold hc_insert. rewrite Hmk.
      replace ((k <? 0)%Z || (k >? mk)%Z) with false by lia.
      cbn [fst set_cold hot cold].
      destruct Hinv as (_ & Hc & _).
      destruct (@bt_insert_fresh _ k v Hc) as [_ H2].
      { unfold tree_keys. rewrite IH1. exact Hnot. }
      split.
      * rewrite H2, IH1. apply Permutation_cons_append.
      * intros e He. apply IH2 in He.
        apply (Permutation_in e (Permutation_sym H2)). right. exact He.
    + (* hc_search *)
      rewrite app_nil_r in *. destruct IH as [IH1 IH2]; auto.
      destruct (hc_search_trees idx k) as (_ & _ & Ec & Eh).
      rewrite Ec. split; [exact IH1|].
      destruct Eh as [-> | (_ & -> & _ & _ & Hv)]; [exact IH2|].
      destruct (maybe_promote_cases idx k) as [-> | (_ & _ & _ & _ & ->)];
        [exact IH2|].
      cbn [hot set_hot]. destruct Hinv as (Hh & Hc & _).
      destruct (bt_insert_ok k (fst (bt_search (cold idx) k (Some stats0)))
                  Hh) as (_ & _ & _ & I2 & _).
      intros e He. apply I2 in He. destruct He as [<-|He]; [|apply IH2, He].
      apply bt_search_found; auto.
    + (* hc_range_search *)
      rewrite app_nil_r in *. destruct IH as [IH1 IH2]; auto.
      destruct (hc_range_search_frame idx lo hi emit_log [])
        as (-> & -> & _).
      split; assumption.
Qed.

(** C4.  After inserts of pairwise distinct keys into an empty tree,
    [bt_search] returns the inserted payload of every inserted key and
    [NULL] for every other key, and [bt_count_keys] is the number of
    inserts.  The same holds for the index: after calls among which the
    [hc_insert] calls have pairwise distinct keys within [[0, max_key]],
    in any interleaving with searches and range searches, [hc_search]
    returns the inserted payload of every inserted key and [NULL] for
    every other key, and the cold tree counts the inserts. *)
Theorem search_after_distinct_inserts (t : nat)
        (kvs : list (BTKey * BTPayload)) :
  2 <= t -> NoDup (map fst kvs) ->
  let tr := bt_insert_all (bt_create t) kvs in
  (forall k v st, In (k, v) kvs -> fst (bt_search tr k st) = v) /\
  (forall k st, ~ In k (map fst kvs) -> fst (bt_search tr k st) = NULL) /\
  bt_count_keys tr = length kvs /\
  (forall mk p ops,
      inserted ops = kvs ->
      (forall k, In k (map fst kvs) -> (0 <= k <= mk)%Z) ->
      let idx := hc_run ops (hc_create mk t p) in
      (forall k v, In (k, v) kvs -> fst (hc_search idx k) = v) /\
      (forall k, ~ In k (map fst kvs) -> fst (hc_search idx k) = NULL) /\
      bt_count_keys (cold idx) = length kvs).
Proof.
  intros Ht Hnd. cbv zeta.
  destruct (bt_insert_all_distinct kvs Ht Hnd) as [Hinv Hperm].
  split; [|split; [|split]].
  - intros k v st. apply (bt_search_distinct st Hinv Hperm Hnd).
  - intros k st. apply (bt_search_distinct st Hinv Hperm Hnd).
  - rewrite (bt_count_keys_entries Hinv). apply Permutation_length, Hperm.
  - intros mk p ops Eins Hr. subst kvs.
    destruct (@distinct_run_inv t mk p ops Ht Hnd Hr) as [Hc Hh].
    pose proof (@hc_reachable_inv mk t p ops Ht) as (Ih & Ic & Inn & _).
    set (idx := hc_run ops (hc_create mk t p)) in *.
    destruct (bt_search_distinct (Some stats0) Ic Hc Hnd) as [C1 C2].
    split; [|split].
    + intros k v Hin. rewrite hc_search_result.
      destruct (fst (bt_search (hot idx) k (Some stats0)) =? NULL)%Z eqn:E.
      * apply C1, Hin.
      * assert (Hf : In (k, fst (bt_search (hot idx) k (Some stats0)))
                        (tree_entries (hot idx)))
          by (apply bt_search_found; auto; lia).
        apply Hh in Hf. rewrite Hc in Hf.
        eapply NoDup_keys_functional; [exact Hnd|exact Hf|exact Hin].
    + intros k Hnot. rewrite hc_search_result.
      destruct (fst (bt_search (hot idx) k (Some stats0)) =? NULL)%Z eqn:E.
      * apply C2, Hnot.
      * exfalso. apply Hnot.
        assert (Hf : In (k, fst (bt_search (hot idx) k (Some stats0)))
                        (tree_entries (hot idx)))
          by (apply bt_search_found; auto; lia).
        apply Hh in Hf. rewrite Hc in Hf.
        apply (in_map fst) in Hf. exact Hf.
    + rewrite (bt_count_keys_entries Ic). apply Permutation_length, Hc.
Qed.

Lemma search_after_distinct_inserts_witness :
  let kvs := [(5, 50); (3, 30); (8, 80); (1, 10); (9, 90)]%Z in
  let tr := bt_insert_all (bt_create 2) kvs in
  let idx := hc_run [OpInsert 5 50; OpInsert 3 30; OpSearch 3; OpInsert 8 80;
                     OpRange 0 9; OpInsert 1 10; OpSearch 3; OpInsert 9 90]
                    (hc_create 9 2 params_full) in
  fst (bt_search tr 8 None) = 80%Z /\
  fst (bt_search tr 4 None) = NULL /\
  bt_count_keys tr = 5 /\
  fst (hc_search idx 3) = 30%Z /\
  fst (hc_search idx 4) = NULL /\
  bt_count_keys (cold idx) = 5.
Proof.
  intros kvs tr idx.
  assert (Hnd : NoDup (map fst kvs)).
  { unfold kvs. simpl. repeat constructor; simpl; lia. }
  destruct (@search_after_distinct_inserts 2 kvs (le_n 2) Hnd)
    as (H1 & H2 & H3 & H4).
  assert (Hr : forall k, In k (map fst kvs) -> (0 <= k <= 9)%Z).
  { unfold kvs. simpl. intros k Hk. lia. }
  destruct (H4 9%Z params_full
              [OpInsert 5 50; OpInsert 3 30; OpSearch 3; OpInsert 8 80;
               OpRange 0 9; OpInsert 1 10; OpSearch 3; OpInsert 9 90]
              eq_refl Hr) as (H5 & H6 & H7).
  split; [apply H1; unfold kvs; simpl; auto|].
  split; [apply H2; unfold kvs; simpl; lia|].
  split; [exact H3|].
  split; [apply H5; unfold kvs; simpl; auto|].
  split; [apply H6; unfold kvs; simpl; lia|exact H7].
Defined.

(** ** Range search on the index *)

Lemma hc_range_cb_cold_hot (A : Type) :
  @hc_range_cb_cold A = @hc_range_cb_hot A.
Proof. reflexivity. Qed.

Lemma hc_range_cb_step mk k v ctx :
  seen_inv mk ctx ->
  let ctx' := hc_range_cb_hot k v ctx in
  seen_inv mk ctx' /\
  (exists l, user_arg ctx' = user_arg ctx ++ l /\ incl l [(k, v)]) /\
  ((0 <= k <= mk)%Z -> In k (map fst (user_arg ctx'))).
Proof.
  intros (Hcb & Hmk & Hlen & Hnd & Hseen). cbv zeta.
  unfold hc_range_cb_hot. rewrite Hmk.
  destruct ((k <? 0)%Z || (k >? mk)%Z) eqn:Er.
  { split; [repeat split; auto; apply Hseen; auto|].
    split; [|lia]. exists []. rewrite app_nil_r. split; auto.
    intros e []. }
  assert (Hk : (0 <= k <= mk)%Z) by lia.
  destruct (nth (Z.to_nat k) (seen ctx) 0 =? 0)%Z eqn:Es.
  - (* first emission of the key *)
    assert (Hnew : ~ In k (map fst (user_arg ctx))).
    { intros Hin. apply Hseen in Hin; auto. lia. }
    rewrite Hcb. cbn [user_arg user_cb seen ctx_idx].
    change (emit_log k v (user_arg ctx)) with (user_arg ctx ++ [(k, v)]).
    split; [|split].
    + unfold seen_inv. cbn [user_arg user_cb seen ctx_idx].
      split; [reflexivity|]. split; [exact Hmk|].
      split; [rewrite array_set_length; lia|].
      rewrite map_app. cbn [map fst]. split.
      * apply (Permutation_NoDup (Permutation_cons_append _ k)).
        constructor; assumption.
      * intros k' Hk'. destruct (Z.eq_dec k' k) as [->|Hne].
        -- rewrite nth_array_set_eq by lia. split; [|lia].
           intros _. apply in_or_app. right. left. reflexivity.
        -- rewrite nth_array_set_neq by lia. rewrite Hseen by auto.
           split; intros H.
           ++ apply in_or_app. left. exact H.
           ++ apply in_app_or in H. destruct H as [H|[H|[]]]; auto.
              congruence.
    + exists [(k, v)]. split; [reflexivity|apply incl_refl].
    + intros _. rewrite map_app. apply in_or_app. right. left. reflexivity.
  - split; [repeat split; auto; apply Hseen; auto|].
    split.
    + exists []. rewrite app_nil_r. split; auto. intros e [].
    + intros _. apply Hseen; auto. lia.
Qed.

Lemma hc_range_cb_feed mk l : forall ctx,
  seen_inv mk ctx ->
  let ctx' := feed (@hc_range_cb_hot _) ctx l in
  seen_inv mk ctx' /\
  (exists l', user_arg ctx' = user_arg ctx ++ l' /\ incl l' l) /\
  (forall e, In e l -> (0 <= fst e <= mk)%Z ->
             In (fst e) (map fst (user_arg ctx'))).
Proof.
  induction l as [|[k v] l IH]; intros ctx Hinv; cbv zeta.
  - split; [exact Hinv|]. split.
    + exists []. rewrite app_nil_r. split; auto. apply incl_refl.
    + intros e [].
  - change (feed (@hc_range_cb_hot _) ctx ((k, v) :: l))
      with (feed (@hc_range_cb_hot _) (hc_range_cb_hot k v ctx) l).
    destruct (hc_range_cb_step k v Hinv) as (H1 & (l1 & E1 & I1) & H3).
    destruct (IH _ H1) as (J1 & (l2 & E2 & I2) & J3).
    split; [exact J1|]. split.
    + exists (l1 ++ l2). rewrite E2, E1, <- app_assoc. split; auto.
      intros e He. apply in_app_or in He. destruct He as [He|He].
      * apply I1 in He. destruct He as [<-|[]]. left. reflexivity.
      * right. apply I2, He.
    + intros e [<-|He] Hr.
      * rewrite E2, map_app. apply in_or_app. left. apply H3, Hr.
      * apply J3; auto.
Qed.

(** C5.  On every index that calls of the interface have built,
    [hc_range_search] passes to the callback no key twice, passes every
    key of the hot tree or of the cold tree that lies in [[lo, hi]], and
    passes only pairs stored in one of the two trees with a key in
    [[lo, hi]]. *)
Theorem hc_range_search_dedup (t : nat) (mk : Z) (p : HCParams)
        (ops : list hc_op) (lo hi : BTKey) :
  2 <= t ->
  let idx := hc_run ops (hc_create mk t p) in
  let out := fst (hc_range_search idx lo hi emit_log []) in
  NoDup (map fst out) /\
  (forall k, In k (tree_keys (hot idx)) \/ In k (tree_keys (cold idx)) ->
             (lo <= k <= hi)%Z -> In k (map fst out)) /\
  (forall e, In e out ->
             (In e (tree_entries (hot idx)) \/
              In e (tree_entries (cold idx))) /\ (lo <= fst e <= hi)%Z).
Proof.
  intros Ht. cbv zeta.
  pose proof (@hc_reachable_inv mk t p ops Ht) as (Ih & Ic & Ihr & Icr & _).
  destruct (@hc_run_frame ops (hc_create mk t p)) as [Hmk _].
  cbn [hc_create max_key] in Hmk.
  set (idx := hc_run ops (hc_create mk t p)) in *.
  unfold hc_range_search.
  destruct (bt_range_search lo hi (@hc_range_cb_hot _) (hot idx) _ _)
    as [ctx1 s1] eqn:E1.
  destruct (bt_range_search lo hi (@hc_range_cb_cold _) (cold idx) ctx1 _)
    as [ctx2 s2] eqn:E2.
  cbn [fst].
  apply (f_equal fst) in E1, E2. cbn [fst] in E1, E2.
  unfold bt_range_search in E1, E2.
  rewrite bt_range_node_feed in E1, E2.
  rewrite hc_range_cb_cold_hot in E2.
  set (ctx0 := mkHCRangeCtx emit_log [] (repeat 0%Z (Z.to_nat (max_key idx + 1)))
                            idx) in *.
  assert (H0 : seen_inv mk ctx0).
  { unfold seen_inv, ctx0. cbn [user_cb user_arg seen ctx_idx].
    rewrite Hmk. split; [reflexivity|]. split; [reflexivity|].
    split; [apply repeat_length|]. split; [constructor|].
    intros k Hk. split.
    - intros Hn. exfalso. apply Hn. apply nth_repeat.
    - intros []. }
  destruct (hc_range_cb_feed (range_out lo hi (root (hot idx))) H0)
    as (H1 & (l1 & A1 & B1) & C1).
  rewrite E1 in H1, A1, C1.
  destruct (hc_range_cb_feed (range_out lo hi (root (cold idx))) H1)
    as (H2 & (l2 & A2 & B2) & C2).
  rewrite E2 in H2, A2, C2.
  cbn [user_arg ctx0] in A1. cbn [app] in A1.
  destruct Ih as (_ & Wh & Sh). destruct Ic as (_ & Wc & Sc).
  split; [apply H2|]. split.
  - intros k Hk Hr. destruct Hk as [Hk|Hk].
    + apply in_map_iff in Hk. destruct Hk as (e & <- & He).
      rewrite A2, map_app. apply in_or_app. left.
      apply C1.
      * eapply range_out_complete; eauto.
      * rewrite <- Hmk. apply Ihr, He.
    + apply in_map_iff in Hk. destruct Hk as (e & <- & He).
      apply C2.
      * eapply range_out_complete; eauto.
      * rewrite <- Hmk. apply Icr, He.
  - intros e He. rewrite A2, A1 in He. apply in_app_or in He.
    destruct He as [He|He].
    + apply B1 in He. destruct (@range_out_sound lo hi _ _ Wh _ He). auto.
    + apply B2 in He. destruct (@range_out_sound lo hi _ _ Wc _ He). auto.
Qed.

Lemma hc_range_search_dedup_witness :
  let ops := [OpInsert 0 100; OpInsert 1 101; OpInsert 2 102; OpInsert 3 103;
              OpInsert 4 104; OpInsert 5 105; OpInsert 6 106; OpInsert 7 107;
              OpInsert 8 108; OpInsert 9 109; OpSearch 3; OpSearch 7] in
  let idx := hc_run ops (hc_create 9 2 params_full) in
  let out := fst (hc_range_search idx 2 8 emit_log []) in
  tree_keys (hot idx) = [3; 7]%Z /\
  out = [(3, 103); (7, 107); (2, 102); (4, 104); (5, 105); (6, 106);
         (8, 108)]%Z /\
  NoDup (map fst out).
Proof.
  intros ops idx out.
  pose proof (@hc_range_search_dedup 2 9%Z params_full ops 2%Z 8%Z (le_n 2))
    as (Hnd & _ & _).
  split; [vm_compute; reflexivity|].
  split; [vm_compute; reflexivity|].
  exact Hnd.
Defined.

(** ** Score update and promotion on a cold hit *)

(** A key for which the search in the hot tree returns [NULL] is not a key
    of the hot tree, whose payloads are never [NULL]. *)
Lemma hot_miss_not_key idx k st :
  hc_inv idx -> fst (bt_search (hot idx) k st) = NULL ->
  ~ In k (tree_keys (hot idx)).
Proof.
  intros (Hh & _ & Hn & _) Hv Hin.
  destruct (bt_search_spec k st Hh) as [H1 _].
  specialize (H1 Hin). rewrite Hv in H1.
  destruct (Hn _ H1) as [Hne _]. apply Hne. reflexivity.
Qed.

(** The hot tree after a promotion. *)
Lemma promoted_hot idx k v :
  hc_inv idx -> ~ In k (tree_keys (hot idx)) ->
  let h := bt_insert (hot idx) k v in
  Permutation (tree_entries h) ((k, v) :: tree_entries (hot idx)) /\
  bt_count_keys h = S (bt_count_keys (hot idx)) /\
  forall st, fst (bt_search h k st) = v.
Proof.
  intros Hinv Hfresh. cbv zeta. destruct Hinv as (Hh & _).
  destruct (@bt_insert_fresh (hot idx) k v Hh Hfresh) as [I1 I2].
  split; [exact I2|]. split.
  - rewrite (bt_count_keys_entries I1), (bt_count_keys_entries Hh).
    rewrite (Permutation_length I2). reflexivity.
  - intros st. destruct (bt_search_spec k st I1) as [H1 _].
    assert (Hk : In k (tree_keys (bt_insert (hot idx) k v))).
    { unfold tree_keys. rewrite I2. left. reflexivity. }
    specialize (H1 Hk). rewrite I2 in H1.
    destruct H1 as [E|H1]; [congruence|].
    exfalso. apply Hfresh. apply (in_map fst) in H1. exact H1.
Qed.

(** C8.  On an index built by calls of the interface, in inclusive mode,
    for a key [k] of [[0, max_key]] that the cold tree finds and the hot
    tree does not, [hc_search] returns the cold payload, stores
    [decay_alpha * score[k] + 1.0] in [score[k]] and leaves the cold tree
    as it is.  When the new score is [>= hot_threshold] and the capacity
    test finds the hot tree below capacity, the hot tree gains exactly the
    pair of [k] with the cold payload; otherwise the hot tree is
    unchanged. *)
Theorem cold_hit_score_and_promotion (t : nat) (mk : Z) (p : HCParams)
        (ops : list hc_op) (k : BTKey) :
  2 <= t ->
  let idx := hc_run ops (hc_create mk t p) in
  let vc := fst (bt_search (cold idx) k (Some stats0)) in
  inclusive p <> 0%Z -> (0 <= k <= mk)%Z ->
  fst (bt_search (hot idx) k (Some stats0)) = NULL -> vc <> NULL ->
  let new_score :=
    d_add (d_mul (decay_alpha p) (nth (Z.to_nat k) (hit_score idx) d_zero))
          d_one in
  let idx' := snd (hc_search idx k) in
  fst (hc_search idx k) = vc /\
  nth (Z.to_nat k) (hit_score idx') d_zero = new_score /\
  cold idx' = cold idx /\
  (if d_ge new_score (hot_threshold p) &&
      negb (hot_full idx (bt_count_keys (hot idx)))
   then Permutation (tree_entries (hot idx'))
                    ((k, vc) :: tree_entries (hot idx)) /\
        bt_count_keys (hot idx') = S (bt_count_keys (hot idx)) /\
        fst (bt_search (hot idx') k (Some stats0)) = vc
   else hot idx' = hot idx).
Proof.
  intros Ht. cbv zeta. intros Hincl Hk Hh Hc.
  pose proof (@hc_reachable_inv mk t p ops Ht) as Hinv.
  destruct (@hc_run_frame ops (hc_create mk t p)) as [Hmk Hp].
  cbn [hc_create max_key params] in Hmk, Hp.
  set (idx := hc_run ops (hc_create mk t p)) in *.
  assert (Hlen : length (hit_score idx) = Z.to_nat (mk + 1)).
  { rewrite <- Hmk. apply Hinv. }
  assert (Hnext : d_add (d_mul (decay_alpha p)
                    (nth (Z.to_nat k) (hit_score idx) d_zero)) d_one =
                  next_score idx k).
  { unfold next_score. rewrite Hp. reflexivity. }
  rewrite Hnext. rewrite <- Hp.
  assert (Hr : in_key_range idx k = true).
  { unfold in_key_range. rewrite Hmk. lia. }
  destruct (hc_search_cases idx k)
    as [(H1 & _) | [(H1 & H2 & E) | (H1 & H2 & _)]]; try contradiction.
  rewrite E. rewrite Hr. cbn [fst snd andb].
  set (idx1 := store_score _ k (next_score idx k)).
  assert (Hscore : nth (Z.to_nat k) (hit_score idx1) d_zero
                   = next_score idx k).
  { unfold idx1, store_score. cbn [hit_score set_hit_score set_stats].
    apply nth_array_set_eq. lia. }
  split; [reflexivity|].
  destruct (d_ge (next_score idx k) (hot_threshold (params idx))) eqn:Eg;
    cbn [andb].
  2:{ split; [exact Hscore|]. split; reflexivity. }
  destruct (maybe_promote_frame idx1 k) as (F1 & _ & _ & F4 & _).
  rewrite F4, F1.
  split; [exact Hscore|]. split; [reflexivity|].
  rewrite (@maybe_promote_ext idx idx1 k) by reflexivity.
  destruct (maybe_promote_cases idx k) as [Em | (_ & Hf & _ & _ & Em)].
  - (* no promotion: the hot tree was at capacity *)
    assert (Hfull : hot_full idx (bt_count_keys (hot idx)) = true).
    { revert Em. unfold maybe_promote.
      replace (inclusive (params idx) =? 0)%Z with false
        by (rewrite Hp; lia).
      destruct (hot_full idx (bt_count_keys (hot idx))); [reflexivity|].
      rewrite Hh. cbn [negb Z.eqb NULL].
      replace (fst (bt_search (cold idx) k (Some stats0)) =? NULL)%Z
        with false by lia.
      intros Em. exfalso.
      apply (f_equal (fun i => bt_count_keys (hot i))) in Em.
      cbn [hot set_hot] in Em.
      destruct (@promoted_hot idx k
                  (fst (bt_search (cold idx) k (Some stats0))) Hinv)
        as (_ & Hcount & _).
      { eapply hot_miss_not_key; eauto. }
      lia. }
    rewrite Hfull, Em. reflexivity.
  - rewrite Hf, Em. cbn [negb hot set_hot].
    destruct (@promoted_hot idx k
                (fst (bt_search (cold idx) k (Some stats0))) Hinv)
      as (P1 & P2 & P3).
    { eapply hot_miss_not_key; eauto. }
    split; [exact P1|]. split; [exact P2|apply P3].
Qed.

Lemma cold_hit_score_and_promotion_witness :
  let ops := [OpInsert 4 44; OpInsert 6 66] in
  let idx := hc_run ops (hc_create 9 2 params_full) in
  let idx' := snd (hc_search idx 4) in
  fst (hc_search idx 4) = 44%Z /\
  nth 4 (hit_score idx') d_zero = d_one /\
  tree_entries (hot idx) = [] /\
  Permutation (tree_entries (hot idx')) [(4, 44)]%Z.
Proof.
  intros ops idx idx'.
  assert (H1 : inclusive params_full <> 0%Z) by (cbn; lia).
  assert (H2 : (0 <= 4 <= 9)%Z) by lia.
  assert (H3 : fst (bt_search (hot idx) 4 (Some stats0)) = NULL)
    by (vm_compute; reflexivity).
  assert (H4 : fst (bt_search (cold idx) 4 (Some stats0)) <> NULL)
    by (vm_compute; discriminate).
  pose proof (@cold_hit_score_and_promotion 2 9%Z params_full ops 4%Z
                (le_n 2) H1 H2 H3 H4) as (_ & _ & _ & R4).
  vm_compute in R4. destruct R4 as (R4 & _ & _).
  split; [vm_compute; reflexivity|]. split; [vm_compute; reflexivity|].
  split; [vm_compute; reflexivity|].
  vm_compute. exact R4.
Defined.

(** ** A key bound to the [NULL] payload *)

Lemma null_bound_cold_search k idx st :
  null_bound k idx -> fst (bt_search (cold idx) k st) = NULL.
Proof.
  intros ((_ & Hc & _) & Hnull & _).
  destruct (Z.eq_dec (fst (bt_search (cold idx) k st)) NULL) as [E|Hne];
    [exact E|].
  apply Hnull. apply bt_search_found; auto.
Qed.

Lemma null_bound_hot_search k idx st :
  null_bound k idx -> fst (bt_search (hot idx) k st) = NULL.
Proof.
  intros ((Hh & _) & _ & Hnot).
  apply (bt_search_spec k st Hh). exact Hnot.
Qed.

Lemma null_bound_step k idx op :
  null_bound k idx -> no_insert_of k [op] -> null_bound k (hc_step idx op).
Proof.
  intros Hnb Hop. pose proof Hnb as (Hinv & Hnull & Hnot).
  split; [apply hc_step_inv, Hinv|].
  destruct op as [k' v' | q | lo hi]; cbn [hc_step].
  - (* hc_insert of another key *)
    assert (Hne : k' <> k).
    { intros ->. apply Hop. left. reflexivity. }
    unfold hc_insert.
    destruct ((k' <? 0)%Z || (k' >? max_key idx)%Z); cbn [fst];
      [split; assumption|].
    cbn [cold hot set_cold]. split; [|exact Hnot].
    destruct Hinv as (_ & Hc & _).
    destruct (bt_insert_ok k' v' Hc) as (_ & _ & _ & I2 & _).
    intros v Hv. apply I2 in Hv. destruct Hv as [E|Hv]; [congruence|].
    apply Hnull, Hv.
  - (* hc_search *)
    destruct (hc_search_trees idx q) as (_ & _ & Ec & Eh).
    rewrite Ec. split; [exact Hnull|].
    destruct Eh as [-> | (_ & -> & _ & _ & Hv)]; [exact Hnot|].
    destruct (maybe_promote_cases idx q) as [-> | (_ & _ & _ & _ & ->)];
      [exact Hnot|].
    cbn [hot set_hot].
    assert (Hne : q <> k).
    { intros ->. apply Hv. apply null_bound_cold_search. exact Hnb. }
    destruct Hinv as (Hh & _).
    destruct (bt_insert_ok q (fst (bt_search (cold idx) q (Some stats0)))
                Hh) as (_ & _ & _ & I2 & _).
    intros Hin. apply in_map_iff in Hin. destruct Hin as ([k0 v0] & E & Hin).
    cbn [fst] in E. subst k0. apply I2 in Hin.
    destruct Hin as [E|Hin]; [congruence|].
    apply Hnot. apply (in_map fst) in Hin. exact Hin.
  - (* hc_range_search *)
    destruct (hc_range_search_frame idx lo hi emit_log [])
      as (-> & -> & _).
    split; assumption.
Qed.

Lemma null_bound_run k ops : forall idx,
  null_bound k idx -> no_insert_of k ops -> null_bound k (hc_run ops idx).
Proof.
  induction ops as [|op ops IH]; intros idx Hnb Hops; [exact Hnb|].
  cbn [hc_run fold_left]. apply IH.
  - apply null_bound_step; auto.
    intros Hin. apply Hops. unfold no_insert_of in *.
    change (op :: ops) with ([op] ++ ops).
    rewrite inserted_app, map_app. apply in_or_app. left. exact Hin.
  - intros Hin. apply Hops.
    change (op :: ops) with ([op] ++ ops).
    rewrite inserted_app, map_app. apply in_or_app. right. exact Hin.
Qed.

(** What [hc_range_search] passes to the callback, on an index in the
    state that the calls keep. *)
Lemma hc_range_search_out idx lo hi :
  hc_inv idx ->
  let out := fst (hc_range_search idx lo hi emit_log []) in
  (forall k, In k (tree_keys (hot idx)) \/ In k (tree_keys (cold idx)) ->
             (lo <= k <= hi)%Z -> In k (map fst out)) /\
  (forall e, In e out ->
             (In e (tree_entries (hot idx)) \/
              In e (tree_entries (cold idx))) /\ (lo <= fst e <= hi)%Z).
Proof.
  intros (Ih & Ic & Ihr & Icr & _). cbv zeta.
  unfold hc_range_search.
  destruct (bt_range_search lo hi (@hc_range_cb_hot _) (hot idx) _ _)
    as [ctx1 s1] eqn:E1.
  destruct (bt_range_search lo hi (@hc_range_cb_cold _) (cold idx) ctx1 _)
    as [ctx2 s2] eqn:E2.
  cbn [fst].
  apply (f_equal fst) in E1, E2. cbn [fst] in E1, E2.
  unfold bt_range_search in E1, E2.
  rewrite bt_range_node_feed in E1, E2.
  rewrite hc_range_cb_cold_hot in E2.
  set (ctx0 := mkHCRangeCtx emit_log []
                 (repeat 0%Z (Z.to_nat (max_key idx + 1))) idx) in *.
  assert (H0 : seen_inv (max_key idx) ctx0).
  { unfold seen_inv, ctx0. cbn [user_cb user_arg seen ctx_idx].
    split; [reflexivity|]. split; [reflexivity|].
    split; [apply repeat_length|]. split; [constructor|].
    intros k Hk. split.
    - intros Hn. exfalso. apply Hn. apply nth_repeat.
    - intros []. }
  destruct (hc_range_cb_feed (range_out lo hi (root (hot idx))) H0)
    as (H1 & (l1 & A1 & B1) & C1).
  rewrite E1 in H1, A1, C1.
  destruct (hc_range_cb_feed (range_out lo hi (root (cold idx))) H1)
    as (H2 & (l2 & A2 & B2) & C2).
  rewrite E2 in H2, A2, C2.
  cbn [user_arg ctx0] in A1. cbn [app] in A1.
  destruct Ih as (_ & Wh & Sh). destruct Ic as (_ & Wc & Sc).
  split.
  - intros k Hk Hr. destruct Hk as [Hk|Hk].
    + apply in_map_iff in Hk. destruct Hk as (e & <- & He).
      rewrite A2, map_app. apply in_or_app. left.
      apply C1.
      * eapply range_out_complete; eauto.
      * apply Ihr, He.
    + apply in_map_iff in Hk. destruct Hk as (e & <- & He).
      apply C2.
      * eapply range_out_complete; eauto.
      * apply Icr, He.
  - intros e He. rewrite A2, A1 in He. apply in_app_or in He.
    destruct He as [He|He].
    + apply B1 in He. destruct (@range_out_sound lo hi _ _ Wh _ He). auto.
    + apply B2 in He. destruct (@range_out_sound lo hi _ _ Wc _ He). auto.
Qed.

(** A key that neither tree holds is in neither tree after calls that do
    not insert it. *)
Lemma absent_step k idx op :
  hc_inv idx ->
  ~ In k (tree_keys (cold idx)) -> ~ In k (tree_keys (hot idx)) ->
  no_insert_of k [op] ->
  ~ In k (tree_keys (cold (hc_step idx op))) /\
  ~ In k (tree_keys (hot (hc_step idx op))).
Proof.
  intros Hinv Hc Hh Hop.
  destruct op as [k' v' | q | lo hi]; cbn [hc_step].
  - assert (Hne : k' <> k).
    { intros ->. apply Hop. left. reflexivity. }
    unfold hc_insert.
    destruct ((k' <? 0)%Z || (k' >? max_key idx)%Z); cbn [fst];
      [split; assumption|].
    cbn [cold hot set_cold]. split; [|exact Hh].
    destruct Hinv as (_ & Ic & _).
    destruct (bt_insert_ok k' v' Ic) as (_ & _ & _ & I2 & _).
    intros Hin. apply in_map_iff in Hin. destruct Hin as ([k0 v0] & E & Hin).
    cbn [fst] in E. subst k0. apply I2 in Hin.
    destruct Hin as [E|Hin]; [congruence|].
    apply Hc. apply (in_map fst) in Hin. exact Hin.
  - destruct (hc_search_trees idx q) as (_ & _ & Ec & Eh).
    rewrite Ec. split; [exact Hc|].
    destruct Eh as [-> | (_ & -> & _ & _ & Hv)]; [exact Hh|].
    destruct (maybe_promote_cases idx q) as [-> | (_ & _ & _ & _ & ->)];
      [exact Hh|].
    cbn [hot set_hot].
    assert (Hne : q <> k).
    { intros ->. apply Hc.
      pose proof (bt_search_found k (Some stats0) (proj1 (proj2 Hinv)) Hv)
        as Hin.
      apply (in_map fst) in Hin. exact Hin. }
    destruct Hinv as (Ih & _).
    destruct (bt_insert_ok q (fst (bt_search (cold idx) q (Some stats0)))
                Ih) as (_ & _ & _ & I2 & _).
    intros Hin. apply in_map_iff in Hin. destruct Hin as ([k0 v0] & E & Hin).
    cbn [fst] in E. subst k0. apply I2 in Hin.
    destruct Hin as [E|Hin]; [congruence|].
    apply Hh. apply (in_map fst) in Hin. exact Hin.
  - destruct (hc_range_search_frame idx lo hi emit_log [])
      as (-> & -> & _).
    split; assumption.
Qed.

Lemma absent_run k ops : forall idx,
  hc_inv idx ->
  ~ In k (tree_keys (cold idx)) -> ~ In k (tree_keys (hot idx)) ->
  no_insert_of k ops ->
  ~ In k (tree_keys (cold (hc_run ops idx))) /\
  ~ In k (tree_keys (hot (hc_run ops idx))).
Proof.
  induction ops as [|op ops IH]; intros idx Hinv Hc Hh Hops;
    [split; assumption|].
  cbn [hc_run fold_left].
  assert (H1 : no_insert_of k [op]).
  { intros Hin. apply Hops. unfold no_insert_of in *.
    change (op :: ops) with ([op] ++ ops).
    rewrite inserted_app, map_app. apply in_or_app. left. exact Hin. }
  assert (H2 : no_insert_of k ops).
  { intros Hin. apply Hops.
    change (op :: ops) with ([op] ++ ops).
    rewrite inserted_app, map_app. apply in_or_app. right. exact Hin. }
  destruct (absent_step Hinv Hc Hh H1) as [Hc1 Hh1].
  apply IH; auto. apply hc_step_inv, Hinv.
Qed.

(** The cold tree after calls whose inserts are of pairwise distinct keys
    that it did not hold. *)
Lemma cold_fresh_run ops : forall idx,
  hc_inv idx -> NoDup (map fst (inserted ops)) ->
  (forall k, In k (map fst (inserted ops)) ->
             ~ In k (tree_keys (cold idx))) ->
  Permutation (tree_entries (cold (hc_run ops idx)))
              (accepted (max_key idx) (inserted ops) ++
               tree_entries (cold idx)).
Proof.
  induction ops as [|op ops IH]; intros idx Hinv Hnd Hfresh;
    [apply Permutation_refl|].
  cbn [hc_run fold_left]. fold (hc_run ops (hc_step idx op)).
  destruct (hc_step_frame idx op) as [Hmk _].
  destruct op as [k v | q | lo hi]; cbn [inserted] in Hnd, Hfresh |- *.
  - cbn [map fst] in Hnd, Hfresh. inversion Hnd as [|? ? Hk Hnd']; subst.
    cbn [hc_step] in *. unfold hc_insert in *. unfold accepted.
    cbn [filter fst]. fold (accepted (max_key idx) (inserted ops)).
    destruct ((k <? 0)%Z || (k >? max_key idx)%Z) eqn:Er;
      cbn [fst negb] in *.
    + apply IH; auto. intros k' Hk'. apply Hfresh. right. exact Hk'.
    + pose proof Hinv as (_ & Ic & _).
      destruct (@bt_insert_fresh (cold idx) k v Ic) as [_ P].
      { apply Hfresh. left. reflexivity. }
      assert (Hinv1 : hc_inv (set_cold idx (bt_insert (cold idx) k v))).
      { pose proof (hc_insert_inv k v Hinv) as H. unfold hc_insert in H.
        rewrite Er in H. exact H. }
      rewrite (IH _ Hinv1 Hnd').
      * cbn [max_key set_cold cold]. cbn [app].
        rewrite P. apply Permutation_sym, Permutation_middle.
      * intros k' Hk'. cbn [cold set_cold]. intros Hin.
        unfold tree_keys in Hin. rewrite P in Hin. cbn [map fst] in Hin.
        destruct Hin as [E|Hin]; [subst k'; contradiction|].
        apply (Hfresh k'); [right; exact Hk'|exact Hin].
  - rewrite (IH _ (hc_step_inv (OpSearch q) Hinv) Hnd).
    + rewrite Hmk. cbn [hc_step].
      destruct (hc_search_trees idx q) as (_ & _ & -> & _).
      apply Permutation_refl.
    + intros k' Hk'. cbn [hc_step].
      destruct (hc_search_trees idx q) as (_ & _ & -> & _).
      apply Hfresh, Hk'.
  - rewrite (IH _ (hc_step_inv (OpRange lo hi) Hinv) Hnd).
    + rewrite Hmk. cbn [hc_step].
      destruct (hc_range_search_frame idx lo hi emit_log [])
        as (_ & -> & _).
      apply Permutation_refl.
    + intros k' Hk'. cbn [hc_step].
      destruct (hc_range_search_frame idx lo hi emit_log [])
        as (_ & -> & _).
      apply Hfresh, Hk'.
Qed.

(** C10, as the code has it.  When a key [k] of [[0, max_key]] that neither
    tree holds is inserted with the payload [NULL], then after any further
    calls that do not insert [k] again, [hc_search(k)] returns [NULL],
    increments [not_found] and neither hit counter, leaves the hot tree
    as it is, and [k] is not a key of the hot tree.  The key is still told
    from one that was never inserted: when the further inserts are of
    pairwise distinct keys that the cold tree did not hold,
    [hc_range_search] over a range that contains [k] passes [(k, NULL)] to
    the callback, which it never does after the same calls without the
    insert of [k], and [hc_get_stats] reports one more in [cold_keys] than
    after those. *)
Theorem null_payload_search_absent (t : nat) (mk : Z) (p : HCParams)
        (ops ops' : list hc_op) (k : BTKey) :
  2 <= t -> (0 <= k <= mk)%Z ->
  let idx0 := hc_run ops (hc_create mk t p) in
  ~ In k (tree_keys (cold idx0)) -> ~ In k (tree_keys (hot idx0)) ->
  no_insert_of k ops' ->
  let idx := hc_run ops' (fst (hc_insert idx0 k NULL)) in
  let idx' := snd (hc_search idx k) in
  fst (hc_search idx k) = NULL /\
  not_found (stats idx') = (not_found (stats idx) + 1)%Z /\
  hot_hits (stats idx') = hot_hits (stats idx) /\
  cold_hits (stats idx') = cold_hits (stats idx) /\
  hot idx' = hot idx /\
  ~ In k (tree_keys (hot idx)) /\
  (NoDup (map fst (inserted ops')) ->
   (forall k', In k' (map fst (inserted ops')) ->
               ~ In k' (tree_keys (cold idx0))) ->
   let never := hc_run ops' idx0 in
   (forall lo hi,
       (lo <= k <= hi)%Z ->
       In (k, NULL) (fst (hc_range_search idx lo hi emit_log [])) /\
       ~ In k (map fst (fst (hc_range_search never lo hi emit_log [])))) /\
   cold_keys (hc_get_stats idx) = S (cold_keys (hc_get_stats never))).
Proof.
  intros Ht Hk. cbv zeta. intros Hc0 Hh0 Hops.
  pose proof (@hc_reachable_inv mk t p ops Ht) as Hinv0.
  destruct (@hc_run_frame ops (hc_create mk t p)) as [Hmk _].
  cbn [hc_create max_key] in Hmk.
  set (idx0 := hc_run ops (hc_create mk t p)) in *.
  assert (E1 : fst (hc_insert idx0 k NULL) =
               set_cold idx0 (bt_insert (cold idx0) k NULL)).
  { unfold hc_insert. rewrite Hmk.
    replace ((k <? 0)%Z || (k >? mk)%Z) with false by lia. reflexivity. }
  pose proof (hc_insert_inv k NULL Hinv0) as Hinv1.
  pose proof Hinv0 as (_ & Ic0 & _).
  destruct (@bt_insert_fresh (cold idx0) k NULL Ic0 Hc0) as [_ P1].
  assert (Hnb1 : null_bound k (fst (hc_insert idx0 k NULL))).
  { split; [exact Hinv1|]. rewrite E1.
    cbn [fst cold hot set_cold]. split; [|exact Hh0].
    intros v Hv. apply (Permutation_in _ P1) in Hv.
    destruct Hv as [E|Hv]; [congruence|].
    exfalso. apply Hc0. apply (in_map fst) in Hv. exact Hv. }
  pose proof (null_bound_run Hnb1 Hops) as Hnb.
  pose proof (hc_run_inv ops' Hinv1) as Hinv.
  pose proof (hc_run_inv ops' Hinv0) as HinvB.
  destruct (absent_run Hinv0 Hc0 Hh0 Hops) as [HcB HhB].
  set (idx1 := fst (hc_insert idx0 k NULL)) in *.
  set (idx := hc_run ops' idx1) in *.
  set (never := hc_run ops' idx0) in *.
  pose proof (@null_bound_hot_search k idx (Some stats0) Hnb) as Eh.
  pose proof (@null_bound_cold_search k idx (Some stats0) Hnb) as Ec.
  assert (Hs : fst (hc_search idx k) = NULL /\
               not_found (stats (snd (hc_search idx k))) =
               (not_found (stats idx) + 1)%Z /\
               hot_hits (stats (snd (hc_search idx k))) =
               hot_hits (stats idx) /\
               cold_hits (stats (snd (hc_search idx k))) =
               cold_hits (stats idx) /\
               hot (snd (hc_search idx k)) = hot idx).
  { destruct (hc_search_cases idx k)
      as [(H1 & _) | [(_ & H2 & _) | (_ & _ & E)]]; try contradiction.
    rewrite E. cbn. repeat split. }
  destruct Hs as (S1 & S2 & S3 & S4 & S5).
  repeat (split; [assumption|]).
  split; [apply Hnb|].
  intros Hnd Hfresh.
  assert (PA : Permutation (tree_entries (cold idx))
                 (accepted mk (inserted ops') ++
                  (k, NULL) :: tree_entries (cold idx0))).
  { unfold idx. rewrite (cold_fresh_run ops' Hinv1 Hnd).
    - rewrite E1. cbn [max_key cold set_cold].
      rewrite Hmk. apply Permutation_app_head. exact P1.
    - intros k' Hk'. rewrite E1. cbn [cold set_cold].
      unfold tree_keys. rewrite P1. cbn [map fst].
      intros [E|Hin]; [subst k'; apply Hops, Hk'|].
      apply (Hfresh k' Hk'), Hin. }
  assert (PB : Permutation (tree_entries (cold never))
                 (accepted mk (inserted ops') ++ tree_entries (cold idx0))).
  { unfold never. rewrite (cold_fresh_run ops' Hinv0 Hnd Hfresh).
    rewrite Hmk. apply Permutation_refl. }
  split.
  - intros lo hi Hr. split.
    + destruct (hc_range_search_out lo hi Hinv) as [Hall Honly].
      cbv zeta in Hall, Honly.
      assert (Hin : In k (map fst (fst (hc_range_search idx lo hi
                                          emit_log [])))).
      { apply Hall; [right|exact Hr].
        apply (in_map fst (tree_entries (cold idx)) (k, NULL)).
        apply (Permutation_in _ (Permutation_sym PA)).
        apply in_or_app. right. left. reflexivity. }
      apply in_map_iff in Hin. destruct Hin as ([k0 v0] & E & Hin).
      cbn [fst] in E. subst k0.
      destruct (Honly _ Hin) as [[Hst|Hst] _].
      * exfalso. destruct Hnb as (_ & _ & Hnot). apply Hnot.
        apply (in_map fst) in Hst. exact Hst.
      * destruct Hnb as (_ & Hnull & _).
        rewrite (Hnull v0 Hst) in Hin. exact Hin.
    + intros Hin.
      destruct (hc_range_search_out lo hi HinvB) as [_ Honly].
      cbv zeta in Honly.
      apply in_map_iff in Hin. destruct Hin as ([k0 v0] & E & Hin).
      cbn [fst] in E. subst k0.
      destruct (Honly _ Hin) as [[Hst|Hst] _];
        apply (in_map fst) in Hst; [apply HhB|apply HcB]; exact Hst.
  - unfold hc_get_stats. cbn [cold_keys].
    rewrite !bt_count_keys_entries by (apply Hinv || apply HinvB).
    rewrite (Permutation_length PA), (Permutation_length PB).
    rewrite !length_app. cbn [length]. lia.
Qed.

Lemma null_payload_search_absent_witness :
  let idx0 := hc_run [OpInsert 1 11] (hc_create 9 2 params_full) in
  let ops' := [OpSearch 3; OpInsert 5 55; OpSearch 3; OpRange 0 9] in
  let idx := hc_run ops' (fst (hc_insert idx0 3 NULL)) in
  fst (hc_search idx 3) = NULL /\
  not_found (stats (snd (hc_search idx 3))) = (not_found (stats idx) + 1)%Z /\
  ~ In 3%Z (tree_keys (hot idx)) /\
  In (3%Z, NULL) (fst (hc_range_search idx 0 9 emit_log [])) /\
  ~ In 3%Z (map fst (fst (hc_range_search (hc_run ops' idx0) 0 9
                            emit_log []))) /\
  cold_keys (hc_get_stats idx) = S (cold_keys (hc_get_stats (hc_run ops' idx0))).
Proof.
  intros idx0 ops' idx.
  assert (H1 : (0 <= 3 <= 9)%Z) by lia.
  assert (H2 : ~ In 3%Z (tree_keys (cold idx0))).
  { vm_compute. intros [H|[]]. discriminate. }
  assert (H3 : ~ In 3%Z (tree_keys (hot idx0))).
  { vm_compute. intros []. }
  assert (H4 : no_insert_of 3%Z ops').
  { unfold no_insert_of. simpl. intros [H|[]]. discriminate. }
  assert (H5 : NoDup (map fst (inserted ops'))).
  { simpl. constructor; [intros []|constructor]. }
  assert (H6 : forall k', In k' (map fst (inserted ops')) ->
                          ~ In k' (tree_keys (cold idx0))).
  { simpl. intros k' [<-|[]]. vm_compute. intros [H|[]]. discriminate. }
  destruct (@null_payload_search_absent 2 9%Z params_full [OpInsert 1 11]
              ops' 3%Z (le_n 2) H1 H2 H3 H4)
    as (R1 & R2 & _ & _ & _ & R6 & R7).
  destruct (R7 H5 H6) as [Ra Rb].
  destruct (Ra 0%Z 9%Z ltac:(lia)) as [Ra1 Ra2].
  split; [exact R1|]. split; [exact R2|]. split; [exact R6|].
  split; [exact Ra1|]. split; [exact Ra2|exact Rb].
Defined.

(** C10, as stated, fails: a key bound to [NULL] is told apart from a key
    never inserted by [hc_get_stats], which counts it in [cold_keys], and
    by [hc_range_search], which passes it to the callback. *)
Lemma null_payload_key_observable :
  let idxA := fst (hc_insert (hc_create 9 2 params_full) 3 NULL) in
  let idxB := hc_create 9 2 params_full in
  fst (hc_search idxA 3) = NULL /\ fst (hc_search idxB 3) = NULL /\
  cold_keys (hc_get_stats idxA) = 1 /\ cold_keys (hc_get_stats idxB) = 0 /\
  fst (hc_range_search idxA 0 9 emit_log []) = [(3%Z, NULL)] /\
  fst (hc_range_search idxB 0 9 emit_log []) = [].
Proof. vm_compute. repeat split. Qed.

(* ================================================================== *)
(** * Further properties of the B-tree                                 *)
(* ================================================================== *)

(** ** [bt_split_child] *)

Lemma nth_split_children (cs : list BTreeNode) i y' z :
  i < length cs ->
  nth i (firstn i cs ++ y' :: z :: skipn (S i) cs) no_node = y' /\
  nth (S i) (firstn i cs ++ y' :: z :: skipn (S i) cs) no_node = z.
Proof.
  intros Hi.
  assert (Hlen : length (firstn i cs) = i) by (rewrite length_firstn; lia).
  split.
  - rewrite <- Hlen at 1. apply nth_middle.
  - rewrite app_nth2 by lia. rewrite Hlen.
    replace (S i - i) with 1 by lia. reflexivity.
Qed.

(** X1.  Splitting the full child [i] of a node that is not full keeps the
    stored pairs and their order, keeps the node well formed and gives it
    one key more: the median of the child, at index [i], between two
    children of [t - 1] keys each. *)
Theorem bt_split_child_keeps_pairs (t : nat) (ks vs : list Z)
        (cs : list BTreeNode) (i : nat) :
  1 <= t -> wf_node t (Node false ks vs cs) -> length ks < 2 * t - 1 ->
  i <= length ks -> nkeys (nth i cs no_node) = 2 * t - 1 ->
  let x' := bt_split_child t (Node false ks vs cs) i in
  entries x' = entries (Node false ks vs cs) /\
  wf_node t x' /\
  nkeys x' = S (length ks) /\
  nth i (node_keys x') 0%Z = nth (t - 1) (node_keys (nth i cs no_node)) 0%Z /\
  nkeys (nth i (node_children x') no_node) = t - 1 /\
  nkeys (nth (S i) (node_children x') no_node) = t - 1.
Proof.
  intros Ht Hwf Hnf Hi Hfull. cbv zeta.
  pose proof (wf_node_inv Hwf) as (Hvs & _ & Hcs & Hall).
  split; [apply bt_split_child_entries; auto|].
  split; [apply bt_split_child_wf; auto|].
  unfold bt_split_child, nkeys in *.
  cbn [node_children node_keys node_values node_leaf].
  rewrite insert_at_length, nth_insert_at_eq by lia.
  split; [reflexivity|]. split; [reflexivity|].
  match goal with
  | |- context [firstn i cs ++ ?a :: ?b :: _] =>
      destruct (@nth_split_children cs i a b ltac:(lia)) as [-> ->]
  end.
  cbn [node_keys]. rewrite !length_firstn, length_skipn. lia.
Qed.

Lemma bt_split_child_keeps_pairs_witness :
  let x := Node false [50]%Z [500]%Z
             [Node true [10; 20; 30]%Z [100; 200; 300]%Z [];
              Node true [60]%Z [600]%Z []] in
  entries (bt_split_child 2 x 0) = entries x /\
  node_keys (bt_split_child 2 x 0) = [20; 50]%Z.
Proof.
  intros x.
  assert (Hwf : wf_node 2 x).
  { unfold x. apply wf_internal; simpl; try lia.
    constructor; [apply wf_leaf; simpl; lia|].
    constructor; [apply wf_leaf; simpl; lia|constructor]. }
  destruct (@bt_split_child_keeps_pairs 2 [50]%Z [500]%Z
              [Node true [10; 20; 30]%Z [100; 200; 300]%Z [];
               Node true [60]%Z [600]%Z []] 0
              ltac:(lia) Hwf ltac:(simpl; lia) ltac:(simpl; lia) eq_refl)
    as (H1 & _).
  split; [exact H1|reflexivity].
Defined.

(** ** The shape of the trees that inserts build *)

Lemma shape_min t m m' h x :
  shape t m h x -> m' <= nkeys x -> shape t m' h x.
Proof.
  intros H Hm. destruct H; unfold nkeys in Hm; cbn [node_keys] in Hm;
    constructor; auto.
Qed.

Lemma split_halves_shape t h y :
  1 <= t -> shape t (t - 1) h y -> nkeys y = 2 * t - 1 ->
  shape t (t - 1) h
        (Node (node_leaf y) (firstn (t - 1) (node_keys y))
              (firstn (t - 1) (node_values y))
              (firstn t (node_children y))) /\
  shape t (t - 1) h
        (Node (node_leaf y) (firstn (t - 1) (skipn t (node_keys y)))
              (firstn (t - 1) (skipn t (node_values y)))
              (if node_leaf y then []
               else firstn t (skipn t (node_children y)))).
Proof.
  intros Ht Hs Hfull. unfold nkeys in Hfull.
  destruct y as [lf ks vs cs].
  cbn [node_children node_keys node_values node_leaf] in *.
  inversion Hs as [m0 ks0 vs0 cs0 Hm | m0 h0 ks0 vs0 cs0 Hm Hall]; subst;
    split; constructor; rewrite ?length_firstn, ?length_skipn; try lia.
  - apply (incl_Forall_sub (@incl_firstn _ t cs) Hall).
  - apply (incl_Forall_sub (@incl_firstn _ t _)).
    apply (incl_Forall_sub (@incl_skipn _ t cs) Hall).
Qed.

Lemma insert_leaf_length ks vs k v :
  length vs = length ks ->
  length ks <= length (fst (insert_leaf ks vs k v)).
Proof.
  intros Hvs.
  pose proof (scan_down_le ks k (length ks)) as Hp.
  assert (Hks : length ks =
                length (firstn (scan_down ks k (length ks)) ks) +
                length (skipn (scan_down ks k (length ks)) ks)).
  { rewrite <- length_app, firstn_skipn. reflexivity. }
  destruct (insert_leaf_cases ks vs k v Hvs)
    as [(la0 & va0 & v0 & _ & _ & _ & ->) | (_ & ->)]; cbn [fst];
    rewrite length_app; cbn [length]; rewrite ?dup_length; lia.
Qed.

Lemma bt_insert_nonfull_shape t k v :
  2 <= t ->
  forall fuel x m h x',
    wf_node t x -> nkeys x < 2 * t - 1 -> shape t m h x ->
    bt_insert_nonfull fuel t x k v = Some x' ->
    shape t m h x'.
Proof.
  intros Ht. induction fuel as [|fuel IH]; intros x m h x' Hwf Hnf Hs E;
    [discriminate|].
  destruct x as [lf ks vs cs]. unfold nkeys in Hnf. cbn [node_keys] in Hnf.
  pose proof (wf_node_inv Hwf) as (Hvs & Hn & Hcs & Hall).
  cbn [bt_insert_nonfull] in E. destruct lf.
  - (* leaf *)
    pose proof (insert_leaf_length ks vs k v Hvs) as Hl.
    destruct (insert_leaf ks vs k v) as [ks' vs']. cbn [fst] in Hl.
    injection E as <-. inversion Hs; subst. constructor. lia.
  - (* internal node *)
    cbv zeta in E.
    pose proof (scan_down_le ks k (length ks)) as Hi.
    set (i := scan_down ks k (length ks)) in *.
    set (y := nth i cs no_node) in *.
    inversion Hs as [|m0 h' ks0 vs0 cs0 Hm Hsh]; subst.
    assert (Hy : wf_node t y) by (apply wf_nth_child; exact Hall).
    assert (Hsy : shape t (t - 1) h' y).
    { rewrite Forall_forall in Hsh. apply Hsh. apply nth_In. lia. }
    destruct (nkeys y =? 2 * t - 1) eqn:Hfull.
    + apply Nat.eqb_eq in Hfull.
      pose proof (@bt_split_child_wf t ks vs cs i ltac:(lia) Hwf
                    ltac:(lia) Hi Hfull) as Hw1.
      destruct (@split_halves_shape t h' y ltac:(lia) Hsy Hfull)
        as [Hsy' Hsz].
      revert E Hw1. unfold bt_split_child.
      cbn [node_children node_keys node_values node_leaf andb]. fold y.
      set (y' := Node (node_leaf y) (firstn (t - 1) (node_keys y))
                      (firstn (t - 1) (node_values y))
                      (firstn t (node_children y))) in *.
      set (z := Node (node_leaf y) (firstn (t - 1) (skipn t (node_keys y)))
                     (firstn (t - 1) (skipn t (node_values y)))
                     (if node_leaf y then []
                      else firstn t (skipn t (node_children y)))) in *.
      set (cs1 := firstn i cs ++ y' :: z :: skipn (S i) cs).
      set (i1 := if (k >? _)%Z then S i else i).
      intros E Hw1.
      destruct (bt_insert_nonfull fuel t (nth i1 cs1 no_node) k v)
        as [c'|] eqn:Ec; [|discriminate].
      injection E as <-.
      destruct (@nth_split_children cs i y' z ltac:(lia)) as [Hny Hnz].
      fold cs1 in Hny, Hnz.
      pose proof (wf_node_inv Hw1) as (_ & _ & _ & Hall1).
      assert (Hsh1 : Forall (shape t (t - 1) h') cs1).
      { unfold cs1. apply Forall_app. split.
        - apply (incl_Forall_sub (@incl_firstn _ i cs) Hsh).
        - constructor; [exact Hsy'|]. constructor; [exact Hsz|].
          apply (incl_Forall_sub (@incl_skipn _ (S i) cs) Hsh). }
      assert (Hc : shape t (t - 1) h' (nth i1 cs1 no_node) /\
                   nkeys (nth i1 cs1 no_node) < 2 * t - 1).
      { unfold i1. destruct (k >? _)%Z; rewrite ?Hny, ?Hnz;
          (split; [assumption|]); unfold y', z, nkeys; cbn [node_keys];
          rewrite !length_firstn; lia. }
      destruct Hc as [Hsc Hnc].
      constructor.
      * rewrite insert_at_length. lia.
      * apply array_set_Forall; auto.
        apply (IH _ _ _ _ (wf_nth_child i1 Hall1) Hnc Hsc Ec).
    + apply Nat.eqb_neq in Hfull. cbn [andb node_children node_keys
                                        node_values node_leaf] in E.
      fold y in E.
      destruct (bt_insert_nonfull fuel t y k v) as [c'|] eqn:Ec;
        [|discriminate].
      injection E as <-.
      assert (Hny : nkeys y < 2 * t - 1).
      { destruct y as [lfy yks yvs ycs]. apply wf_node_inv in Hy.
        unfold nkeys in *. cbn [node_keys] in *. lia. }
      constructor; auto. apply array_set_Forall; auto.
      apply (IH _ _ _ _ Hy Hny Hsy Ec).
Qed.

Lemma bt_insert_shape tr k v h :
  tree_inv tr -> shape (bt_t tr) 0 h (root tr) ->
  exists h', shape (bt_t tr) 0 h' (root (bt_insert tr k v)).
Proof.
  intros (Ht & Hwf & Hs) Hsh. destruct tr as [r t]. unfold tree_entries in *.
  cbn [root bt_t] in *. unfold bt_insert. cbn [root bt_t].
  set (start := if nkeys r =? 2 * t - 1
                then bt_split_child t (Node false [] [] [r]) 0 else r).
  assert (H : wf_node t start /\ nkeys start < 2 * t - 1 /\
              entries start = entries r /\
              exists h', shape t 0 h' start).
  { unfold start. destruct (nkeys r =? 2 * t - 1) eqn:E.
    - apply Nat.eqb_eq in E.
      assert (Hw0 : wf_node t (Node false [] [] [r])).
      { constructor; simpl; auto; lia. }
      split; [apply bt_split_child_wf; simpl; auto; lia|].
      split.
      { unfold bt_split_child, nkeys. cbn [node_keys].
        rewrite insert_at_length. simpl. lia. }
      split.
      { rewrite bt_split_child_entries; simpl; auto; try lia.
        apply app_nil_r. }
      exists (S h). unfold bt_split_child.
      cbn [node_children node_keys node_values node_leaf nth firstn skipn
           app].
      assert (Hr : shape t (t - 1) h r)
        by (apply (shape_min Hsh); lia).
      destruct (@split_halves_shape t h r ltac:(lia) Hr E) as [H1 H2].
      constructor; [lia|]. constructor; [exact H1|].
      constructor; [exact H2|constructor].
    - apply Nat.eqb_neq in E. split; [exact Hwf|]. split.
      { destruct r as [lf ks vs cs]. apply wf_node_inv in Hwf.
        unfold nkeys in *. cbn [node_keys] in *. lia. }
      split; [reflexivity|]. exists h. exact Hsh. }
  destruct H as (Hw & Hnf & He & h' & Hsh'). rewrite <- He in Hs.
  destruct (@bt_insert_nonfull_ok t k v Ht (height start) start
              (le_n _) Hw Hnf Hs) as (r' & E & _).
  rewrite E. cbn [root]. exists h'.
  apply (bt_insert_nonfull_shape k v Ht _ Hw Hnf Hsh' E).
Qed.

Lemma bt_insert_all_inv t kvs :
  2 <= t ->
  let tr := bt_insert_all (bt_create t) kvs in
  tree_inv tr /\ bt_t tr = t /\ incl (tree_entries tr) kvs /\
  length (tree_entries tr) <= length kvs /\
  exists h, shape t 0 h (root tr).
Proof.
  intros Ht. induction kvs as [|[k v] kvs IH] using rev_ind; cbv zeta.
  - split; [apply tree_inv_create, Ht|]. split; [reflexivity|].
    split; [intros e []|]. split; [simpl; lia|].
    exists 0. constructor. simpl. lia.
  - cbv zeta in IH. destruct IH as (Hinv & Hbt & Hincl & Hlen & h & Hsh).
    rewrite bt_insert_all_snoc.
    destruct (bt_insert_ok k v Hinv) as (I1 & I2 & _ & I3 & _ & I4 & _).
    split; [exact I1|]. split; [congruence|]. split; [|split].
    + intros e He. apply I3 in He. apply in_or_app.
      destruct He as [<-|He]; [right; left; reflexivity|left; auto].
    + rewrite length_app. simpl. lia.
    + assert (Hsh0 : shape (bt_t (bt_insert_all (bt_create t) kvs)) 0 h
                           (root (bt_insert_all (bt_create t) kvs)))
        by (rewrite Hbt; exact Hsh).
      destruct (@bt_insert_shape _ k v h Hinv Hsh0) as (h' & Hsh').
      exists h'. rewrite Hbt in Hsh'. exact Hsh'.
Qed.

(** X2.  Whatever pairs are inserted into an empty tree of minimum degree
    [t >= 2], in whatever order and with whatever repetitions, the tree
    keeps the B-tree shape: every node has at most [2t - 1] keys and as
    many values, an internal node has one child more than keys, every node
    but the root has at least [t - 1] keys, all leaves are at the same
    depth, and the stored keys are in non-decreasing order. *)
Theorem btree_shape_after_inserts (t : nat) (kvs : list (BTKey * BTPayload)) :
  2 <= t ->
  let tr := bt_insert_all (bt_create t) kvs in
  wf_node t (root tr) /\
  (exists h, shape t 0 h (root tr)) /\
  StronglySorted Z.le (tree_keys tr).
Proof.
  intros Ht. cbv zeta.
  destruct (bt_insert_all_inv kvs Ht) as ((_ & Hwf & Hs) & Hbt & _ & _ & Hsh).
  rewrite Hbt in Hwf. split; [exact Hwf|]. split; [exact Hsh|exact Hs].
Qed.

Lemma btree_shape_after_inserts_witness :
  let tr := bt_insert_all (bt_create 2)
              [(5, 1); (3, 1); (8, 1); (3, 2); (1, 1); (9, 1); (5, 7)]%Z in
  wf_node 2 (root tr) /\ StronglySorted Z.le (tree_keys tr).
Proof.
  intros tr.
  destruct (@btree_shape_after_inserts 2
              [(5, 1); (3, 1); (8, 1); (3, 2); (1, 1); (9, 1); (5, 7)]%Z
              (le_n 2)) as (H1 & _ & H3).
  split; [exact H1|exact H3].
Defined.

(** ** The recursion of [bt_insert_nonfull] *)

Lemma bt_insert_nonfull_more_fuel t k v : forall fuel x x' n,
  bt_insert_nonfull fuel t x k v = Some x' ->
  bt_insert_nonfull (fuel + n) t x k v = Some x'.
Proof.
  induction fuel as [|fuel IH]; intros x x' n E; [discriminate|].
  destruct x as [lf ks vs cs]. cbn [Nat.add bt_insert_nonfull] in *.
  destruct lf; [exact E|]. cbv zeta in *.
  match type of E with
  | match bt_insert_nonfull fuel t ?c k v with _ => _ end = _ =>
      destruct (bt_insert_nonfull fuel t c k v) as [c'|] eqn:Ec;
        [|discriminate];
      rewrite (IH _ _ n Ec)
  end.
  exact E.
Qed.

Lemma split_halves_height y t :
  let y' := Node (node_leaf y) (firstn (t - 1) (node_keys y))
                 (firstn (t - 1) (node_values y))
                 (firstn t (node_children y)) in
  let z := Node (node_leaf y) (firstn (t - 1) (skipn t (node_keys y)))
                (firstn (t - 1) (skipn t (node_values y)))
                (if node_leaf y then []
                 else firstn t (skipn t (node_children y))) in
  height y' <= height y /\ height z <= height y.
Proof.
  destruct y as [lfy yks yvs ycs]. cbv zeta.
  cbn [node_children node_keys node_values node_leaf].
  rewrite !height_eq. split.
  - apply le_n_S, max_height_incl, incl_firstn.
  - apply le_n_S. destruct lfy; [simpl; lia|].
    apply max_height_incl.
    eapply incl_tran; [apply incl_firstn|apply incl_skipn].
Qed.

Lemma bt_insert_nonfull_total t k v :
  2 <= t ->
  forall fuel x,
    height x <= fuel -> wf_node t x -> nkeys x < 2 * t - 1 ->
    exists x', bt_insert_nonfull fuel t x k v = Some x'.
Proof.
  intros Ht. induction fuel as [|fuel IH]; intros x Hh Hwf Hnf.
  { pose proof (height_pos x). lia. }
  destruct x as [lf ks vs cs]. unfold nkeys in Hnf. cbn [node_keys] in Hnf.
  pose proof (wf_node_inv Hwf) as (Hvs & Hn & Hcs & Hall).
  cbn [bt_insert_nonfull]. destruct lf.
  { destruct (insert_leaf ks vs k v). eauto. }
  cbv zeta.
  pose proof (scan_down_le ks k (length ks)) as Hi.
  set (i := scan_down ks k (length ks)) in *.
  set (y := nth i cs no_node) in *.
  assert (Hy : wf_node t y) by (apply wf_nth_child; exact Hall).
  assert (Hhy : height y < height (Node false ks vs cs))
    by (apply height_nth_child; lia).
  destruct (nkeys y =? 2 * t - 1) eqn:Hfull.
  - apply Nat.eqb_eq in Hfull.
    pose proof (@bt_split_child_wf t ks vs cs i ltac:(lia) Hwf
                  ltac:(lia) Hi Hfull) as Hw1.
    pose proof (split_halves_height y t) as Hhz.
    revert Hw1 Hhz. unfold bt_split_child.
    cbn [node_children node_keys node_values node_leaf andb]. fold y.
    cbv zeta.
    set (y' := Node (node_leaf y) (firstn (t - 1) (node_keys y))
                    (firstn (t - 1) (node_values y))
                    (firstn t (node_children y))).
    set (z := Node (node_leaf y) (firstn (t - 1) (skipn t (node_keys y)))
                   (firstn (t - 1) (skipn t (node_values y)))
                   (if node_leaf y then []
                    else firstn t (skipn t (node_children y)))).
    set (cs1 := firstn i cs ++ y' :: z :: skipn (S i) cs).
    set (i1 := if (k >? _)%Z then S i else i).
    intros Hw1 [Hhy' Hhz].
    destruct (@nth_split_children cs i y' z ltac:(lia)) as [Hny Hnz].
    fold cs1 in Hny, Hnz.
    pose proof (wf_node_inv Hw1) as (_ & _ & _ & Hall1).
    assert (Hc : height (nth i1 cs1 no_node) <= fuel /\
                 nkeys (nth i1 cs1 no_node) < 2 * t - 1).
    { unfold i1. destruct (k >? _)%Z; rewrite ?Hny, ?Hnz;
        (split; [lia|]); unfold y', z, nkeys; cbn [node_keys];
        rewrite !length_firstn; lia. }
    destruct Hc as [Hhc Hnc].
    destruct (IH _ Hhc (wf_nth_child i1 Hall1) Hnc) as (c' & ->). eauto.
  - apply Nat.eqb_neq in Hfull.
    cbn [andb node_children node_keys node_values node_leaf]. fold y.
    assert (Hny : nkeys y < 2 * t - 1).
    { destruct y as [lfy yks yvs ycs]. apply wf_node_inv in Hy.
      unfold nkeys in *. cbn [node_keys] in *. lia. }
    destruct (IH y ltac:(lia) Hy Hny) as (c' & ->). eauto.
Qed.

(** X3.  On a well-formed node that is not full, the recursion of
    [bt_insert_nonfull] ends within [height x] calls: with that much fuel
    the model returns a node, and with any larger fuel it returns the same
    node. *)
Theorem bt_insert_nonfull_fuel (t : nat) (x : BTreeNode) (k : BTKey)
        (v : BTPayload) (fuel : nat) :
  2 <= t -> wf_node t x -> nkeys x < 2 * t - 1 -> height x <= fuel ->
  exists x',
    bt_insert_nonfull (height x) t x k v = Some x' /\
    bt_insert_nonfull fuel t x k v = Some x'.
Proof.
  intros Ht Hwf Hnf Hf.
  destruct (@bt_insert_nonfull_total t k v Ht (height x) x (le_n _) Hwf Hnf)
    as (x' & E).
  exists x'. split; [exact E|].
  replace fuel with (height x + (fuel - height x)) by lia.
  apply bt_insert_nonfull_more_fuel. exact E.
Qed.

Lemma bt_insert_nonfull_fuel_witness :
  let x := Node false [20]%Z [200]%Z
             [Node true [10]%Z [100]%Z [];
              Node true [30; 40]%Z [300; 400]%Z []] in
  exists x',
    bt_insert_nonfull (height x) 2 x 35 350 = Some x' /\
    bt_insert_nonfull 7 2 x 35 350 = Some x'.
Proof.
  intros x.
  apply (@bt_insert_nonfull_fuel 2 x 35%Z 350%Z 7).
  - lia.
  - unfold x. apply wf_internal; simpl; try lia.
    constructor; [apply wf_leaf; simpl; lia|].
    constructor; [apply wf_leaf; simpl; lia|constructor].
  - unfold x, nkeys. simpl. lia.
  - unfold x. simpl. lia.
Defined.

(** ** The effect of one insert *)

(** X4.  [bt_insert] of a pair into a tree that inserts have built stores
    the pair, adds no other pair, adds at most one to [bt_count_keys] and
    never lowers it, keeps the minimum degree and keeps the tree in the
    state the code relies on. *)
Theorem bt_insert_effect (tr : BTree) (k : BTKey) (v : BTPayload) :
  tree_inv tr ->
  let tr' := bt_insert tr k v in
  tree_inv tr' /\ bt_t tr' = bt_t tr /\
  In (k, v) (tree_entries tr') /\
  incl (tree_entries tr') ((k, v) :: tree_entries tr) /\
  bt_count_keys tr <= bt_count_keys tr' <= S (bt_count_keys tr).
Proof.
  intros Hinv. cbv zeta.
  destruct (bt_insert_ok k v Hinv) as (I1 & I2 & _ & I3 & I4 & I5 & _).
  rewrite (bt_count_keys_entries I1), (bt_count_keys_entries Hinv).
  split; [exact I1|]. split; [exact I2|]. split; [exact I4|].
  split; [exact I3|exact I5].
Qed.

Lemma bt_insert_effect_witness :
  let tr := bt_insert_all (bt_create 3) [(1, 101); (2, 102); (3, 103)]%Z in
  In (1, 999)%Z (tree_entries (bt_insert tr 1 999)) /\
  bt_count_keys tr <= bt_count_keys (bt_insert tr 1 999)
    <= S (bt_count_keys tr).
Proof.
  intros tr.
  assert (Hinv : tree_inv tr).
  { exact (proj1 (@bt_insert_all_inv 3 [(1, 101); (2, 102); (3, 103)]%Z ltac:(lia))). }
  destruct (@bt_insert_effect tr 1%Z 999%Z Hinv) as (_ & _ & H3 & _ & H5).
  split; [exact H3|exact H5].
Defined.

(** X5.  [bt_insert] of a key that the tree does not hold adds exactly the
    new pair: the stored pairs are the old ones and the new one,
    [bt_count_keys] grows by one, and [bt_search] of the key returns the
    inserted payload. *)
Theorem bt_insert_new_key (tr : BTree) (k : BTKey) (v : BTPayload)
        (st : option BTStats) :
  tree_inv tr -> ~ In k (tree_keys tr) ->
  let tr' := bt_insert tr k v in
  Permutation (tree_entries tr') ((k, v) :: tree_entries tr) /\
  bt_count_keys tr' = S (bt_count_keys tr) /\
  fst (bt_search tr' k st) = v.
Proof.
  intros Hinv Hfresh. cbv zeta.
  destruct (@bt_insert_fresh tr k v Hinv Hfresh) as [I1 I2].
  split; [exact I2|]. split.
  - rewrite (bt_count_keys_entries I1), (bt_count_keys_entries Hinv).
    rewrite (Permutation_length I2). reflexivity.
  - destruct (bt_search_spec k st I1) as [H1 _].
    assert (Hk : In k (tree_keys (bt_insert tr k v))).
    { unfold tree_keys. rewrite I2. left. reflexivity. }
    specialize (H1 Hk). rewrite I2 in H1.
    destruct H1 as [E|H1]; [congruence|].
    exfalso. apply Hfresh. apply (in_map fst) in H1. exact H1.
Qed.

Lemma bt_insert_new_key_witness :
  let tr := bt_insert_all (bt_create 2)
              [(1, 101); (2, 102); (3, 103); (4, 104); (2, 999)]%Z in
  bt_count_keys (bt_insert tr 7 107) = S (bt_count_keys tr) /\
  fst (bt_search (bt_insert tr 7 107) 7 None) = 107%Z.
Proof.
  intros tr.
  assert (Hinv : tree_inv tr).
  { exact (proj1 (@bt_insert_all_inv 2 [(1, 101); (2, 102); (3, 103); (4, 104); (2, 999)]%Z ltac:(lia))). }
  assert (Hfresh : ~ In 7%Z (tree_keys tr)).
  { vm_compute. intuition discriminate. }
  destruct (@bt_insert_new_key tr 7%Z 107%Z None Hinv Hfresh)
    as (_ & H2 & H3).
  split; [exact H2|exact H3].
Defined.

(** ** What a search returns and costs *)

Lemma search_path_height k x :
  1 <= length (search_path x k) <= height x.
Proof.
  induction x as [lf ks vs cs IH] using BTreeNode_induction.
  cbn [search_path]. rewrite height_eq. cbv zeta. cbn [length].
  destruct ((scan_up ks k <? length ks) &&
            (k =? nth (scan_up ks k) ks 0)%Z); [simpl; lia|].
  destruct lf; [simpl; lia|].
  rewrite at_child_nth_error.
  destruct (nth_error cs (scan_up ks k)) as [c|] eqn:Ec; [|simpl; lia].
  pose proof (nth_error_In _ _ Ec) as Hin.
  rewrite Forall_forall in IH. specialize (IH c Hin).
  pose proof (max_height_In _ _ Hin). lia.
Qed.

(** X6.  On a tree that inserts have built, [bt_search] returns a payload
    stored with the key when the key is stored, and [NULL] when it is not;
    the payload does not depend on the statistics argument; and with
    statistics the call adds to [node_visits] the length of the search
    path, between 1 and the height of the tree. *)
Theorem bt_search_sound (tr : BTree) (k : BTKey) (s : BTStats)
        (st : option BTStats) :
  tree_inv tr ->
  let p := fst (bt_search tr k st) in
  (In k (tree_keys tr) -> In (k, p) (tree_entries tr)) /\
  (~ In k (tree_keys tr) -> p = NULL) /\
  fst (bt_search tr k (Some s)) = p /\
  (exists n, snd (bt_search tr k (Some s)) =
             Some (mkBTStats (node_visits s + Z.of_nat n)) /\
             1 <= n <= height (root tr)).
Proof.
  intros Hinv. cbv zeta.
  destruct (bt_search_spec k st Hinv) as [H1 H2].
  split; [exact H1|]. split; [exact H2|].
  split; [apply bt_search_fst_stats|].
  exists (length (search_path (root tr) k)). split.
  - apply bt_search_node_visits.
  - apply search_path_height.
Qed.

Lemma bt_search_sound_witness :
  let tr := bt_insert_all (bt_create 2)
              [(1, 101); (2, 102); (3, 103); (4, 104)]%Z in
  fst (bt_search tr 6 None) = NULL /\
  In (3, fst (bt_search tr 3 None))%Z (tree_entries tr).
Proof.
  intros tr.
  assert (Hinv : tree_inv tr).
  { exact (proj1 (@bt_insert_all_inv 2 [(1, 101); (2, 102); (3, 103); (4, 104)]%Z ltac:(lia))). }
  destruct (@bt_search_sound tr 6%Z stats0 None Hinv) as (_ & H2 & _).
  destruct (@bt_search_sound tr 3%Z stats0 None Hinv) as (H1 & _).
  split.
  - apply H2. vm_compute. intuition discriminate.
  - apply H1. vm_compute. auto.
Defined.

(** ** What a range search passes to the callback *)

(** X7.  On a tree that inserts have built, [bt_range_search] with any
    callback and any initial state applies the callback, in order, to the
    pairs that the logging callback records; a pair is among them exactly
    when it is stored with a key in [[lo, hi]]; and none is when
    [lo > hi]. *)
Theorem bt_range_search_pairs (A : Type) (tr : BTree) (lo hi : BTKey)
        (cb : BTRangeCallback A) (arg : A) (st : option BTStats) :
  tree_inv tr ->
  let out := fst (bt_range_search lo hi emit_log tr [] None) in
  fst (bt_range_search lo hi cb tr arg st) = feed cb arg out /\
  (forall e, In e out <->
             In e (tree_entries tr) /\ (lo <= fst e <= hi)%Z) /\
  ((hi < lo)%Z -> out = []).
Proof.
  intros (_ & Hwf & Hs). cbv zeta. rewrite bt_range_search_log.
  split; [apply bt_range_node_feed|]. split.
  - intros e. split.
    + apply (@range_out_sound lo hi _ _ Hwf).
    + intros [He Hr]. eapply range_out_complete; eauto.
  - intros Hlt. destruct (range_out lo hi (root tr)) as [|e l] eqn:E;
      [reflexivity|].
    destruct (@range_out_sound lo hi _ _ Hwf e) as [_ Hr];
      [rewrite E; left; reflexivity|]. lia.
Qed.

Lemma bt_range_search_pairs_witness :
  let tr := bt_insert_all (bt_create 2)
              [(1, 101); (2, 102); (3, 103); (4, 104)]%Z in
  fst (bt_range_search 2 3 (fun k _ n => (n + k)%Z) tr 0%Z None) =
  feed (fun k _ n => (n + k)%Z) 0%Z
       (fst (bt_range_search 2 3 emit_log tr [] None)).
Proof.
  intros tr.
  assert (Hinv : tree_inv tr).
  { exact (proj1 (@bt_insert_all_inv 2 [(1, 101); (2, 102); (3, 103); (4, 104)]%Z ltac:(lia))). }
  exact (proj1 (@bt_range_search_pairs Z tr 2%Z 3%Z
                  (fun k _ n => (n + k)%Z) 0%Z None Hinv)).
Defined.

(** ** Counting *)

(** X8.  After any inserts into an empty tree of minimum degree [t >= 2],
    [bt_count_keys] is the number of stored pairs, every stored pair is one
    of the inserted pairs, and the count is at most the number of
    inserts. *)
Theorem bt_count_keys_after_inserts (t : nat)
        (kvs : list (BTKey * BTPayload)) :
  2 <= t ->
  let tr := bt_insert_all (bt_create t) kvs in
  bt_count_keys tr = length (tree_entries tr) /\
  incl (tree_entries tr) kvs /\
  bt_count_keys tr <= length kvs.
Proof.
  intros Ht. cbv zeta.
  destruct (bt_insert_all_inv kvs Ht) as (Hinv & _ & Hincl & Hlen & _).
  rewrite (bt_count_keys_entries Hinv). auto.
Qed.

Lemma bt_count_keys_after_inserts_witness :
  let tr := bt_insert_all (bt_create 3)
              [(1, 101); (2, 102); (3, 103); (1, 999)]%Z in
  bt_count_keys tr = length (tree_entries tr) /\ bt_count_keys tr <= 4.
Proof.
  intros tr.
  destruct (@bt_count_keys_after_inserts 3
              [(1, 101); (2, 102); (3, 103); (1, 999)]%Z ltac:(lia))
    as (H1 & _ & H3).
  split; [exact H1|exact H3].
Defined.

(* ================================================================== *)
(** * Further properties of the tiered index                           *)
(* ================================================================== *)

(** ** The statistics counters *)

Lemma searches_app ops1 ops2 :
  searches (ops1 ++ ops2) = (searches ops1 + searches ops2)%Z.
Proof.
  induction ops1 as [|[k v | k | lo hi] ops1 IH];
    cbn [searches app]; lia.
Qed.

(** The statistics after [hc_search]. *)
Lemma hc_search_stats idx k :
  let s := stats idx in
  let s' := stats (snd (hc_search idx k)) in
  let vh := fst (bt_search (hot idx) k (Some stats0)) in
  queries s' = (queries s + 1)%Z /\
  hot_keys s' = hot_keys s /\ cold_keys s' = cold_keys s /\
  (if (fst (hc_search idx k) =? NULL)%Z
   then not_found s' = (not_found s + 1)%Z /\
        hot_hits s' = hot_hits s /\ cold_hits s' = cold_hits s
   else not_found s' = not_found s /\
        if (vh =? NULL)%Z
        then hot_hits s' = hot_hits s /\
             cold_hits s' = (cold_hits s + 1)%Z
        else hot_hits s' = (hot_hits s + 1)%Z /\
             cold_hits s' = cold_hits s /\
             cold_node_visits s' = cold_node_visits s).
Proof.
  cbv zeta.
  assert (Ht : forall st,
    stats (if in_key_range idx k
           then store_score (set_stats idx st) k (next_score idx k)
           else set_stats idx st) = st).
  { intros st. destruct (in_key_range idx k); reflexivity. }
  destruct (hc_search_cases idx k)
    as [(H1 & ->) | [(H1 & H2 & ->) | (H1 & H2 & ->)]]; cbn [fst snd].
  - rewrite Ht. cbn.
    replace (_ =? NULL)%Z with false by lia. repeat split.
  - assert (Hs : forall (c : bool) i,
               stats (if c then maybe_promote i k else i) = stats i).
    { intros [] i; [|reflexivity].
      destruct (maybe_promote_frame i k) as (_ & _ & _ & _ & E). exact E. }
    rewrite Hs, Ht. cbn. rewrite H1.
    replace (_ =? NULL)%Z with false by lia. cbn. repeat split.
  - cbn. repeat split.
Qed.

Lemma hc_range_search_stats (A : Type) idx lo hi (cb : BTRangeCallback A)
      arg :
  let s := stats idx in
  let s' := stats (snd (hc_range_search idx lo hi cb arg)) in
  queries s' = queries s /\ hot_hits s' = hot_hits s /\
  cold_hits s' = cold_hits s /\ not_found s' = not_found s /\
  hot_keys s' = hot_keys s /\ cold_keys s' = cold_keys s.
Proof.
  unfold hc_range_search.
  destruct (bt_range_search _ _ _ (hot idx) _ _) as [c1 s1].
  destruct (bt_range_search _ _ _ (cold idx) _ _) as [c2 s2].
  cbn. auto 7.
Qed.

Lemma hc_insert_stats idx k v : stats (fst (hc_insert idx k v)) = stats idx.
Proof. unfold hc_insert. destruct (_ || _); reflexivity. Qed.

(** X9.  After any calls on a new index, in any interleaving, [queries]
    is the number of [hc_search] calls among them, every search has
    counted in exactly one of [hot_hits], [cold_hits] and [not_found], and
    none of them is negative. *)
Theorem stats_counters_consistent (mk : Z) (t : nat) (p : HCParams)
        (ops : list hc_op) :
  let s := hc_get_stats (hc_run ops (hc_create mk t p)) in
  queries s = searches ops /\
  (hot_hits s + cold_hits s + not_found s = queries s)%Z /\
  (0 <= hot_hits s)%Z /\ (0 <= cold_hits s)%Z /\ (0 <= not_found s)%Z.
Proof.
  cbv zeta. unfold hc_get_stats. cbn [queries hot_hits cold_hits not_found].
  induction ops as [|op ops IH] using rev_ind.
  - cbn. lia.
  - rewrite hc_run_snoc, searches_app.
    set (idx := hc_run ops (hc_create mk t p)) in *.
    destruct op as [k v | k | lo hi]; cbn [hc_step searches].
    + rewrite hc_insert_stats. lia.
    + destruct (hc_search_stats idx k) as (Q & _ & _ & H). cbv zeta in H.
      destruct (fst (hc_search idx k) =? NULL)%Z.
      * destruct H as (H1 & H2 & H3). lia.
      * destruct H as (H1 & H).
        destruct (fst (bt_search (hot idx) k (Some stats0)) =? NULL)%Z;
          lia.
    + destruct (hc_range_search_stats idx lo hi emit_log [])
        as (H1 & H2 & H3 & H4 & _). lia.
Qed.

(** ** The hot tree *)

Lemma NoDup_keys_perm_cons (l l' : list (Z * Z)) k v :
  NoDup (map fst l) -> ~ In k (map fst l) ->
  Permutation l' ((k, v) :: l) -> NoDup (map fst l').
Proof.
  intros Hnd Hk Hp.
  apply (Permutation_NoDup (l := map fst ((k, v) :: l))).
  - apply Permutation_sym, Permutation_map, Hp.
  - simpl. constructor; assumption.
Qed.

(** What the calls keep true of the two trees when no account is taken of
    how often a key is inserted. *)
Lemma run_trees_inv t mk p ops :
  2 <= t ->
  let idx := hc_run ops (hc_create mk t p) in
  incl (tree_entries (cold idx)) (inserted ops) /\
  incl (tree_entries (hot idx)) (inserted ops) /\
  NoDup (tree_keys (hot idx)) /\
  (Z.of_nat (bt_count_keys (hot idx)) <= cold_hits (stats idx))%Z.
Proof.
  intros Ht. induction ops as [|op ops IH] using rev_ind.
  - cbn. repeat split; try (intros e []); try constructor. lia.
  - cbv zeta in *. rewrite hc_run_snoc, inserted_app.
    pose proof (@hc_reachable_inv mk t p ops Ht) as Hinv.
    set (idx := hc_run ops (hc_create mk t p)) in *.
    destruct IH as (Ic & Ih & Ind & Icnt).
    destruct op as [k v | k | lo hi]; cbn [hc_step inserted].
    + (* hc_insert *)
      rewrite hc_insert_stats. unfold hc_insert.
      destruct ((k <? 0)%Z || (k >? max_key idx)%Z); cbn [fst hot cold
                                                          set_cold].
      * repeat split; auto; intros e He; apply in_or_app; left; auto.
      * destruct Hinv as (_ & Hc & _).
        destruct (bt_insert_ok k v Hc) as (_ & _ & _ & I2 & _).
        repeat split; auto.
        -- intros e He. apply I2 in He. apply in_or_app.
           destruct He as [<-|He]; [right; left; reflexivity|left; auto].
        -- intros e He. apply in_or_app; left; auto.
    + (* hc_search *)
      rewrite app_nil_r.
      destruct (hc_search_trees idx k) as (_ & _ & Ec & Eh).
      destruct (hc_search_stats idx k) as (_ & _ & _ & Hst).
      cbv zeta in Hst. rewrite Ec.
      assert (Hmono : (cold_hits (stats idx)
                       <= cold_hits (stats (snd (hc_search idx k))))%Z).
      { destruct (fst (hc_search idx k) =? NULL)%Z;
          [lia|]. destruct Hst as (_ & Hst).
        destruct (_ =? NULL)%Z; lia. }
      destruct Eh as [-> | (_ & -> & _ & Hvh & Hv)];
        [repeat split; auto; lia|].
      destruct (maybe_promote_cases idx k) as [-> | (_ & _ & _ & _ & ->)];
        [repeat split; auto; lia|].
      cbn [hot set_hot].
      assert (Hfresh : ~ In k (tree_keys (hot idx)))
        by (eapply hot_miss_not_key; eauto).
      destruct (@promoted_hot idx k
                  (fst (bt_search (cold idx) k (Some stats0))) Hinv Hfresh)
        as (P1 & P2 & _).
      split; [exact Ic|]. split; [|split].
      * intros e He. apply (Permutation_in _ P1) in He.
        destruct He as [<-|He]; [|apply Ih, He].
        apply Ic. apply bt_search_found; auto. apply Hinv.
      * unfold tree_keys. eapply NoDup_keys_perm_cons; eauto.
      * rewrite P2.
        assert (Hres : fst (hc_search idx k) =
                       fst (bt_search (cold idx) k (Some stats0))).
        { rewrite hc_search_result, Hvh. reflexivity. }
        rewrite Hres, Hvh in Hst.
        replace (_ =? NULL)%Z with false in Hst by lia.
        cbn [Z.eqb NULL] in Hst. lia.
    + (* hc_range_search *)
      rewrite app_nil_r.
      destruct (hc_range_search_frame idx lo hi emit_log [])
        as (-> & -> & _).
      destruct (hc_range_search_stats idx lo hi emit_log [])
        as (_ & _ & -> & _).
      repeat split; auto.
Qed.

(** X10.  After any calls on a new index with [t >= 2], whatever keys were
    inserted and however often: the hot tree holds no key twice, none of
    its payloads is [NULL], its keys are in [[0, max_key]], each of its
    pairs was given to some [hc_insert], and the [hot_keys] that
    [hc_get_stats] reports is at most [cold_hits]. *)
Theorem hot_tree_hygiene (t : nat) (mk : Z) (p : HCParams)
        (ops : list hc_op) :
  2 <= t ->
  let idx := hc_run ops (hc_create mk t p) in
  NoDup (tree_keys (hot idx)) /\
  (forall k v, In (k, v) (tree_entries (hot idx)) ->
               v <> NULL /\ (0 <= k <= mk)%Z /\ In (k, v) (inserted ops)) /\
  (Z.of_nat (hot_keys (hc_get_stats idx))
   <= cold_hits (hc_get_stats idx))%Z.
Proof.
  intros Ht. cbv zeta.
  destruct (@run_trees_inv t mk p ops Ht) as (_ & Ih & Ind & Icnt).
  pose proof (@hc_reachable_inv mk t p ops Ht) as (_ & _ & Hn & _).
  destruct (@hc_run_frame ops (hc_create mk t p)) as [Hmk _].
  cbn [hc_create max_key] in Hmk. rewrite Hmk in Hn.
  split; [exact Ind|]. split; [|exact Icnt].
  intros k v He. destruct (Hn _ He) as [H1 H2].
  split; [exact H1|]. split; [exact H2|apply Ih, He].
Qed.

Lemma hot_tree_hygiene_witness :
  let idx := hc_run [OpInsert 1 11; OpInsert 2 12; OpInsert 3 13;
                     OpSearch 3; OpInsert 1 21; OpSearch 3; OpSearch 1;
                     OpSearch 2]
                    (hc_create 9 3 params_full) in
  NoDup (tree_keys (hot idx)) /\
  (Z.of_nat (hot_keys (hc_get_stats idx))
   <= cold_hits (hc_get_stats idx))%Z.
Proof.
  intros idx.
  destruct (@hot_tree_hygiene 3 9%Z params_full
              [OpInsert 1 11; OpInsert 2 12; OpInsert 3 13;
               OpSearch 3; OpInsert 1 21; OpSearch 3; OpSearch 1;
               OpSearch 2] ltac:(lia)) as (H1 & _ & H3).
  split; [exact H1|exact H3].
Defined.

(** ** What a search may return *)

(** X11.  After any calls on a new index with [t >= 2], [hc_search]
    returns [NULL] or a payload that some [hc_insert] was given for that
    very key, a key of [[0, max_key]]; for a key that was never inserted
    it returns [NULL]. *)
Theorem hc_search_returns_inserted (t : nat) (mk : Z) (p : HCParams)
        (ops : list hc_op) (k : BTKey) :
  2 <= t ->
  let idx := hc_run ops (hc_create mk t p) in
  let r := fst (hc_search idx k) in
  (r = NULL \/ (In (k, r) (inserted ops) /\ (0 <= k <= mk)%Z)) /\
  (~ In k (map fst (inserted ops)) -> r = NULL).
Proof.
  intros Ht. cbv zeta.
  destruct (@run_trees_inv t mk p ops Ht) as (Ic & Ih & _).
  pose proof (@hc_reachable_inv mk t p ops Ht) as (Hh & Hc & Hn & Hr & _).
  destruct (@hc_run_frame ops (hc_create mk t p)) as [Hmk _].
  cbn [hc_create max_key] in Hmk. rewrite Hmk in Hr, Hn.
  set (idx := hc_run ops (hc_create mk t p)) in *.
  assert (Hfound : fst (hc_search idx k) <> NULL ->
                   In (k, fst (hc_search idx k)) (inserted ops) /\
                   (0 <= k <= mk)%Z).
  { rewrite hc_search_result.
    destruct (fst (bt_search (hot idx) k (Some stats0)) =? NULL)%Z eqn:E;
      intros Hne.
    - pose proof (bt_search_found k (Some stats0) Hc Hne) as Hin.
      split; [apply Ic, Hin|apply (Hr _ Hin)].
    - pose proof (bt_search_found k (Some stats0) Hh Hne) as Hin.
      split; [apply Ih, Hin|apply (Hn _ Hin)]. }
  split.
  - destruct (Z.eq_dec (fst (hc_search idx k)) NULL) as [E|Hne]; auto.
  - intros Hnot.
    destruct (Z.eq_dec (fst (hc_search idx k)) NULL) as [E|Hne]; auto.
    exfalso. apply Hnot. destruct (Hfound Hne) as [Hin _].
    apply (in_map fst) in Hin. exact Hin.
Qed.

Lemma hc_search_returns_inserted_witness :
  let ops := [OpInsert 1 11; OpInsert 2 12; OpInsert 3 13; OpSearch 3;
              OpInsert 1 21; OpSearch 3] in
  let idx := hc_run ops (hc_create 9 3 params_full) in
  (fst (hc_search idx 1) = NULL \/
   In (1%Z, fst (hc_search idx 1)) (inserted ops) /\ (0 <= 1 <= 9)%Z) /\
  fst (hc_search idx 7) = NULL.
Proof.
  intros ops idx. split.
  - exact (proj1 (@hc_search_returns_inserted 3 9%Z params_full ops 1%Z
                    ltac:(lia))).
  - apply (proj2 (@hc_search_returns_inserted 3 9%Z params_full ops 7%Z
                    ltac:(lia))).
    vm_compute. intros H. repeat (destruct H as [H|H]; [discriminate H|]).
    exact H.
Defined.

(** ** The hit scores *)

(** The score array after [hc_search]. *)
Lemma hc_search_hit_score idx k :
  hit_score (snd (hc_search idx k)) =
  if negb (fst (hc_search idx k) =? NULL)%Z && in_key_range idx k
  then array_set (hit_score idx) (Z.to_nat k) (next_score idx k)
  else hit_score idx.
Proof.
  assert (Ht : forall st,
    hit_score (if in_key_range idx k
               then store_score (set_stats idx st) k (next_score idx k)
               else set_stats idx st) =
    if in_key_range idx k
    then array_set (hit_score idx) (Z.to_nat k) (next_score idx k)
    else hit_score idx).
  { intros st. destruct (in_key_range idx k); reflexivity. }
  destruct (hc_search_cases idx k)
    as [(H1 & ->) | [(H1 & H2 & ->) | (H1 & H2 & ->)]]; cbn [fst snd].
  - rewrite Ht. replace (_ =? NULL)%Z with false by lia. reflexivity.
  - replace (_ =? NULL)%Z with false by lia. cbn [negb andb].
    destruct (in_key_range idx k && _).
    + destruct (maybe_promote_frame
                  (if in_key_range idx k
                   then store_score
                          (set_stats idx
                             (inc_cold_hits
                                (add_cold_node_visits
                                   (add_hot_node_visits
                                      (inc_queries (stats idx))
                                      (visits_of
                                         (snd (bt_search (hot idx) k
                                                 (Some stats0)))))
                                   (visits_of
                                      (snd (bt_search (cold idx) k
                                              (Some stats0)))))))
                          k (next_score idx k)
                   else set_stats idx
                          (inc_cold_hits
                             (add_cold_node_visits
                                (add_hot_node_visits
                                   (inc_queries (stats idx))
                                   (visits_of
                                      (snd (bt_search (hot idx) k
                                              (Some stats0)))))
                                (visits_of
                                   (snd (bt_search (cold idx) k
                                           (Some stats0))))))) k)
        as (_ & _ & _ & E & _).
      rewrite E. apply Ht.
    + apply Ht.
  - reflexivity.
Qed.

(** X12.  After any calls on a new index with [t >= 2], [hc_search(idx, k)]
    changes at most slot [k] of the score array: a search that returns
    [NULL] leaves the array as it was, and one that returns a payload
    stores [decay_alpha * hit_score[k] + 1.0] in slot [k], for a hit in
    the hot tree as for one in the cold tree; the array keeps its
    [max_key + 1] slots. *)
Theorem hc_search_score_update (t : nat) (mk : Z) (p : HCParams)
        (ops : list hc_op) (k : BTKey) :
  2 <= t ->
  let idx := hc_run ops (hc_create mk t p) in
  let idx' := snd (hc_search idx k) in
  length (hit_score idx') = Z.to_nat (mk + 1) /\
  (forall j, j <> Z.to_nat k ->
             nth j (hit_score idx') d_zero = nth j (hit_score idx) d_zero) /\
  (fst (hc_search idx k) = NULL -> hit_score idx' = hit_score idx) /\
  (fst (hc_search idx k) <> NULL ->
   nth (Z.to_nat k) (hit_score idx') d_zero =
   d_add (d_mul (decay_alpha p) (nth (Z.to_nat k) (hit_score idx) d_zero))
         d_one).
Proof.
  intros Ht. cbv zeta.
  pose proof (@hc_reachable_inv mk t p ops Ht) as Hinv.
  destruct (@hc_run_frame ops (hc_create mk t p)) as [Hmk Hp].
  cbn [hc_create max_key params] in Hmk, Hp.
  set (idx := hc_run ops (hc_create mk t p)) in *.
  pose proof Hinv as (Hh & Hc & Hn & Hr & Hlen).
  rewrite Hmk in Hlen, Hn, Hr.
  assert (Hfound : fst (hc_search idx k) <> NULL -> (0 <= k <= mk)%Z).
  { rewrite hc_search_result.
    destruct (fst (bt_search (hot idx) k (Some stats0)) =? NULL)%Z eqn:E;
      intros Hne.
    - apply (Hr _ (bt_search_found k (Some stats0) Hc Hne)).
    - apply (Hn _ (bt_search_found k (Some stats0) Hh Hne)). }
  rewrite hc_search_hit_score.
  destruct (Z.eq_dec (fst (hc_search idx k)) NULL) as [E|Hne].
  - rewrite E. cbn [Z.eqb NULL negb andb].
    repeat split; auto. intros H; contradiction.
  - replace (fst (hc_search idx k) =? NULL)%Z with false by lia.
    specialize (Hfound Hne).
    assert (Er : in_key_range idx k = true).
    { unfold in_key_range. rewrite Hmk. lia. }
    rewrite Er. cbn [negb andb].
    assert (Hk : Z.to_nat k < length (hit_score idx)) by lia.
    split; [|split; [|split]].
    + rewrite array_set_length; auto.
    + intros j Hj. apply nth_array_set_neq; auto.
    + intros H; contradiction.
    + intros _. rewrite nth_array_set_eq by lia.
      unfold next_score. rewrite Hp. reflexivity.
Qed.

Lemma hc_search_score_update_witness :
  let idx := hc_run [OpInsert 1 11; OpInsert 2 12; OpSearch 2]
                    (hc_create 9 3 params_half) in
  let idx' := snd (hc_search idx 2) in
  length (hit_score idx') = 10 /\
  nth 1 (hit_score idx') d_zero = nth 1 (hit_score idx) d_zero.
Proof.
  intros idx idx'.
  destruct (@hc_search_score_update 3 9%Z params_half
              [OpInsert 1 11; OpInsert 2 12; OpSearch 2] 2%Z ltac:(lia))
    as (H1 & H2 & _).
  split; [exact H1|]. apply H2. discriminate.
Defined.

(** ** No eviction *)

Lemma hot_grows_step idx op :
  hc_inv idx ->
  incl (tree_entries (hot idx)) (tree_entries (hot (hc_step idx op))).
Proof.
  intros Hinv. destruct op as [k v | k | lo hi]; cbn [hc_step].
  - unfold hc_insert. destruct (_ || _); cbn; apply incl_refl.
  - destruct (hc_search_trees idx k) as (_ & _ & _ & Eh).
    destruct Eh as [-> | (_ & -> & _ & Hvh & Hv)]; [apply incl_refl|].
    destruct (maybe_promote_cases idx k) as [-> | (_ & _ & _ & _ & ->)];
      [apply incl_refl|].
    cbn [hot set_hot].
    assert (Hfresh : ~ In k (tree_keys (hot idx)))
      by (eapply hot_miss_not_key; eauto).
    destruct (@promoted_hot idx k
                (fst (bt_search (cold idx) k (Some stats0))) Hinv Hfresh)
      as (P1 & _).
    intros e He. apply (Permutation_in _ (Permutation_sym P1)).
    right. exact He.
  - destruct (hc_range_search_frame idx lo hi emit_log []) as (-> & _).
    apply incl_refl.
Qed.

Lemma hot_grows_run ops : forall idx,
  hc_inv idx ->
  incl (tree_entries (hot idx)) (tree_entries (hot (hc_run ops idx))).
Proof.
  induction ops as [|op ops IH]; intros idx Hinv; [apply incl_refl|].
  change (hc_run (op :: ops) idx) with (hc_run ops (hc_step idx op)).
  eapply incl_tran; [apply hot_grows_step, Hinv|].
  apply IH, hc_step_inv, Hinv.
Qed.

Lemma hc_run_app ops1 ops2 idx :
  hc_run (ops1 ++ ops2) idx = hc_run ops2 (hc_run ops1 idx).
Proof. apply fold_left_app. Qed.

(** X13.  No eviction.  After any calls on a new index with [t >= 2], a
    pair [(k, v)] of the hot tree is still in it after any further calls;
    every later [hc_search] of [k] returns that [v], which is not [NULL],
    and counts as a hot hit; the number of hot keys never goes down. *)
Theorem promoted_key_stays_hot (t : nat) (mk : Z) (p : HCParams)
        (ops1 ops2 : list hc_op) (k : BTKey) (v : BTPayload) :
  2 <= t ->
  let idx1 := hc_run ops1 (hc_create mk t p) in
  let idx2 := hc_run ops2 idx1 in
  In (k, v) (tree_entries (hot idx1)) ->
  In (k, v) (tree_entries (hot idx2)) /\
  v <> NULL /\
  fst (hc_search idx2 k) = v /\
  hot_hits (stats (snd (hc_search idx2 k))) = (hot_hits (stats idx2) + 1)%Z /\
  bt_count_keys (hot idx1) <= bt_count_keys (hot idx2).
Proof.
  intros Ht. cbv zeta. intros Hin.
  pose proof (@hc_reachable_inv mk t p ops1 Ht) as Hinv1.
  pose proof (@hc_reachable_inv mk t p (ops1 ++ ops2) Ht) as Hinv2.
  destruct (@run_trees_inv t mk p ops1 Ht) as (_ & _ & Hnd1 & _).
  destruct (@run_trees_inv t mk p (ops1 ++ ops2) Ht) as (_ & _ & Hnd2 & _).
  rewrite hc_run_app in Hinv2, Hnd2.
  pose proof (hot_grows_run ops2 Hinv1) as Hincl.
  set (idx1 := hc_run ops1 (hc_create mk t p)) in *.
  set (idx2 := hc_run ops2 idx1) in *.
  pose proof Hinv2 as (Hh & _ & Hn & _).
  assert (Hin2 : In (k, v) (tree_entries (hot idx2))) by (apply Hincl, Hin).
  assert (Hv : v <> NULL) by (apply (Hn _ Hin2)).
  assert (Hs : fst (bt_search (hot idx2) k (Some stats0)) = v).
  { apply (bt_search_distinct (Some stats0) Hh
             (Permutation_refl _) Hnd2), Hin2. }
  assert (Hres : fst (hc_search idx2 k) = v).
  { rewrite hc_search_result, Hs.
    replace (v =? NULL)%Z with false by lia. reflexivity. }
  split; [exact Hin2|]. split; [exact Hv|]. split; [exact Hres|]. split.
  - destruct (hc_search_stats idx2 k) as (_ & _ & _ & Hst).
    cbv zeta in Hst. rewrite Hres, Hs in Hst.
    replace (v =? NULL)%Z with false in Hst by lia. apply Hst.
  - rewrite !bt_count_keys_entries by (apply Hinv1 || apply Hinv2).
    apply NoDup_incl_length; [|exact Hincl].
    apply (NoDup_map_inv fst). exact Hnd1.
Qed.

Lemma promoted_key_stays_hot_witness :
  let idx1 := hc_run [OpInsert 1 11; OpInsert 2 12; OpInsert 3 13;
                      OpSearch 3]
                     (hc_create 9 3 params_full) in
  let idx2 := hc_run [OpInsert 3 33; OpRange 0 9; OpSearch 1; OpInsert 4 14]
                     idx1 in
  fst (hc_search idx2 3) = 13%Z.
Proof.
  intros idx1 idx2.
  assert (Hin : In (3%Z, 13%Z) (tree_entries (hot idx1)))
    by (vm_compute; left; reflexivity).
  destruct (@promoted_key_stays_hot 3 9%Z params_full
              [OpInsert 1 11; OpInsert 2 12; OpInsert 3 13; OpSearch 3]
              [OpInsert 3 33; OpRange 0 9; OpSearch 1; OpInsert 4 14]
              3%Z 13%Z ltac:(lia) Hin) as (_ & _ & H & _).
  exact H.
Defined.

(** ** Range searches and the caller's callback *)

Section RangeVisits.
Variables lo hi : Z.
Variables A B : Type.
Variable cb : BTRangeCallback A.
Variable cb' : BTRangeCallback B.

Lemma range_loop_snd rec rec' cs :
  Forall (fun c => forall a b st, snd (rec c a st) = snd (rec' c b st)) cs ->
  forall ks vs st st',
    snd st = snd st' ->
    snd (range_loop lo hi cb rec cs ks vs st) =
    snd (range_loop lo hi cb' rec' cs ks vs st').
Proof.
  induction 1 as [|c cs Hc Hcs IH]; intros ks vs st st' E.
  - exact E.
  - cbn [range_loop]. destruct ks as [|key ks]; [rewrite E; apply Hc|].
    set (st1 := if (lo <=? key)%Z then rec c (fst st) (snd st) else st).
    set (st1' := if (lo <=? key)%Z then rec' c (fst st') (snd st')
                 else st').
    assert (E1 : snd st1 = snd st1').
    { unfold st1, st1'. destruct (lo <=? key)%Z; [|exact E].
      rewrite E. apply Hc. }
    set (st2 := if (key >=? lo)%Z && (key <=? hi)%Z
                then (cb key (hd NULL vs) (fst st1), snd st1) else st1).
    set (st2' := if (key >=? lo)%Z && (key <=? hi)%Z
                 then (cb' key (hd NULL vs) (fst st1'), snd st1')
                 else st1').
    assert (E2 : snd st2 = snd st2').
    { unfold st2, st2'. destruct (_ && _); exact E1. }
    destruct (key >? hi)%Z; [rewrite E2; apply Hc|apply IH, E2].
Qed.

(** The nodes that [bt_range_node] visits do not depend on the callback. *)
Lemma bt_range_node_snd x : forall a b st,
  snd (bt_range_node lo hi cb x a st) = snd (bt_range_node lo hi cb' x b st).
Proof.
  induction x as [lf ks vs cs IH] using BTreeNode_induction.
  intros a b st. cbn [bt_range_node]. destruct lf; [reflexivity|].
  apply range_loop_snd; auto.
Qed.
End RangeVisits.

Section RangeCount.
Variables lo hi : Z.
Variable A : Type.
Variable cb : BTRangeCallback A.

Lemma range_loop_visits rec cs :
  Forall (fun c => forall a s, exists n,
              (0 <= n)%Z /\
              snd (rec c a (Some s)) = Some (mkBTStats (node_visits s + n)))
         cs ->
  forall ks vs a s, exists n,
    (0 <= n)%Z /\
    snd (range_loop lo hi cb rec cs ks vs (a, Some s)) =
    Some (mkBTStats (node_visits s + n)).
Proof.
  induction 1 as [|c cs Hc Hcs IH]; intros ks vs a s.
  - exists 0%Z. cbn. split; [lia|]. destruct s; cbn. f_equal. f_equal. lia.
  - cbn [range_loop]. destruct ks as [|key ks]; [apply Hc|].
    cbn [fst snd].
    assert (H1 : exists a1 n1,
               (0 <= n1)%Z /\
               (if (lo <=? key)%Z then rec c a (Some s) else (a, Some s)) =
               (a1, Some (mkBTStats (node_visits s + n1)))).
    { destruct (lo <=? key)%Z.
      - destruct (Hc a s) as (n & Hn & E).
        exists (fst (rec c a (Some s))), n. split; [exact Hn|].
        rewrite <- E. apply surjective_pairing.
      - exists a, 0%Z. split; [lia|]. destruct s; cbn.
        do 3 f_equal. lia. }
    destruct H1 as (a1 & n1 & Hn1 & ->). cbn [fst snd].
    set (a2 := if (key >=? lo)%Z && (key <=? hi)%Z
               then cb key (hd NULL vs) a1 else a1).
    replace (if (key >=? lo)%Z && (key <=? hi)%Z
             then (cb key (hd NULL vs) a1,
                   Some (mkBTStats (node_visits s + n1)))
             else (a1, Some (mkBTStats (node_visits s + n1))))
      with (a2, Some (mkBTStats (node_visits s + n1)))
      by (unfold a2; destruct (_ && _); reflexivity).
    cbn [fst snd]. destruct (key >? hi)%Z.
    + destruct (Hc a2 (mkBTStats (node_visits s + n1))) as (n & Hn & E).
      exists (n1 + n)%Z. split; [lia|]. rewrite E. cbn [node_visits]. do 2 f_equal. lia.
    + destruct (IH ks (tl vs) a2 (mkBTStats (node_visits s + n1)))
        as (n & Hn & E).
      exists (n1 + n)%Z. split; [lia|]. rewrite E. cbn [node_visits]. do 2 f_equal. lia.
Qed.

(** [bt_range_node] counts at least the node it is called on. *)
Lemma bt_range_node_visits x : forall a s, exists n,
  (1 <= n)%Z /\
  snd (bt_range_node lo hi cb x a (Some s)) =
  Some (mkBTStats (node_visits s + n)).
Proof.
  induction x as [lf ks vs cs IH] using BTreeNode_induction.
  intros a s. cbn [bt_range_node visit]. destruct lf.
  - exists 1%Z. split; [lia|]. reflexivity.
  - destruct (@range_loop_visits (bt_range_node lo hi cb) cs) with
      (ks := ks) (vs := vs) (a := a)
      (s := mkBTStats (node_visits s + 1)) as (n & Hn & E).
    + eapply Forall_impl; [|exact IH]. cbn beta. intros c Hc a0 s0.
      destruct (Hc a0 s0) as (n & Hn & E). exists n. split; [lia|exact E].
    + exists (1 + n)%Z. split; [lia|]. rewrite E. cbn [node_visits]. do 2 f_equal. lia.
Qed.
End RangeCount.

(** The two runs of the callbacks of [hc_range_search], one with the
    caller's callback and one with the logging callback, stay in step. *)
Lemma hc_range_cb_any (A : Type) (cb : BTRangeCallback A) (arg : A) l :
  forall (c : HCRangeCtx A) (c' : HCRangeCtx (list (Z * Z))),
    seen c = seen c' -> max_key (ctx_idx c) = max_key (ctx_idx c') ->
    user_cb c = cb -> user_cb c' = emit_log ->
    user_arg c = feed cb arg (user_arg c') ->
    user_arg (feed (@hc_range_cb_hot A) c l) =
    feed cb arg (user_arg (feed (@hc_range_cb_hot _) c' l)).
Proof.
  induction l as [|[k v] l IH]; intros c c' Hs Hm Hc Hc' Ha; [exact Ha|].
  change (feed (@hc_range_cb_hot A) c ((k, v) :: l)) with
    (feed (@hc_range_cb_hot A) (hc_range_cb_hot k v c) l).
  change (feed (@hc_range_cb_hot (list (Z * Z))) c' ((k, v) :: l)) with
    (feed (@hc_range_cb_hot (list (Z * Z))) (hc_range_cb_hot k v c') l).
  destruct c as [ucb ua sn ci], c' as [ucb' ua' sn' ci'].
  cbn [seen ctx_idx user_cb user_arg] in Hs, Hm, Hc, Hc', Ha. subst.
  unfold hc_range_cb_hot. cbn [seen ctx_idx user_cb user_arg].
  rewrite <- Hm.
  destruct ((k <? 0)%Z || (k >? max_key ci)%Z);
    [apply IH; auto|].
  destruct (nth (Z.to_nat k) sn' 0 =? 0)%Z; apply IH; auto.
  cbn [user_arg]. unfold emit_log, feed. rewrite fold_left_app.
  reflexivity.
Qed.

(** X14.  [hc_range_search] with any callback [cb] and state [arg] calls
    [cb] on exactly the pairs, in the order, that a run with a logging
    callback records, and leaves the index as that run does: neither the
    pairs passed on nor the node visits counted depend on what the
    callback does. *)
Theorem hc_range_search_any_callback (A : Type) (idx : HCIndex)
        (lo hi : BTKey) (cb : BTRangeCallback A) (arg : A) :
  hc_range_search idx lo hi cb arg =
  (feed cb arg (fst (hc_range_search idx lo hi emit_log [])),
   snd (hc_range_search idx lo hi emit_log [])).
Proof.
  unfold hc_range_search, bt_range_search.
  set (c0 := mkHCRangeCtx cb arg _ idx).
  set (c0' := mkHCRangeCtx emit_log [] _ idx).
  pose proof (bt_range_node_feed lo hi (@hc_range_cb_hot A) (root (hot idx))
                c0 (Some stats0)) as F1.
  pose proof (bt_range_node_feed lo hi (@hc_range_cb_hot (list (Z * Z)))
                (root (hot idx)) c0' (Some stats0)) as F1'.
  pose proof (bt_range_node_snd lo hi (@hc_range_cb_hot A)
                (@hc_range_cb_hot (list (Z * Z))) (root (hot idx))
                c0 c0' (Some stats0)) as S1.
  destruct (bt_range_node lo hi (@hc_range_cb_hot A) (root (hot idx)) c0
              (Some stats0)) as [c1 s1].
  destruct (bt_range_node lo hi (@hc_range_cb_hot (list (Z * Z)))
              (root (hot idx)) c0' (Some stats0)) as [c1' s1'].
  cbn [fst snd] in F1, F1', S1. subst s1'.
  pose proof (bt_range_node_feed lo hi (@hc_range_cb_cold A)
                (root (cold idx)) c1 (Some stats0)) as F2.
  pose proof (bt_range_node_feed lo hi (@hc_range_cb_cold (list (Z * Z)))
                (root (cold idx)) c1' (Some stats0)) as F2'.
  pose proof (bt_range_node_snd lo hi (@hc_range_cb_cold A)
                (@hc_range_cb_cold (list (Z * Z))) (root (cold idx))
                c1 c1' (Some stats0)) as S2.
  destruct (bt_range_node lo hi (@hc_range_cb_cold A) (root (cold idx)) c1
              (Some stats0)) as [c2 s2].
  destruct (bt_range_node lo hi (@hc_range_cb_cold (list (Z * Z)))
              (root (cold idx)) c1' (Some stats0)) as [c2' s2'].
  cbn [fst snd] in F2, F2', S2 |- *. subst s2'. f_equal.
  rewrite F2, F2', F1, F1', !hc_range_cb_cold_hot, <- !feed_app.
  apply hc_range_cb_any; reflexivity.
Qed.

(** X15.  [hc_range_search] only reads: both trees, the score array and
    the query and hit counters are as before, every [hc_search] returns
    what it would have returned before, and each of the two node-visit
    counters grows by at least one. *)
Theorem hc_range_search_read_only (A : Type) (idx : HCIndex) (lo hi : BTKey)
        (cb : BTRangeCallback A) (arg : A) :
  let idx' := snd (hc_range_search idx lo hi cb arg) in
  hot idx' = hot idx /\ cold idx' = cold idx /\
  hit_score idx' = hit_score idx /\
  queries (stats idx') = queries (stats idx) /\
  hot_hits (stats idx') = hot_hits (stats idx) /\
  cold_hits (stats idx') = cold_hits (stats idx) /\
  not_found (stats idx') = not_found (stats idx) /\
  (hot_node_visits (stats idx) + 1 <= hot_node_visits (stats idx'))%Z /\
  (cold_node_visits (stats idx) + 1 <= cold_node_visits (stats idx'))%Z /\
  forall k, fst (hc_search idx' k) = fst (hc_search idx k).
Proof.
  cbv zeta.
  destruct (hc_range_search_frame idx lo hi cb arg) as (Eh & Ec & _ & _ & Es).
  destruct (hc_range_search_stats idx lo hi cb arg)
    as (S1 & S2 & S3 & S4 & _).
  repeat (split; [assumption|]).
  split; [|split].
  - unfold hc_range_search, bt_range_search.
    destruct (bt_range_node_visits lo hi (@hc_range_cb_hot A)
                (root (hot idx))
                (mkHCRangeCtx cb arg
                   (repeat 0%Z (Z.to_nat (max_key idx + 1))) idx) stats0)
      as (n & Hn & E).
    destruct (bt_range_node _ _ _ (root (hot idx)) _ _) as [c1 s1].
    destruct (bt_range_node _ _ _ (root (cold idx)) _ _) as [c2 s2].
    cbn [fst snd] in E |- *. subst s1. cbn. lia.
  - unfold hc_range_search, bt_range_search.
    destruct (bt_range_node _ _ _ (root (hot idx)) _ _) as [c1 s1].
    destruct (bt_range_node_visits lo hi (@hc_range_cb_cold A)
                (root (cold idx)) c1 stats0) as (n & Hn & E).
    destruct (bt_range_node _ _ _ (root (cold idx)) _ _) as [c2 s2].
    cbn [fst snd] in E |- *. subst s2. cbn. lia.
  - intros k. rewrite !hc_search_result, Eh, Ec. reflexivity.
Qed.

(** ** The driver *)

Lemma In_build_keys nkeys k :
  In k (build_keys nkeys) <-> (0 <= k < nkeys)%Z.
Proof.
  unfold build_keys. rewrite in_map_iff. split.
  - intros (n & <- & Hn). apply in_seq in Hn. lia.
  - intros Hk. exists (Z.to_nat k). split; [lia|]. apply in_seq. lia.
Qed.

Lemma NoDup_build_keys nkeys : NoDup (build_keys nkeys).
Proof.
  unfold build_keys. apply (NoDup_map_inv Z.to_nat). rewrite map_map.
  rewrite (map_ext _ (fun n => n)) by (intros n; apply Nat2Z.id).
  rewrite map_id. apply seq_NoDup.
Qed.

Lemma length_build_keys nkeys : length (build_keys nkeys) = Z.to_nat nkeys.
Proof. unfold build_keys. rewrite length_map, length_seq. reflexivity. Qed.

Lemma build_pairs_keys l :
  map fst (map (fun k : Z => (k, make_payload k)) l) = l.
Proof. rewrite map_map. cbn [fst]. apply map_id. Qed.

Lemma inserted_build l :
  inserted (map (fun k => OpInsert k (make_payload k)) l) =
  map (fun k => (k, make_payload k)) l.
Proof. induction l as [|k l IH]; cbn; [|rewrite IH]; reflexivity. Qed.

Lemma inserted_searches qs : inserted (map OpSearch qs) = [].
Proof. induction qs as [|q qs IH]; cbn; auto. Qed.

(** Searches of an index in which every key was inserted at most once. *)
Lemma hc_search_distinct t mk p ops :
  2 <= t -> NoDup (map fst (inserted ops)) ->
  (forall k, In k (map fst (inserted ops)) -> (0 <= k <= mk)%Z) ->
  let idx := hc_run ops (hc_create mk t p) in
  (forall k v, In (k, v) (inserted ops) -> fst (hc_search idx k) = v) /\
  (forall k, ~ In k (map fst (inserted ops)) ->
             fst (hc_search idx k) = NULL) /\
  bt_count_keys (cold idx) = length (inserted ops).
Proof.
  intros Ht Hnd Hr. cbv zeta.
  destruct (@distinct_run_inv t mk p ops Ht Hnd Hr) as [Hc Hh].
  pose proof (@hc_reachable_inv mk t p ops Ht) as (Ih & Ic & Inn & _).
  set (idx := hc_run ops (hc_create mk t p)) in *.
  destruct (bt_search_distinct (Some stats0) Ic Hc Hnd) as [C1 C2].
  split; [|split].
  - intros k v Hin. rewrite hc_search_result.
    destruct (fst (bt_search (hot idx) k (Some stats0)) =? NULL)%Z eqn:E.
    + apply C1, Hin.
    + assert (Hf : In (k, fst (bt_search (hot idx) k (Some stats0)))
                      (tree_entries (hot idx)))
        by (apply bt_search_found; auto; lia).
      apply Hh in Hf. rewrite Hc in Hf.
      eapply NoDup_keys_functional; [exact Hnd|exact Hf|exact Hin].
  - intros k Hnot. rewrite hc_search_result.
    destruct (fst (bt_search (hot idx) k (Some stats0)) =? NULL)%Z eqn:E.
    + apply C2, Hnot.
    + exfalso. apply Hnot.
      assert (Hf : In (k, fst (bt_search (hot idx) k (Some stats0)))
                      (tree_entries (hot idx)))
        by (apply bt_search_found; auto; lia).
      apply Hh in Hf. rewrite Hc in Hf.
      apply (in_map fst) in Hf. exact Hf.
  - rewrite (bt_count_keys_entries Ic). apply Permutation_length, Hc.
Qed.

Lemma misses_snoc nkeys qs q :
  misses nkeys (qs ++ [q]) =
  (misses nkeys qs + if (0 <? q)%Z && (q <? nkeys)%Z then 0 else 1)%Z.
Proof.
  unfold misses. rewrite filter_app, length_app. cbn [filter].
  destruct ((0 <? q)%Z && (q <? nkeys)%Z); cbn [negb length]; lia.
Qed.

(** What a search of the driver's index returns: the key itself, so the
    null pointer for key 0, or [NULL] for a key that was not inserted. *)
Lemma driver_search_null p nkeys qs q :
  let idx := hc_run (map (fun k => OpInsert k (make_payload k))
                         (build_keys nkeys) ++ map OpSearch qs)
                    (hc_create (nkeys - 1) btree_degree p) in
  (fst (hc_search idx q) =? NULL)%Z = negb ((0 <? q)%Z && (q <? nkeys)%Z) /\
  bt_count_keys (cold idx) = Z.to_nat nkeys.
Proof.
  cbv zeta.
  set (ops := map _ (build_keys nkeys) ++ map OpSearch qs).
  assert (Ei : inserted ops =
               map (fun k => (k, make_payload k)) (build_keys nkeys)).
  { unfold ops. rewrite inserted_app, inserted_build, inserted_searches.
    apply app_nil_r. }
  assert (Ek : map fst (inserted ops) = build_keys nkeys)
    by (rewrite Ei; apply build_pairs_keys).
  destruct (@hc_search_distinct btree_degree (nkeys - 1)%Z p ops)
    as (H1 & H2 & H3).
  - unfold btree_degree. lia.
  - rewrite Ek. apply NoDup_build_keys.
  - intros k. rewrite Ek, In_build_keys. lia.
  - split.
    + destruct ((0 <=? q)%Z && (q <? nkeys)%Z) eqn:E.
      * assert (Hin : In (q, make_payload q) (inserted ops)).
        { rewrite Ei. apply in_map_iff. exists q. split; [reflexivity|].
          apply In_build_keys. lia. }
        rewrite (H1 _ _ Hin). unfold make_payload, NULL. lia.
      * rewrite H2; [unfold NULL; lia|].
        rewrite Ek, In_build_keys. lia.
    + rewrite H3, Ei, length_map. apply length_build_keys.
Qed.

(** X16.  The hot/cold mode of the driver, for any parameters, any
    [nkeys] and any sampled keys [qs]: the cold tree ends with [nkeys]
    keys, [queries] is the number of samples, and [not_found] counts the
    samples outside [[1, nkeys - 1]]: key 0, which was inserted with
    [make_payload(0)], the null pointer, is reported as not found; every
    other sample is a hot hit or a cold hit. *)
Theorem main_hctree_counts (params : HCParams) (nkeys : Z)
        (qs : list BTKey) :
  let s := main_hctree params nkeys qs in
  cold_keys s = Z.to_nat nkeys /\
  queries s = Z.of_nat (length qs) /\
  not_found s = misses nkeys qs /\
  (hot_hits s + cold_hits s = Z.of_nat (length qs) - misses nkeys qs)%Z /\
  (Z.of_nat (hot_keys s) <= cold_hits s)%Z.
Proof.
  cbv zeta. unfold main_hctree, hc_get_stats.
  cbn [cold_keys queries not_found hot_hits cold_hits hot_keys].
  rewrite <- hc_run_app.
  split; [apply (driver_search_null params nkeys qs 0%Z)|].
  assert (Hcnt : (Z.of_nat (bt_count_keys
                    (hot (hc_run (map (fun k => OpInsert k (make_payload k))
                                      (build_keys nkeys) ++ map OpSearch qs)
                            (hc_create (nkeys - 1) btree_degree params))))
                  <= cold_hits
                       (stats
                          (hc_run (map (fun k => OpInsert k (make_payload k))
                                       (build_keys nkeys) ++ map OpSearch qs)
                             (hc_create (nkeys - 1) btree_degree params))))%Z).
  { apply run_trees_inv. unfold btree_degree. lia. }
  revert Hcnt. generalize (bt_count_keys
                    (hot (hc_run (map (fun k => OpInsert k (make_payload k))
                                      (build_keys nkeys) ++ map OpSearch qs)
                            (hc_create (nkeys - 1) btree_degree params)))).
  intros n Hcnt.
  cut (let s := stats
                  (hc_run (map (fun k => OpInsert k (make_payload k))
                               (build_keys nkeys) ++ map OpSearch qs)
                     (hc_create (nkeys - 1) btree_degree params)) in
       queries s = Z.of_nat (length qs) /\
       not_found s = misses nkeys qs /\
       (hot_hits s + cold_hits s + not_found s = queries s)%Z).
  { cbv zeta. intros (Q1 & Q2 & Q3). repeat split; auto; lia. }
  clear n Hcnt.
  induction qs as [|q qs IH] using rev_ind.
  - cbn [map]. rewrite app_nil_r. cbv zeta.
    assert (E : stats (hc_run (map (fun k => OpInsert k (make_payload k))
                                   (build_keys nkeys))
                         (hc_create (nkeys - 1) btree_degree params)) =
                mkHCStats 0 0 0 0 0 0 0 0).
    { generalize (build_keys nkeys). intros l.
      induction l as [|k l IHl] using rev_ind; [reflexivity|].
      rewrite map_app. cbn [map]. rewrite hc_run_snoc. cbn [hc_step].
      rewrite hc_insert_stats. exact IHl. }
    rewrite E. cbn. unfold misses. cbn. lia.
  - cbv zeta in *. rewrite map_app. cbn [map].
    rewrite app_assoc, hc_run_snoc. cbn [hc_step].
    destruct (driver_search_null params nkeys qs q) as [Hnull _].
    cbv zeta in Hnull.
    set (idx := hc_run _ _) in *.
    destruct (hc_search_stats idx q) as (Q & _ & _ & Hst).
    cbv zeta in Hst. rewrite Hnull in Hst.
    rewrite misses_snoc, length_app. cbn [length].
    destruct IH as (I1 & I2 & I3).
    destruct ((0 <? q)%Z && (q <? nkeys)%Z); cbn [negb] in Hst.
    + destruct Hst as (H1 & Hst).
      destruct (fst (bt_search (hot idx) q (Some stats0)) =? NULL)%Z; lia.
    + lia.
Qed.

Lemma fold_left_snoc (A B : Type) (f : A -> B -> A) l x a :
  fold_left f (l ++ [x]) a = f (fold_left f l a) x.
Proof. rewrite fold_left_app. reflexivity. Qed.

Lemma baseline_query_eq bt acc k :
  baseline_query bt acc k =
  ((fst acc + visits_of (snd (bt_search bt k (Some stats0))))%Z,
   if (fst (bt_search bt k (Some stats0)) =? NULL)%Z
   then (snd acc + 1)%Z else snd acc).
Proof.
  unfold baseline_query. destruct (bt_search bt k (Some stats0)).
  reflexivity.
Qed.

(** X17.  The baseline mode of the driver, for any [nkeys], any
    [nqueries] and any sampled keys: the query loop draws [nqueries] keys,
    none when [nqueries] is negative; the tree ends with [nkeys] keys;
    [nf] counts the samples outside [[1, nkeys - 1]], key 0 among them
    although it was inserted; the reported cold hits are [nqueries - nf],
    the number of the other samples plus, when [nqueries] is negative,
    [nqueries] itself; and every search visits at least one node. *)
Theorem main_baseline_counts (nkeys nqueries : Z) (sample : nat -> BTKey) :
  let qs := samples nqueries sample in
  let r := main_baseline nkeys nqueries sample in
  length qs = Z.to_nat nqueries /\
  base_cold_keys r = Z.to_nat nkeys /\
  base_not_found r = misses nkeys qs /\
  base_cold_hits r = (nqueries - misses nkeys qs)%Z /\
  base_cold_hits r =
  (Z.min nqueries 0 + (Z.of_nat (length qs) - misses nkeys qs))%Z /\
  (0 <= misses nkeys qs <= Z.of_nat (length qs))%Z /\
  (Z.of_nat (length qs) <= base_total_node_visits r)%Z.
Proof.
  cbv zeta. unfold main_baseline.
  assert (Hlen : length (samples nqueries sample) = Z.to_nat nqueries).
  { unfold samples. rewrite length_map, length_seq. reflexivity. }
  assert (Hm : (0 <= misses nkeys (samples nqueries sample)
                <= Z.of_nat (length (samples nqueries sample)))%Z).
  { unfold misses. split; [lia|]. apply inj_le, filter_length_le. }
  revert Hlen Hm. generalize (samples nqueries sample). intros qs Hlen Hm.
  set (kvs := map (fun k => (k, make_payload k)) (build_keys nkeys)).
  assert (Hnd : NoDup (map fst kvs))
    by (unfold kvs; rewrite build_pairs_keys; apply NoDup_build_keys).
  assert (Ht : 2 <= btree_degree) by (unfold btree_degree; lia).
  destruct (bt_insert_all_distinct kvs Ht Hnd) as [Hinv Hperm].
  set (bt := bt_insert_all (bt_create btree_degree) kvs) in *.
  assert (Hq : forall q,
             (fst (bt_search bt q (Some stats0)) =? NULL)%Z =
             negb ((0 <? q)%Z && (q <? nkeys)%Z)).
  { intros q.
    destruct (bt_search_distinct (Some stats0) Hinv Hperm Hnd) as [C1 C2].
    destruct ((0 <=? q)%Z && (q <? nkeys)%Z) eqn:E.
    - rewrite (C1 q (make_payload q)).
      + unfold make_payload, NULL. lia.
      + unfold kvs. apply in_map_iff. exists q. split; [reflexivity|].
        apply In_build_keys. lia.
    - rewrite C2; [unfold NULL; lia|].
      unfold kvs. rewrite build_pairs_keys, In_build_keys. lia. }
  assert (Hv : forall q,
             (1 <= visits_of (snd (bt_search bt q (Some stats0))))%Z).
  { intros q. unfold bt_search. rewrite bt_search_node_visits.
    cbn [visits_of node_visits stats0].
    pose proof (search_path_height q (root bt)). lia. }
  assert (Hfold : let acc := fold_left (baseline_query bt) qs (0, 0)%Z in
                  snd acc = misses nkeys qs /\
                  (Z.of_nat (length qs) <= fst acc)%Z).
  { clear Hlen Hm.
    induction qs as [|q qs IH] using rev_ind; [cbn; unfold misses; cbn; lia|].
    cbv zeta in *. rewrite fold_left_snoc, misses_snoc, length_app.
    cbn [length]. destruct IH as [I1 I2].
    rewrite baseline_query_eq. cbn [fst snd]. rewrite Hq.
    specialize (Hv q).
    destruct ((0 <? q)%Z && (q <? nkeys)%Z); cbn [negb]; lia. }
  cbv zeta in Hfold.
  destruct (fold_left (baseline_query bt) qs (0, 0)%Z) as [tv nf].
  cbn [fst snd] in Hfold. destruct Hfold as [F1 F2].
  cbn [base_cold_keys base_not_found base_cold_hits base_total_node_visits].
  split; [exact Hlen|]. split.
  { rewrite (bt_count_keys_entries Hinv), (Permutation_length Hperm).
    unfold kvs. rewrite length_map. apply length_build_keys. }
  split; [exact F1|]. split; [rewrite F1; reflexivity|].
  split; [rewrite F1, Hlen; lia|]. split; [exact Hm|exact F2].
Qed.

(** ** The cold tree and the promotion switch *)

(** X18.  The cold tree of an index is the tree that [bt_insert] builds
    from the accepted [hc_insert] calls alone, in their order: searches,
    promotions and range searches never change it, and rejected inserts
    leave no trace. *)
Theorem cold_tree_is_baseline (mk : Z) (t : nat) (p : HCParams)
        (ops : list hc_op) :
  cold (hc_run ops (hc_create mk t p)) =
  bt_insert_all (bt_create t) (accepted mk (inserted ops)).
Proof.
  induction ops as [|op ops IH] using rev_ind; [reflexivity|].
  rewrite hc_run_snoc, inserted_app. unfold accepted.
  rewrite filter_app. fold (accepted mk (inserted ops)).
  destruct (@hc_run_frame ops (hc_create mk t p)) as [Hmk _].
  cbn [hc_create max_key] in Hmk.
  set (idx := hc_run ops (hc_create mk t p)) in *.
  destruct op as [k v | k | lo hi]; cbn [hc_step inserted filter fst].
  - unfold hc_insert. rewrite Hmk.
    destruct ((k <? 0)%Z || (k >? mk)%Z); cbn [negb fst cold set_cold].
    + rewrite app_nil_r. exact IH.
    + rewrite bt_insert_all_snoc, <- IH. reflexivity.
  - rewrite app_nil_r.
    destruct (hc_search_trees idx k) as (_ & _ & -> & _). exact IH.
  - rewrite app_nil_r.
    destruct (hc_range_search_frame idx lo hi emit_log []) as (_ & -> & _).
    exact IH.
Qed.

(** X19.  With [params.inclusive == 0] nothing is ever promoted: after any
    calls the hot tree is still the empty tree, [hot_hits] and [hot_keys]
    are 0, and [hc_search] returns what [bt_search] finds in the cold
    tree. *)
Theorem no_promotion_unless_inclusive (mk : Z) (t : nat) (p : HCParams)
        (ops : list hc_op) :
  inclusive p = 0%Z ->
  let idx := hc_run ops (hc_create mk t p) in
  hot idx = bt_create t /\
  hot_hits (stats idx) = 0%Z /\
  hot_keys (hc_get_stats idx) = 0 /\
  forall k, fst (hc_search idx k) = fst (bt_search (cold idx) k (Some stats0)).
Proof.
  intros Hp. cbv zeta.
  assert (H : hot (hc_run ops (hc_create mk t p)) = bt_create t /\
              hot_hits (stats (hc_run ops (hc_create mk t p))) = 0%Z).
  { induction ops as [|op ops IH] using rev_ind; [split; reflexivity|].
    rewrite hc_run_snoc.
    destruct (@hc_run_frame ops (hc_create mk t p)) as [_ Hpar].
    cbn [hc_create params] in Hpar.
    set (idx := hc_run ops (hc_create mk t p)) in *.
    destruct IH as [Ih Is].
    destruct op as [k v | k | lo hi]; cbn [hc_step].
    - rewrite hc_insert_stats. split; [|exact Is].
      unfold hc_insert. destruct (_ || _); exact Ih.
    - split.
      + destruct (hc_search_trees idx k) as (_ & _ & _ & Eh).
        destruct Eh as [-> | (_ & -> & _)]; [exact Ih|].
        destruct (maybe_promote_cases idx k) as [-> | (Hincl & _)];
          [exact Ih|].
        rewrite Hpar in Hincl. contradiction.
      + destruct (hc_search_stats idx k) as (_ & _ & _ & Hst).
        cbv zeta in Hst.
        assert (Ev : fst (bt_search (hot idx) k (Some stats0)) = NULL)
          by (rewrite Ih; reflexivity).
        rewrite Ev in Hst. cbn [Z.eqb NULL] in Hst.
        destruct (fst (hc_search idx k) =? NULL)%Z; lia.
    - destruct (hc_range_search_frame idx lo hi emit_log []) as (-> & _).
      destruct (hc_range_search_stats idx lo hi emit_log [])
        as (_ & -> & _).
      split; assumption. }
  destruct H as [Ih Is]. split; [exact Ih|]. split; [exact Is|]. split.
  - unfold hc_get_stats. cbn [hot_keys]. rewrite Ih. reflexivity.
  - intros k. rewrite hc_search_result, Ih. reflexivity.
Qed.

Lemma no_promotion_unless_inclusive_witness :
  let p := mkHCParams d_half d_one d_one 0 in
  let idx := hc_run [OpInsert 1 11; OpInsert 2 12; OpSearch 2; OpSearch 2;
                     OpSearch 2]
                    (hc_create 9 3 p) in
  hot idx = bt_create 3 /\ hot_hits (stats idx) = 0%Z.
Proof.
  intros p idx.
  destruct (@no_promotion_unless_inclusive 9%Z 3 p
              [OpInsert 1 11; OpInsert 2 12; OpSearch 2; OpSearch 2;
               OpSearch 2] eq_refl) as (H1 & H2 & _).
  split; [exact H1|exact H2].
Defined.
